(** * fraudstream-pipeline: the consumer of src/fraud-consumer/app/main.py
       and the producer of src/producer/producer.py

    A shallow embedding of the scorer, the relational writer, the archive
    writer and the consumer loop, and the properties of the specification
    checked against it.

    Python data is modelled as Python has it: a [str] is a sequence of code
    points, an [int] is unbounded ([Z]), a [float] is an IEEE 754 binary64
    number (the Standard Library's [spec_float] at precision 53, rounding to
    nearest even), a [dict] keeps its insertion order.  Exceptions are
    explicit results; the calls that leave the process (database, object
    store, queue, clock) act on an explicit [world]. *)

From Stdlib Require Import ZArith List Bool Lia.
From Stdlib Require String Ascii.
From Stdlib Require Import Floats.SpecFloat.
Import ListNotations String.StringSyntax.
Local Open Scope Z_scope.
Set Warnings "-register-all".
Bind Scope string_scope with String.string.

(* ================================================================== *)
(** * Python values *)

(** A [str]: its code points, each in [0, 0x10FFFF]. *)
Definition pystr := list Z.

(** A string literal of the source (ASCII). *)
Definition str (s : String.string) : pystr :=
  map (fun a => Z.of_N (Ascii.N_of_ascii a)) (String.list_ascii_of_string s).

Definition pystr_eqb (a b : pystr) : bool :=
  if list_eq_dec Z.eq_dec a b then true else false.

(** The exceptions the consumer can meet; all derive from [Exception]. *)
Inductive exn :=
| KeyError (key : pystr)
| TypeError
| AttributeError
| OverflowError
| UnicodeEncodeError
| JSONDecodeError
| OperationalError
| OtherError (tag : Z).

Definition is_OperationalError (e : exn) : bool :=
  match e with OperationalError => true | _ => false end.

(** What [json.loads] can return. *)
Inductive pyval :=
| VNone
| VBool (b : bool)
| VInt (z : Z)
| VFloat (f : spec_float)
| VStr (s : pystr)
| VList (l : list pyval)
| VDict (d : list (pystr * pyval)).

Definition dict := list (pystr * pyval).

Fixpoint dict_get (k : pystr) (d : dict) : option pyval :=
  match d with
  | [] => None
  | (k', v) :: d' => if pystr_eqb k k' then Some v else dict_get k d'
  end.

(** [d[k] = v]: an existing key keeps its place, a new key goes last. *)
Fixpoint dict_set (k : pystr) (v : pyval) (d : dict) : dict :=
  match d with
  | [] => [(k, v)]
  | (k', v') :: d' =>
      if pystr_eqb k k' then (k', v) :: d' else (k', v') :: dict_set k v d'
  end.

(** [tx[key]] *)
Definition subscript (tx : pyval) (key : pystr) : exn + pyval :=
  match tx with
  | VDict d => match dict_get key d with
               | Some v => inr v
               | None => inl (KeyError key)
               end
  | _ => inl TypeError
  end.

(** Structural equality of values, for keys of the relational store. *)
Fixpoint pyval_eqb (a b : pyval) {struct a} : bool :=
  match a, b with
  | VNone, VNone => true
  | VBool x, VBool y => Bool.eqb x y
  | VInt x, VInt y => Z.eqb x y
  | VFloat x, VFloat y =>
      match x, y with
      | S754_zero s, S754_zero t => Bool.eqb s t
      | S754_infinity s, S754_infinity t => Bool.eqb s t
      | S754_nan, S754_nan => true
      | S754_finite s m e, S754_finite t n f =>
          Bool.eqb s t && Pos.eqb m n && Z.eqb e f
      | _, _ => false
      end
  | VStr x, VStr y => pystr_eqb x y
  | VList x, VList y =>
      (fix go (l1 l2 : list pyval) : bool :=
         match l1, l2 with
         | [], [] => true
         | u :: l1', v :: l2' => pyval_eqb u v && go l1' l2'
         | _, _ => false
         end) x y
  | VDict x, VDict y =>
      (fix go (l1 l2 : list (pystr * pyval)) : bool :=
         match l1, l2 with
         | [], [] => true
         | (k, u) :: l1', (k', v) :: l2' =>
             pystr_eqb k k' && pyval_eqb u v && go l1' l2'
         | _, _ => false
         end) x y
  | _, _ => false
  end.

(* ================================================================== *)
(** * [str.encode()]: UTF-8 *)

Definition is_surrogate (c : Z) : bool := (0xD800 <=? c) && (c <=? 0xDFFF).

Definition utf8_char (c : Z) : option (list Z) :=
  if c <? 0 then None
  else if c <? 0x80 then Some [c]
  else if c <? 0x800 then
    Some [Z.lor 0xC0 (Z.shiftr c 6); Z.lor 0x80 (Z.land c 0x3F)]
  else if is_surrogate c then None
  else if c <? 0x10000 then
    Some [Z.lor 0xE0 (Z.shiftr c 12);
          Z.lor 0x80 (Z.land (Z.shiftr c 6) 0x3F);
          Z.lor 0x80 (Z.land c 0x3F)]
  else if c <? 0x110000 then
    Some [Z.lor 0xF0 (Z.shiftr c 18);
          Z.lor 0x80 (Z.land (Z.shiftr c 12) 0x3F);
          Z.lor 0x80 (Z.land (Z.shiftr c 6) 0x3F);
          Z.lor 0x80 (Z.land c 0x3F)]
  else None.

(** [s.encode()]: the bytes, or [UnicodeEncodeError] on a lone surrogate. *)
Fixpoint encode (s : pystr) : exn + list Z :=
  match s with
  | [] => inr []
  | c :: s' =>
      match utf8_char c, encode s' with
      | Some bs, inr rest => inr (bs ++ rest)
      | _, _ => inl UnicodeEncodeError
      end
  end.

Definition encodable (s : pystr) : Prop :=
  Forall (fun c => 0 <= c < 0x110000 /\ is_surrogate c = false) s.

(* ================================================================== *)
(** * [hashlib.sha256] (FIPS 180-4), on 32-bit words kept in [Z] *)

Module Sha256.

Definition w32 (x : Z) : Z := x mod 2 ^ 32.
Definition add32 (x y : Z) : Z := w32 (x + y).
Definition rotr (n x : Z) : Z :=
  w32 (Z.lor (Z.shiftr x n) (Z.shiftl x (32 - n))).
Definition not32 (x : Z) : Z := Z.lxor x 0xFFFFFFFF.

Definition Ch (x y z : Z) := Z.lxor (Z.land x y) (Z.land (not32 x) z).
Definition Maj (x y z : Z) :=
  Z.lxor (Z.lxor (Z.land x y) (Z.land x z)) (Z.land y z).
Definition bsig0 (x : Z) := Z.lxor (Z.lxor (rotr 2 x) (rotr 13 x)) (rotr 22 x).
Definition bsig1 (x : Z) := Z.lxor (Z.lxor (rotr 6 x) (rotr 11 x)) (rotr 25 x).
Definition ssig0 (x : Z) := Z.lxor (Z.lxor (rotr 7 x) (rotr 18 x)) (Z.shiftr x 3).
Definition ssig1 (x : Z) := Z.lxor (Z.lxor (rotr 17 x) (rotr 19 x)) (Z.shiftr x 10).

(** The round constants are the first 32 bits of the fractional parts of
    the cube roots of the first 64 primes, the initial hash value those of
    the square roots of the first 8. *)
Definition is_prime (n : Z) : bool :=
  (2 <=? n) &&
  forallb (fun d => negb (n mod Z.of_nat d =? 0) || (n <=? Z.of_nat d))
          (seq 2 (Z.to_nat (Z.sqrt n))).

Definition primes64 : list Z :=
  Eval vm_compute in filter is_prime (map Z.of_nat (seq 2 310)).

(** The integer cube root, bit by bit from bit [bits - 1] down. *)
Fixpoint icbrt (bits : nat) (n r : Z) : Z :=
  match bits with
  | O => r
  | S b =>
      let r' := r + 2 ^ Z.of_nat b in
      icbrt b n (if r' * r' * r' <=? n then r' else r)
  end.

Definition K : list Z :=
  Eval vm_compute in map (fun p => w32 (icbrt 36 (p * 2 ^ 96) 0)) primes64.

Definition H0 : list Z :=
  Eval vm_compute in map (fun p => w32 (Z.sqrt (p * 2 ^ 64))) (firstn 8 primes64).

(** Padding: the byte 0x80, zeros up to 56 mod 64, the bit length on 8 bytes. *)
Definition be_bytes (n : nat) (x : Z) : list Z :=
  map (fun i => (Z.shiftr x (8 * Z.of_nat i)) mod 256) (rev (seq 0 n)).

Definition pad (msg : list Z) : list Z :=
  let len := Z.of_nat (length msg) in
  let zeros := Z.to_nat ((55 - len) mod 64) in
  msg ++ [0x80] ++ repeat 0 zeros ++ be_bytes 8 (8 * len).

Fixpoint be_word (bs : list Z) : Z :=
  match bs with
  | [] => 0
  | b :: bs' => Z.shiftl b (8 * Z.of_nat (length bs')) + be_word bs'
  end.

(** The bytes cut into big-endian words, four bytes each. *)
Fixpoint words (fuel : nat) (bs : list Z) : list Z :=
  match fuel, bs with
  | S fuel', _ :: _ => be_word (firstn 4 bs) :: words fuel' (skipn 4 bs)
  | _, _ => []
  end.

(** The message schedule: 16 words of the block, extended to 64. *)
Fixpoint extend (n : nat) (w : list Z) : list Z :=
  match n with
  | O => w
  | S n' =>
      let t := length w in
      let g i := nth (t - i) w 0 in
      extend n' (w ++ [add32 (add32 (ssig1 (g 2%nat)) (g 7%nat))
                             (add32 (ssig0 (g 15%nat)) (g 16%nat))])
  end.

Definition round (st : list Z) (kw : Z * Z) : list Z :=
  match st with
  | [a; b; c; d; e; f; g; h] =>
      let t1 := add32 (add32 (add32 h (bsig1 e)) (add32 (Ch e f g) (fst kw))) (snd kw) in
      let t2 := add32 (bsig0 a) (Maj a b c) in
      [add32 t1 t2; a; b; c; add32 d t1; e; f; g]
  | _ => st
  end.

Definition compress (h : list Z) (block : list Z) : list Z :=
  let w := extend 48 block in
  let st := fold_left round (combine K w) h in
  map (fun p => add32 (fst p) (snd p)) (combine h st).

Fixpoint blocks (fuel : nat) (ws : list Z) (h : list Z) : list Z :=
  match fuel, ws with
  | S fuel', _ :: _ => blocks fuel' (skipn 16 ws) (compress h (firstn 16 ws))
  | _, _ => h
  end.

(** The digest, eight 32-bit words. *)
Definition digest (msg : list Z) : list Z :=
  let bs := pad msg in
  let ws := words (length bs) bs in
  blocks (length ws) ws H0.

Definition hex_digit (n : Z) : Z :=
  if n <? 10 then 48 + n else 87 + n.

(** [.hexdigest()]: 64 lower-case hexadecimal digits. *)
Definition hexdigest (msg : list Z) : pystr :=
  flat_map (fun w => map (fun i => hex_digit (Z.shiftr w (4 * Z.of_nat i) mod 16))
                         (rev (seq 0 8)))
           (digest msg).

End Sha256.

(** [int(s, 16)] on a string of hexadecimal digits. *)
Definition hex_value (c : Z) : Z :=
  if (48 <=? c) && (c <=? 57) then c - 48
  else if (97 <=? c) && (c <=? 102) then c - 87
  else c - 55.

Definition int16 (s : pystr) : Z :=
  fold_left (fun acc c => 16 * acc + hex_value c) s 0.

(* ================================================================== *)
(** * [float]: IEEE 754 binary64 *)

Definition prec : Z := 53.
Definition emax : Z := 1024.

Definition float := spec_float.

Definition fmul : float -> float -> float := SFmul prec emax.
Definition fadd : float -> float -> float := SFadd prec emax.
Definition fdiv : float -> float -> float := SFdiv prec emax.
Definition fltb : float -> float -> bool := SFltb.
Definition fleb : float -> float -> bool := SFleb.
Definition valid (f : float) : bool := valid_binary prec emax f.

(** The correctly rounded float of an integer. *)
Definition float_of_Z (z : Z) : float := binary_normalize prec emax z 0 false.

(** The literals of [score]. *)
Definition f_1_0 : float := S754_finite false 4503599627370496 (-52).
Definition f_0_3 : float := S754_finite false 5404319552844595 (-54).
Definition f_0_7 : float := S754_finite false 6305039478318694 (-53).
Definition f_100 : float := S754_finite false 7036874417766400 (-46).
Definition f_500 : float := S754_finite false 8796093022208000 (-44).
Definition f_zero : float := S754_zero false.

(** The float an [int] converts to in mixed arithmetic; an [int] whose
    nearest float is infinite raises [OverflowError]. *)
Definition int_to_float (z : Z) : exn + float :=
  match float_of_Z z with
  | S754_infinity _ => inl OverflowError
  | f => inr f
  end.

(** The left operand of [x / 500.0]. *)
Definition as_float (v : pyval) : exn + float :=
  match v with
  | VFloat f => inr f
  | VInt z => int_to_float z
  | VBool b => int_to_float (if b then 1 else 0)
  | _ => inl TypeError
  end.

(** [min(a, b)] of two floats: [b] when [b < a], else [a]. *)
Definition pymin (a b : float) : float := if fltb b a then b else a.

(* ================================================================== *)
(** * The scorer *)

(** [int(hashlib.sha256(card.encode()).hexdigest(), 16) % 100] *)
Definition hash_bucket (card : pyval) : exn + Z :=
  match card with
  | VStr s =>
      match encode s with
      | inr bytes => inr (int16 (Sha256.hexdigest bytes) mod 100)
      | inl e => inl e
      end
  | _ => inl AttributeError
  end.

Definition score_of (h : Z) (amount : float) : float :=
  let base := fdiv amount f_500 in
  pymin f_1_0 (fadd (fmul f_0_3 base) (fmul f_0_7 (fdiv (float_of_Z h) f_100))).

Definition score (tx : pyval) : exn + float :=
  match subscript tx (str "card_hash") with
  | inl e => inl e
  | inr card =>
      match hash_bucket card with
      | inl e => inl e
      | inr h =>
          match subscript tx (str "amount") with
          | inl e => inl e
          | inr a =>
              match as_float a with
              | inl e => inl e
              | inr amount => inr (score_of h amount)
              end
          end
      end
  end.

(* ================================================================== *)
(** * [json.dumps] *)

(** What the consumer takes from its runtime: the parser of [json.loads],
    the printer of a finite float ([float.__repr__]) and the configured
    [MODEL_VERSION]. *)
Class Runtime := {
  json_loads : pystr -> exn + pyval;
  float_repr : float -> pystr;
  MODEL_VERSION : pystr
}.

Fixpoint decimal_digits (fuel : nat) (n : Z) (acc : pystr) : pystr :=
  match fuel with
  | O => acc
  | S fuel' =>
      let acc' := (48 + n mod 10) :: acc in
      if n <? 10 then acc' else decimal_digits fuel' (n / 10) acc'
  end.

(** [str(z)] of an [int]. *)
Definition int_repr (z : Z) : pystr :=
  let digits := decimal_digits (S (Z.to_nat (Z.log2 (Z.abs z)))) (Z.abs z) [] in
  if z <? 0 then 45 :: digits else digits.

Definition hex4 (c : Z) : pystr :=
  map (fun i => Sha256.hex_digit (Z.shiftr c (4 * Z.of_nat i) mod 16)) (rev (seq 0 4)).

(** One code point inside a JSON string, with [ensure_ascii]. *)
Definition escape_char (c : Z) : pystr :=
  if c =? 34 then [92; 34]
  else if c =? 92 then [92; 92]
  else if c =? 10 then str "\n"
  else if c =? 13 then str "\r"
  else if c =? 9 then str "\t"
  else if c =? 8 then str "\b"
  else if c =? 12 then str "\f"
  else if (32 <=? c) && (c <=? 126) then [c]
  else if c <? 0x10000 then str "\u" ++ hex4 c
  else
    let n := c - 0x10000 in
    str "\u" ++ hex4 (Z.lor 0xD800 (Z.land (Z.shiftr n 10) 0x3FF)) ++
    str "\u" ++ hex4 (Z.lor 0xDC00 (Z.land n 0x3FF)).

Definition quote (s : pystr) : pystr := [34] ++ flat_map escape_char s ++ [34].

Fixpoint join (sep : pystr) (parts : list pystr) : pystr :=
  match parts with
  | [] => []
  | [x] => x
  | x :: rest => x ++ sep ++ join sep rest
  end.

Section Dumps.
Context {R : Runtime}.

Definition dumps_float (f : float) : pystr :=
  match f with
  | S754_nan => str "NaN"
  | S754_infinity false => str "Infinity"
  | S754_infinity true => str "-Infinity"
  | _ => float_repr f
  end.

(** [json.dumps(v)] with the default separators [", "] and [": "]. *)
Fixpoint json_dumps (v : pyval) : pystr :=
  match v with
  | VNone => str "null"
  | VBool true => str "true"
  | VBool false => str "false"
  | VInt z => int_repr z
  | VFloat f => dumps_float f
  | VStr s => quote s
  | VList l => str "[" ++ join (str ", ") (map json_dumps l) ++ str "]"
  | VDict d =>
      str "{" ++
      join (str ", ")
           ((fix items (d : list (pystr * pyval)) : list pystr :=
               match d with
               | [] => []
               | (k, x) :: d' => (quote k ++ str ": " ++ json_dumps x) :: items d'
               end) d) ++
      str "}"
  end.

End Dumps.

(* ================================================================== *)
(** * The world outside the process *)

(** Modelled from the spec: the schema of the two tables is not under src/;
    section 6 gives [tx_raw(txn_id PRIMARY KEY, amount, merchant_id, ts,
    payload)] and [tx_scored(txn_id PRIMARY KEY, ts, amount, merchant_id,
    score, features)].  A row keeps the values handed to [cur.execute]. *)
Record raw_row := {
  raw_txn_id : pyval;
  raw_amount : pyval;
  raw_merchant_id : pyval;
  raw_ts : pyval;
  raw_payload : pystr
}.

Record scored_row := {
  sc_txn_id : pyval;
  sc_ts : pyval;
  sc_amount : pyval;
  sc_merchant_id : pyval;
  sc_score : float;
  sc_features : pystr
}.

(** [INSERT ... ON CONFLICT DO NOTHING] under the primary key [txn_id]. *)
Definition has_key {A} (key : A -> pyval) (k : pyval) (t : list A) : bool :=
  existsb (fun r => pyval_eqb (key r) k) t.

Definition insert_do_nothing {A} (key : A -> pyval) (r : A) (t : list A) : list A :=
  if has_key key (key r) t then t else t ++ [r].

(** [tx/dt=<date>/hr=<hour>/part-<epoch seconds>.json.gz], its three fields. *)
Record s3key := { key_day : Z; key_hour : Z; key_part : Z }.

Definition key_at (t : Z) : s3key :=
  {| key_day := t / 86400; key_hour := (t mod 86400) / 3600; key_part := t |}.

(** The output of [gzip] on some bytes. *)
Inductive blob := Gzip (plain : list Z).

Record message := { MessageId : pystr; ReceiptHandle : pystr; Body : pystr }.

Record entry := { Id : pystr; Handle : pystr }.

Definition entry_of (m : message) : entry :=
  {| Id := MessageId m; Handle := ReceiptHandle m |}.

Inductive log :=
| LogIdle
| LogMessageError (id : pystr) (e : exn)
| LogProcessed (n : Z)
| LogLoopError (e : exn).

(** The calls that leave the process, as the trace records them. *)
Inductive call :=
| ReceiveMessage
| Connect
| Sleep (secs : Z)
| Cursor (c : Z)
| InsertRaw (c : Z) (r : raw_row)
| InsertScored (c : Z) (r : scored_row)
| PutObject (k : s3key) (body : blob)
| DeleteMessageBatch (entries : list entry)
| Print (l : log).

(** A call and how it ended: [None] when it returned. *)
Definition event : Type := call * option exn.

(** [faults] is the environment's schedule: every call to the database, to
    the object store and to the acknowledgment takes its head, [Some e] to
    raise [e] without effect, [None] to go through; an exhausted schedule
    lets every call through. *)
Record world := {
  tx_raw : list raw_row;
  tx_scored : list scored_row;
  bucket : list (s3key * blob);
  acked : list entry;
  conn : Z;
  opened : Z;
  clock : Z;
  faults : list (option exn);
  trace : list event
}.

Definition with_tables (r : list raw_row) (s : list scored_row) (w : world) : world :=
  {| tx_raw := r; tx_scored := s; bucket := bucket w; acked := acked w;
     conn := conn w; opened := opened w; clock := clock w;
     faults := faults w; trace := trace w |}.

Definition with_bucket (b : list (s3key * blob)) (w : world) : world :=
  {| tx_raw := tx_raw w; tx_scored := tx_scored w; bucket := b; acked := acked w;
     conn := conn w; opened := opened w; clock := clock w;
     faults := faults w; trace := trace w |}.

Definition with_acked (a : list entry) (w : world) : world :=
  {| tx_raw := tx_raw w; tx_scored := tx_scored w; bucket := bucket w; acked := a;
     conn := conn w; opened := opened w; clock := clock w;
     faults := faults w; trace := trace w |}.

Definition with_conn (c : Z) (w : world) : world :=
  {| tx_raw := tx_raw w; tx_scored := tx_scored w; bucket := bucket w; acked := acked w;
     conn := c; opened := opened w; clock := clock w;
     faults := faults w; trace := trace w |}.

Definition with_opened (n : Z) (w : world) : world :=
  {| tx_raw := tx_raw w; tx_scored := tx_scored w; bucket := bucket w; acked := acked w;
     conn := conn w; opened := n; clock := clock w;
     faults := faults w; trace := trace w |}.

Definition with_clock (t : Z) (w : world) : world :=
  {| tx_raw := tx_raw w; tx_scored := tx_scored w; bucket := bucket w; acked := acked w;
     conn := conn w; opened := opened w; clock := t;
     faults := faults w; trace := trace w |}.

Definition with_faults (f : list (option exn)) (w : world) : world :=
  {| tx_raw := tx_raw w; tx_scored := tx_scored w; bucket := bucket w; acked := acked w;
     conn := conn w; opened := opened w; clock := clock w;
     faults := f; trace := trace w |}.

Definition emit (ev : event) (w : world) : world :=
  {| tx_raw := tx_raw w; tx_scored := tx_scored w; bucket := bucket w; acked := acked w;
     conn := conn w; opened := opened w; clock := clock w;
     faults := faults w; trace := trace w ++ [ev] |}.

(** ** Computations that act on the world and may raise *)

Definition M (A : Type) : Type := world -> (exn + A) * world.

Definition ret {A} (a : A) : M A := fun w => (inr a, w).
Definition raise {A} (e : exn) : M A := fun w => (inl e, w).
Definition bind {A B} (m : M A) (k : A -> M B) : M B :=
  fun w => match m w with
           | (inr a, w') => k a w'
           | (inl e, w') => (inl e, w')
           end.
Definition lift {A} (r : exn + A) : M A := fun w => (r, w).

Notation "x <- m ;; k" := (bind m (fun x => k))
  (at level 61, m at next level, right associativity).
Notation "m ;;; k" := (bind m (fun _ => k))
  (at level 61, right associativity).

(** A call the environment may fail. *)
Definition external (c : call) (effect : world -> world) : M unit :=
  fun w =>
    match faults w with
    | Some e :: rest => (inl e, emit (c, Some e) (with_faults rest w))
    | None :: rest => (inr tt, effect (emit (c, None) (with_faults rest w)))
    | [] => (inr tt, effect (emit (c, None) w))
    end.

(** [print(..., flush=True)] and [time.sleep]. *)
Definition print (l : log) (w : world) : world := emit (Print l, None) w.
Definition sleep (secs : Z) (w : world) : world :=
  with_clock (clock w + secs) (emit (Sleep secs, None) w).

(* ================================================================== *)
(** * The relational writer *)

(** One attempt of [psycopg2.connect]; a new connection gets a new handle. *)
Definition connect_once : M Z :=
  fun w =>
    match external Connect (fun w' => with_opened (opened w' + 1) w') w with
    | (inr _, w') => (inr (opened w'), w')
    | (inl e, w') => (inl e, w')
    end.

(** [pg_connect(retries, delay)]: the [for] loop, then [raise last]. *)
Fixpoint pg_connect_from (retries : nat) (delay : Z) (last : option exn) : M Z :=
  match retries with
  | O => match last with
         | Some e => raise e
         | None => raise TypeError
         end
  | S n =>
      fun w =>
        match connect_once w with
        | (inr c, w') => (inr c, w')
        | (inl e, w') => pg_connect_from n delay (Some e) (sleep delay w')
        end
  end.

Definition pg_connect : M Z := pg_connect_from 10 3 None.

Section Consumer.
Context {R : Runtime}.

Definition raw_params (tx : pyval) : exn + raw_row :=
  match subscript tx (str "txn_id") with
  | inl e => inl e
  | inr id =>
  match subscript tx (str "amount") with
  | inl e => inl e
  | inr a =>
  match subscript tx (str "merchant_id") with
  | inl e => inl e
  | inr mid =>
  match subscript tx (str "ts") with
  | inl e => inl e
  | inr ts =>
      inr {| raw_txn_id := id; raw_amount := a; raw_merchant_id := mid;
             raw_ts := ts; raw_payload := json_dumps tx |}
  end end end end.

Definition scored_params (tx : pyval) (s : float) : exn + scored_row :=
  match subscript tx (str "txn_id") with
  | inl e => inl e
  | inr id =>
  match subscript tx (str "ts") with
  | inl e => inl e
  | inr ts =>
  match subscript tx (str "amount") with
  | inl e => inl e
  | inr a =>
  match subscript tx (str "merchant_id") with
  | inl e => inl e
  | inr mid =>
      inr {| sc_txn_id := id; sc_ts := ts; sc_amount := a; sc_merchant_id := mid;
             sc_score := s;
             sc_features := json_dumps (VDict [(str "model", VStr MODEL_VERSION)]) |}
  end end end end.

Definition execute_raw (c : Z) (r : raw_row) : M unit :=
  external (InsertRaw c r)
    (fun w => with_tables (insert_do_nothing raw_txn_id r (tx_raw w)) (tx_scored w) w).

Definition execute_scored (c : Z) (r : scored_row) : M unit :=
  external (InsertScored c r)
    (fun w => with_tables (tx_raw w) (insert_do_nothing sc_txn_id r (tx_scored w)) w).

(** The body of [with conn.cursor() as cur]: the two inserts, in order. *)
Definition two_inserts (c : Z) (tx : pyval) (s : float) : M unit :=
  external (Cursor c) (fun w => w) ;;;
  r <- lift (raw_params tx) ;;
  execute_raw c r ;;;
  q <- lift (scored_params tx s) ;;
  execute_scored c q.

(** [write_db(tx, s)] *)
Definition write_db (tx : pyval) (s : float) : M unit :=
  fun w =>
    match two_inserts (conn w) tx s w with
    | (inl OperationalError, w1) =>
        (c <- pg_connect ;;
         (fun w2 => (inr tt, with_conn c w2)) ;;;
         two_inserts c tx s) w1
    | r => r
    end.

(* ================================================================== *)
(** * The archive writer *)

(** [{**tx, "score": s, "model": MODEL_VERSION}] *)
Definition scored_record (tx : pyval) (s : float) : exn + pyval :=
  match tx with
  | VDict d =>
      inr (VDict (dict_set (str "model") (VStr MODEL_VERSION)
                    (dict_set (str "score") (VFloat s) d)))
  | _ => inl TypeError
  end.

(** [write_s3(tx)]: one gzipped JSON line under a key made of the clock. *)
Definition write_s3 (rec : pyval) : M unit :=
  fun w =>
    let key := key_at (clock w) in
    match encode (json_dumps rec ++ [10]) with
    | inl e => (inl e, w)
    | inr bytes =>
        external (PutObject key (Gzip bytes))
          (fun w' => with_bucket (bucket w' ++ [(key, Gzip bytes)]) w') w
    end.

(* ================================================================== *)
(** * The consumer loop *)

(** The [try] body of the [for] loop, for one message. *)
Definition process_message (m : message) : M entry :=
  tx <- lift (json_loads (Body m)) ;;
  s <- lift (score tx) ;;
  write_db tx s ;;;
  rec <- lift (scored_record tx s) ;;
  write_s3 rec ;;;
  ret (entry_of m).

(** [for m in msgs]: a message that raises is logged and left out. *)
Fixpoint for_msgs (msgs : list message) (to_delete : list entry) (w : world)
  : list entry * world :=
  match msgs with
  | [] => (to_delete, w)
  | m :: rest =>
      match process_message m w with
      | (inr e, w1) => for_msgs rest (to_delete ++ [e]) w1
      | (inl ex, w1) => for_msgs rest to_delete (print (LogMessageError (MessageId m) ex) w1)
      end
  end.

(** What [sqs.receive_message] gave: it raised, or it returned [None], a
    response without ["Messages"], or a response with them. *)
Inductive response :=
| RespNone
| RespNoMessages
| RespMessages (msgs : list message).

Inductive poll :=
| RecvRaises (e : exn)
| RecvReturns (r : response).

(** [(resp or {}).get("Messages", []) or []] *)
Definition messages_of (r : response) : list message :=
  match r with
  | RespMessages msgs => msgs
  | _ => []
  end.

Record loop_state := { idle_ticks : Z; env : world }.

(** The handler of the outer [try]. *)
Definition loop_error (e : exn) (w : world) : world :=
  sleep 2 (print (LogLoopError e) w).

Definition delete_message_batch (entries : list entry) : M unit :=
  external (DeleteMessageBatch entries) (fun w => with_acked (acked w ++ entries) w).

(** One iteration of [while True], on what the receive call gave. *)
Definition iteration (st : loop_state) (p : poll) : loop_state :=
  match p with
  | RecvRaises e =>
      {| idle_ticks := idle_ticks st;
         env := loop_error e (emit (ReceiveMessage, Some e) (env st)) |}
  | RecvReturns r =>
      let w := emit (ReceiveMessage, None) (env st) in
      match messages_of r with
      | [] =>
          let idle := idle_ticks st + 1 in
          {| idle_ticks := idle;
             env := if idle mod 10 =? 0 then print LogIdle w else w |}
      | msgs =>
          let '(to_delete, w1) := for_msgs msgs [] w in
          {| idle_ticks := 0;
             env := match to_delete with
                    | [] => w1
                    | _ =>
                        match delete_message_batch to_delete w1 with
                        | (inr _, w2) =>
                            print (LogProcessed (Z.of_nat (length to_delete))) w2
                        | (inl e, w2) => loop_error e w2
                        end
                    end |}
      end
  end.

(** [consumer_loop()] along the polls the queue answers. *)
Definition consumer_loop (polls : list poll) : loop_state -> loop_state :=
  fun st => fold_left iteration polls st.

Definition start (w : world) : loop_state := {| idle_ticks := 0; env := w |}.

End Consumer.

(* ================================================================== *)
(** * A runtime to run the consumer on concrete messages

    [json_frag] reads the JSON texts made of objects, arrays, strings
    without escapes, integers and the three literals, the way [json.loads]
    does; on a text outside this fragment (an escape, a fraction, an
    exponent, [NaN], [Infinity]) it is silent ([Outside]).  [repr_frag]
    prints the floats of integral value below 10^16 the way [repr] does.
    Outside their fragments [frag_runtime] answers [JSONDecodeError] and the
    digits of the mantissa; the closed examples of this file stay inside. *)

Inductive scan (A : Type) :=
| Ok (a : A) (rest : pystr)
| Invalid
| Outside.
Arguments Ok {A} a rest.
Arguments Invalid {A}.
Arguments Outside {A}.

Fixpoint skip_ws (s : pystr) : pystr :=
  match s with
  | c :: s' => if (c =? 32) || (c =? 9) || (c =? 10) || (c =? 13) then skip_ws s' else s
  | [] => []
  end.

Definition is_digit (c : Z) : bool := (48 <=? c) && (c <=? 57).

Fixpoint scan_string (s : pystr) (acc : pystr) : scan pystr :=
  match s with
  | [] => Invalid
  | c :: s' =>
      if c =? 34 then Ok (rev acc) s'
      else if c =? 92 then Outside
      else if c <? 32 then Invalid
      else scan_string s' (c :: acc)
  end.

Fixpoint scan_digits (s : pystr) (acc : Z) : Z * pystr :=
  match s with
  | c :: s' => if is_digit c then scan_digits s' (10 * acc + (c - 48)) else (acc, s)
  | [] => (acc, [])
  end.

Definition after_int (z : Z) (rest : pystr) : scan pyval :=
  match rest with
  | c :: _ => if (c =? 46) || (c =? 101) || (c =? 69) then Outside else Ok (VInt z) rest
  | [] => Ok (VInt z) rest
  end.

Definition scan_nat (s : pystr) : scan Z :=
  match s with
  | c :: s' =>
      if c =? 48 then Ok 0 s'
      else if is_digit c then let '(z, rest) := scan_digits s 0 in Ok z rest
      else Invalid
  | [] => Invalid
  end.

Definition scan_number (s : pystr) : scan pyval :=
  match s with
  | 45 :: 73 :: _ => Outside
  | 45 :: s' =>
      match scan_nat s' with
      | Ok z rest => after_int (- z) rest
      | Invalid => Invalid
      | Outside => Outside
      end
  | _ =>
      match scan_nat s with
      | Ok z rest => after_int z rest
      | Invalid => Invalid
      | Outside => Outside
      end
  end.

Fixpoint starts_with (p s : pystr) : option pystr :=
  match p, s with
  | [], _ => Some s
  | a :: p', b :: s' => if a =? b then starts_with p' s' else None
  | _ :: _, [] => None
  end.

Fixpoint scan_value (fuel : nat) (s : pystr) {struct fuel} : scan pyval :=
  match fuel with
  | O => Invalid
  | S fuel' =>
      match s with
      | [] => Invalid
      | c :: s' =>
          if c =? 34 then
            match scan_string s' [] with
            | Ok x rest => Ok (VStr x) rest
            | Invalid => Invalid
            | Outside => Outside
            end
          else if c =? 123 then
            match skip_ws s' with
            | 125 :: rest => Ok (VDict []) rest
            | s'' => scan_members fuel' s'' []
            end
          else if c =? 91 then
            match skip_ws s' with
            | 93 :: rest => Ok (VList []) rest
            | s'' => scan_elements fuel' s'' []
            end
          else if c =? 110 then
            match starts_with (str "ull") s' with
            | Some rest => Ok VNone rest
            | None => Invalid
            end
          else if c =? 116 then
            match starts_with (str "rue") s' with
            | Some rest => Ok (VBool true) rest
            | None => Invalid
            end
          else if c =? 102 then
            match starts_with (str "alse") s' with
            | Some rest => Ok (VBool false) rest
            | None => Invalid
            end
          else if (c =? 78) || (c =? 73) then Outside
          else scan_number s
      end
  end

with scan_members (fuel : nat) (s : pystr) (acc : dict) {struct fuel} : scan pyval :=
  match fuel with
  | O => Invalid
  | S fuel' =>
      match s with
      | 34 :: s1 =>
          match scan_string s1 [] with
          | Ok k s2 =>
              match skip_ws s2 with
              | 58 :: s3 =>
                  match scan_value fuel' (skip_ws s3) with
                  | Ok v s4 =>
                      let acc' := dict_set k v acc in
                      match skip_ws s4 with
                      | 125 :: rest => Ok (VDict acc') rest
                      | 44 :: s5 => scan_members fuel' (skip_ws s5) acc'
                      | _ => Invalid
                      end
                  | Invalid => Invalid
                  | Outside => Outside
                  end
              | _ => Invalid
              end
          | Invalid => Invalid
          | Outside => Outside
          end
      | _ => Invalid
      end
  end

with scan_elements (fuel : nat) (s : pystr) (acc : list pyval) {struct fuel} : scan pyval :=
  match fuel with
  | O => Invalid
  | S fuel' =>
      match scan_value fuel' s with
      | Ok v s1 =>
          match skip_ws s1 with
          | 93 :: rest => Ok (VList (rev (v :: acc))) rest
          | 44 :: s2 => scan_elements fuel' (skip_ws s2) (v :: acc)
          | _ => Invalid
          end
      | Invalid => Invalid
      | Outside => Outside
      end
  end.

Definition json_frag (s : pystr) : scan pyval :=
  match scan_value (S (length s)) (skip_ws s) with
  | Ok v rest => match skip_ws rest with
                 | [] => Ok v []
                 | _ => Invalid
                 end
  | r => r
  end.

(** The integer a float is worth, when it is one. *)
Definition integral_value (f : float) : option Z :=
  match f with
  | S754_finite s m e =>
      if 0 <=? e then Some ((if s then -1 else 1) * (Z.pos m * 2 ^ e))
      else if (Z.pos m) mod 2 ^ (- e) =? 0
           then Some ((if s then -1 else 1) * (Z.pos m / 2 ^ (- e)))
           else None
  | _ => None
  end.

Definition repr_frag (f : float) : option pystr :=
  match f with
  | S754_zero false => Some (str "0.0")
  | S754_zero true => Some (str "-0.0")
  | _ =>
      match integral_value f with
      | Some z => if Z.abs z <? 10 ^ 16 then Some (int_repr z ++ str ".0") else None
      | None => None
      end
  end.

Definition frag_runtime (model_version : pystr) : Runtime :=
  {| json_loads := fun s => match json_frag s with
                            | Ok v _ => inr v
                            | _ => inl JSONDecodeError
                            end;
     float_repr := fun f => match repr_frag f with
                            | Some s => s
                            | None => match f with
                                      | S754_finite _ m _ => int_repr (Z.pos m)
                                      | _ => []
                                      end
                            end;
     MODEL_VERSION := model_version |}.

(** A world with empty tables and an empty bucket, where the environment
    follows the schedule [fs]. *)
Definition fresh (fs : list (option exn)) : world :=
  {| tx_raw := []; tx_scored := []; bucket := []; acked := [];
     conn := 0; opened := 0; clock := 1700000000; faults := fs; trace := [] |}.

(** A message as the producer sends it: its body is [json.dumps] of the
    five fields. *)
Definition body_of (txn card : String.string) (amount : Z) : pystr :=
  str "{" ++ [34] ++ str "txn_id" ++ [34] ++ str ": " ++ [34] ++ str txn ++ [34] ++
  str ", " ++ [34] ++ str "amount" ++ [34] ++ str ": " ++ int_repr amount ++
  str ", " ++ [34] ++ str "merchant_id" ++ [34] ++ str ": " ++ [34] ++ str "m7" ++ [34] ++
  str ", " ++ [34] ++ str "card_hash" ++ [34] ++ str ": " ++ [34] ++ str card ++ [34] ++
  str ", " ++ [34] ++ str "ts" ++ [34] ++ str ": " ++ [34] ++ str "2024-05-01T10:00:00" ++ [34] ++
  str "}".

Definition msg (n : String.string) (body : pystr) : message :=
  {| MessageId := str n; ReceiptHandle := str "rh-" ++ str n; Body := body |}.



(** An amount the data model allows: a number that is not below zero. *)
Definition amount_ge_0 (a : pyval) : Prop :=
  match a with
  | VFloat f => fleb f_zero f = true
  | VInt z => 0 <= z
  | VBool _ => True
  | _ => False
  end.

Definition not_negative (f : float) : Prop :=
  match f with
  | S754_finite true _ _ | S754_infinity true => False
  | _ => True
  end.

(** A transaction with the five fields of the message body. *)
Definition mk_tx (txn merchant card ts : String.string) (amount : pyval) : pyval :=
  VDict [(str "txn_id", VStr (str txn)); (str "amount", amount);
         (str "merchant_id", VStr (str merchant)); (str "card_hash", VStr (str card));
         (str "ts", VStr (str ts))].

(** ** What a stretch of the run emitted *)

Definition events_since (w w' : world) : list event :=
  skipn (length (trace w)) (trace w').

Definition cycle_events {R : Runtime} (st : loop_state) (p : poll) : list event :=
  events_since (env st) (env (iteration st p)).

Definition is_heartbeat (ev : event) : bool :=
  match ev with
  | (Print LogIdle, _) => true
  | _ => false
  end.

Definition heartbeats (evs : list event) : nat := length (filter is_heartbeat evs).

Definition is_ack_call (ev : event) : bool :=
  match ev with
  | (DeleteMessageBatch _, _) => true
  | _ => false
  end.

Definition ack_calls (evs : list event) : nat := length (filter is_ack_call evs).

(** A poll that came back without messages. *)
Definition empty_poll (p : poll) : Prop :=
  exists r, p = RecvReturns r /\ messages_of r = [].

(** The events of one attempt of the two-insert unit on connection [c]. *)
Definition unit_event {R : Runtime} (tx : pyval) (s : float) (c : Z) (ev : event) : Prop :=
  match ev with
  | (Cursor c', _) => c' = c
  | (InsertRaw c' r, _) => c' = c /\ raw_params tx = inr r
  | (InsertScored c' q, _) => c' = c /\ scored_params tx s = inr q
  | _ => False
  end.

(** The events of [pg_connect]: attempts to connect, and the sleeps between. *)
Definition connect_event (ev : event) : Prop :=
  match ev with
  | (Connect, _) => True
  | (Sleep _, None) => True
  | _ => False
  end.

Definition is_connected (ev : event) : bool :=
  match ev with
  | (Connect, None) => true
  | _ => false
  end.

(** The connections opened along some events. *)
Definition reconnects (evs : list event) : nat := length (filter is_connected evs).

(** The events of [write_db]: those of the unit on some connection, and
    those of [pg_connect]. *)
Definition db_event {R : Runtime} (tx : pyval) (s : float) (ev : event) : Prop :=
  (exists c, unit_event tx s c ev) \/ connect_event ev.

Definition row_added {A} (key : A -> pyval) (r : exn + A) (t t' : list A) : Prop :=
  t' = t \/ exists x, r = inr x /\ t' = insert_do_nothing key x t.

Definition count_key {A} (key : A -> pyval) (k : pyval) (t : list A) : nat :=
  length (filter (fun r => pyval_eqb (key r) k) t).

(** No two rows of a table share their key. *)
Fixpoint unique_keys {A} (key : A -> pyval) (t : list A) : Prop :=
  match t with
  | [] => True
  | r :: t' => has_key key (key r) t' = false /\ unique_keys key t'
  end.

(** The stage at which the processing of a message raised [e], and the
    world it left. *)
Inductive fails_at {R : Runtime} (m : message) (w : world) (e : exn) (w' : world) : Prop :=
| FailParse :
    json_loads (Body m) = inl e -> w' = w -> fails_at m w e w'
| FailScore (tx : pyval) :
    json_loads (Body m) = inr tx -> score tx = inl e -> w' = w -> fails_at m w e w'
| FailPersist (tx : pyval) (s : float) :
    json_loads (Body m) = inr tx -> score tx = inr s ->
    write_db tx s w = (inl e, w') -> fails_at m w e w'
| FailArchive (tx : pyval) (s : float) (w1 : world) :
    json_loads (Body m) = inr tx -> score tx = inr s ->
    write_db tx s w = (inr tt, w1) ->
    (scored_record tx s = inl e /\ w' = w1 \/
     exists rec, scored_record tx s = inr rec /\ write_s3 rec w1 = (inl e, w')) ->
    fails_at m w e w'.

(** The message behind the entry [en] went through its four stages, and the
    events [evs] hold its two inserts and its archive write, in this order,
    all returned. *)
Definition archived_in {R : Runtime} (msgs : list message) (en : entry)
           (evs : list event) : Prop :=
  exists m tx s rec bytes k c r q before after,
    In m msgs /\ en = entry_of m /\
    json_loads (Body m) = inr tx /\ score tx = inr s /\
    raw_params tx = inr r /\ scored_params tx s = inr q /\
    scored_record tx s = inr rec /\ encode (json_dumps rec ++ [10]) = inr bytes /\
    evs = before ++ [(Cursor c, None); (InsertRaw c r, None);
                     (InsertScored c q, None); (PutObject k (Gzip bytes), None)]
                 ++ after.

(** ** Concrete inputs for the closed examples *)

Definition baseline : Runtime := frag_runtime (str "baseline").

Definition tx1 : pyval := mk_tx "t1" "m7" "abc" "2024-05-01T10:00:00" (VInt 1000).

Definition dq (s : String.string) : pystr := [34] ++ str s ++ [34].

(** The five fields without the spaces [json.dumps] puts after [:] and [,]. *)
Definition compact_body : pystr :=
  str "{" ++ dq "txn_id" ++ str ":" ++ dq "t1" ++ str "," ++
  dq "amount" ++ str ":1000," ++ dq "merchant_id" ++ str ":" ++ dq "m7" ++ str "," ++
  dq "card_hash" ++ str ":" ++ dq "abc" ++ str "," ++
  dq "ts" ++ str ":" ++ dq "2024-05-01T10:00:00" ++ str "}".

(** Five messages of the producer's shape. *)
Definition msg1 : message := msg "1" (body_of "t1" "abc" 1000).
Definition msg2 : message := msg "2" (body_of "t2" "abc" 1100).
Definition msg3 : message := msg "3" (body_of "t3" "abc" 1200).
Definition msg4 : message := msg "4" (body_of "t4" "abc" 900).
Definition msg5 : message := msg "5" (body_of "t5" "abc" 1000).

(** A schedule where the persistence of the second message fails: the four
    calls of the first message go through, then the first insert of the
    second message loses the connection, the reconnect succeeds, and the
    replay loses it again. *)
Definition second_persist_fails : list (option exn) :=
  [None; None; None; None;
   None; Some OperationalError; None; None; Some OperationalError].

(** A schedule where the first insert loses the connection once. *)
Definition drop_once : list (option exn) := [None; Some OperationalError].

(* ================================================================== *)
(** * Rounding to nearest on integers: the notions of the proofs *)

(** The index of the cell of the half-unit grid a rational [N / D] falls
    in: twice its floor, plus one when it is not on the grid. *)
Definition cell (N D : Z) : Z := 2 * (N / D) + (if N mod D =? 0 then 0 else 1).

(** A shifted mantissa with its round and sticky bits, as the index of a
    quarter-unit cell: twice the half-unit cell index at the next exponent. *)
Definition idx_of (mrs : shr_record) : Z :=
  4 * shr_m mrs + (if shr_r mrs then 2 else 0) + (if shr_s mrs then 1 else 0).

(** The two low bits of that index, from a location. *)
Definition loc_code (l : location) : Z :=
  match l with
  | loc_Exact => 0
  | loc_Inexact Lt => 1
  | loc_Inexact Eq => 2
  | loc_Inexact Gt => 3
  end.

(** The smallest exponent and the target exponent of binary64. *)
Local Abbreviation emin := (SpecFloat.emin prec emax) (only parsing).
Local Abbreviation fexp := (SpecFloat.fexp prec emax) (only parsing).

(** A mantissa fine enough for its exponent: the shift to the target
    exponent is to the right. *)
Definition fine (m e : Z) : Prop := e <= fexp (Zdigits2 m + e).

(** Round to nearest, ties to even, on a quarter-unit cell index. *)
Definition round_idx (i : Z) : Z :=
  let q := i / 4 in
  let c := i mod 4 in
  if c <? 2 then q
  else if c =? 2 then (if Z.even q then q else q + 1)
  else q + 1.

(** The float of a cell index [i] at the target exponent [t]. *)
Definition out (i t : Z) : float :=
  let m1 := round_idx i in
  if m1 <? 2 ^ 53 then
    match m1 with
    | Zpos p => if t <=? 971 then S754_finite false p t else S754_infinity false
    | Z0 => S754_zero false
    | Zneg _ => S754_nan
    end
  else if t + 1 <=? 971 then S754_finite false 4503599627370496 (t + 1)
       else S754_infinity false.

(** The cell index at the target exponent, as the rounding needs it. *)
Definition canonical (i t : Z) : Prop :=
  0 <= i /\ -1074 <= t /\ i / 4 < 2 ^ 53 /\ (-1074 < t -> 2 ^ 52 <= i / 4).

(** [N1 / D1 * 2 ^ e1 <= N2 / D2 * 2 ^ e2], on integers. *)
Definition qle (N1 D1 e1 N2 D2 e2 : Z) : Prop :=
  N1 * D2 * 2 ^ (e1 - Z.min e1 e2) <= N2 * D1 * 2 ^ (e2 - Z.min e1 e2).

(** A mantissa with its location, fine enough, whose cell is the cell of
    the rational [N / D]: its value is [N / D * 2 ^ (e - 1)]. *)
Definition stands_for (m e : Z) (l : location) (N D : Z) : Prop :=
  0 <= m /\ fine m e /\ 0 <= N /\ 0 < D /\ 4 * m + loc_code l = cell N D.

(** A float that is a number and not below zero, in canonical form. *)
Definition good (f : float) : Prop :=
  match f with
  | S754_zero _ => True
  | S754_infinity s => s = false
  | S754_nan => False
  | S754_finite s m e => s = false /\ valid f = true
  end.

(** [m * 2 ^ e] in units of [2 ^ B]. *)
Definition scaled (B m e : Z) : Z := m * 2 ^ (e - B).

(** ** The order of amounts *)

(** The exact value of a number: [N * 2 ^ e], or an infinity. *)
Inductive exact : Type :=
| Dyadic (N e : Z)
| Infinite (negative : bool).

Definition exact_of_float (f : float) : option exact :=
  match f with
  | S754_zero _ => Some (Dyadic 0 0)
  | S754_finite s m e => Some (Dyadic (cond_Zopp s (Z.pos m)) e)
  | S754_infinity s => Some (Infinite s)
  | S754_nan => None
  end.

Definition amount_value (a : pyval) : option exact :=
  match a with
  | VInt z => Some (Dyadic z 0)
  | VBool b => Some (Dyadic (if b then 1 else 0) 0)
  | VFloat f => exact_of_float f
  | _ => None
  end.

Definition exact_le (x y : exact) : Prop :=
  match x, y with
  | Infinite true, _ => True
  | _, Infinite false => True
  | Dyadic N1 e1, Dyadic N2 e2 => qle N1 1 e1 N2 1 e2
  | _, _ => False
  end.

(** [a1 <= a2] on two amounts: ints, bools and floats are compared by
    their exact values, as Python compares them. *)
Definition amount_le (a1 a2 : pyval) : Prop :=
  match amount_value a1, amount_value a2 with
  | Some x, Some y => exact_le x y
  | _, _ => False
  end.

(** An amount the division by [500.0] takes: a binary64 float, a bool, or
    an int below 2^1024 - 2^970, the least int whose nearest float is
    infinite. *)
Definition amount_converts (a : pyval) : Prop :=
  match a with
  | VFloat f => valid f = true
  | VInt z => z < 2 ^ 1024 - 2 ^ 970
  | VBool _ => True
  | _ => False
  end.

(** The float [f] is the exact value [v] rounded to nearest. *)
Definition rounds_to (v : exact) (f : float) : Prop :=
  match v with
  | Dyadic N e =>
      (N = 0 /\ exists s, f = S754_zero s) \/
      (0 < N /\ exists M' e',
          f = binary_round_aux prec emax false (Z.pos M') e' loc_Exact /\
          stands_for (Z.pos M') e' loc_Exact (2 * Z.pos M') 1 /\
          e' <= e /\
          forall B, B <= e' -> scaled B (Z.pos M') e' = scaled B N e)
  | Infinite s => s = false /\ f = S754_infinity false
  end.

(* ================================================================== *)
(** * Notions for the further properties of the code *)

(** An amount [tx["amount"] / 500.0] takes: a float, a bool, or an int
    whose nearest float is finite. *)
Definition amount_accepted (a : pyval) : Prop :=
  match a with
  | VFloat _ | VBool _ => True
  | VInt z => - (2 ^ 1024 - 2 ^ 970) < z < 2 ^ 1024 - 2 ^ 970
  | _ => False
  end.

(** The ways [score] raises, in the order the body meets them. *)
Inductive score_raises : pyval -> exn -> Prop :=
| RaisesNotSubscriptable (tx : pyval) :
    (forall d, tx <> VDict d) -> score_raises tx TypeError
| RaisesNoCardHash (d : dict) :
    dict_get (str "card_hash") d = None ->
    score_raises (VDict d) (KeyError (str "card_hash"))
| RaisesCardNotStr (d : dict) (c : pyval) :
    dict_get (str "card_hash") d = Some c -> (forall s, c <> VStr s) ->
    score_raises (VDict d) AttributeError
| RaisesSurrogate (d : dict) (card : pystr) :
    dict_get (str "card_hash") d = Some (VStr card) -> ~ encodable card ->
    score_raises (VDict d) UnicodeEncodeError
| RaisesNoAmount (d : dict) (card : pystr) :
    dict_get (str "card_hash") d = Some (VStr card) -> encodable card ->
    dict_get (str "amount") d = None ->
    score_raises (VDict d) (KeyError (str "amount"))
| RaisesAmountNotNumber (d : dict) (card : pystr) (a : pyval) :
    dict_get (str "card_hash") d = Some (VStr card) -> encodable card ->
    dict_get (str "amount") d = Some a ->
    match a with VNone | VStr _ | VList _ | VDict _ => True | _ => False end ->
    score_raises (VDict d) TypeError
| RaisesAmountTooLarge (d : dict) (card : pystr) (z : Z) :
    dict_get (str "card_hash") d = Some (VStr card) -> encodable card ->
    dict_get (str "amount") d = Some (VInt z) ->
    z <= - (2 ^ 1024 - 2 ^ 970) \/ 2 ^ 1024 - 2 ^ 970 <= z ->
    score_raises (VDict d) OverflowError.

(* ================================================================== *)
(** * The producer (src/producer/producer.py) *)

(** [n] hexadecimal digits of [v], the most significant first. *)
Definition hex_digits (n : nat) (v : Z) : pystr :=
  map (fun i => Sha256.hex_digit (Z.shiftr v (4 * Z.of_nat i) mod 16)) (rev (seq 0 n)).

(** [str(u)] of a UUID of 128-bit value [u]: its 32 hexadecimal digits in
    groups of 8, 4, 4, 4 and 12. *)
Definition uuid_str (u : Z) : pystr :=
  hex_digits 8 (Z.shiftr u 96) ++ str "-" ++ hex_digits 4 (Z.shiftr u 80) ++ str "-" ++
  hex_digits 4 (Z.shiftr u 64) ++ str "-" ++ hex_digits 4 (Z.shiftr u 48) ++ str "-" ++
  hex_digits 12 u.

(** What one turn of the inner loop draws for [tx]: two UUIDs, the amount
    [round(random.uniform(800, 1200), 2)], the merchant number
    [random.randint(1, 50)] and the time stamp. *)
Record draw := {
  draw_txn : Z;
  draw_amount : float;
  draw_merchant : Z;
  draw_card : Z;
  draw_ts : pystr
}.

(** The dict [tx] of the producer, its keys in the order of the source. *)
Definition producer_tx (x : draw) : pyval :=
  VDict [(str "txn_id", VStr (uuid_str (draw_txn x)));
         (str "amount", VFloat (draw_amount x));
         (str "merchant_id", VStr (str "m" ++ int_repr (draw_merchant x)));
         (str "card_hash", VStr (uuid_str (draw_card x)));
         (str "ts", VStr (draw_ts x))].

(** The amount drawn is a binary64 number between 800 and 1200. *)
Definition drawn (x : draw) : Prop :=
  valid (draw_amount x) = true /\
  fleb (float_of_Z 800) (draw_amount x) = true /\
  fleb (draw_amount x) (float_of_Z 1200) = true.

(** The float 0.48. *)
Definition f_0_48 : float := S754_finite false 8646911284551352 (-54).

(* ================================================================== *)
(** * Notions for the connection and the writers *)

(** The events of attempts to connect that raised, each followed by its
    sleep. *)
Definition failed_attempts (delay : Z) (es : list exn) : list event :=
  flat_map (fun e => [(Connect, Some e); (Sleep delay, None)]) es.

(** From [w] to [w'] the store only grows: each table and the bucket keep
    what they held, in place, and a table whose keys were unique keeps them
    unique. *)
Definition store_grows (w w' : world) : Prop :=
  (exists rows, tx_raw w' = tx_raw w ++ rows) /\
  (exists rows, tx_scored w' = tx_scored w ++ rows) /\
  (exists objects, bucket w' = bucket w ++ objects) /\
  (unique_keys raw_txn_id (tx_raw w) -> unique_keys raw_txn_id (tx_raw w')) /\
  (unique_keys sc_txn_id (tx_scored w) -> unique_keys sc_txn_id (tx_scored w')).

(** The message [m] is in the store of [w]: its body parses to a
    transaction that has a score, each table holds a row under its
    [txn_id], and the bucket holds the line of its scored record. *)
Definition stored {R : Runtime} (m : message) (w : world) : Prop :=
  exists tx s id rec bytes k,
    json_loads (Body m) = inr tx /\ score tx = inr s /\
    subscript tx (str "txn_id") = inr id /\
    has_key raw_txn_id id (tx_raw w) = true /\
    has_key sc_txn_id id (tx_scored w) = true /\
    scored_record tx s = inr rec /\
    encode (json_dumps rec ++ [10]) = inr bytes /\
    In (k, Gzip bytes) (bucket w).

(** [a] is [b] with some of its elements left out. *)
Inductive subsequence {A : Type} : list A -> list A -> Prop :=
| SubNil : subsequence [] []
| SubSkip (x : A) (a b : list A) : subsequence a b -> subsequence a (x :: b)
| SubKeep (x : A) (a b : list A) : subsequence a b -> subsequence (x :: a) (x :: b).

(** A poll that raised. *)
Definition is_failed_poll (p : poll) : bool :=
  match p with RecvRaises _ => true | RecvReturns _ => false end.

(** A string of ASCII characters. *)
Definition ascii (s : pystr) : Prop := Forall (fun c => 0 <= c < 128) s.

(** The polls that came back. *)
Definition returned (polls : list poll) : list poll :=
  filter (fun p => negb (is_failed_poll p)) polls.


(* ================================================================== *)
(** * Checks of the embedding on known values *)

Example sha256_constants :
  length Sha256.primes64 = 64%nat /\ nth 63 Sha256.primes64 0 = 311 /\
  nth 0 Sha256.K 0 = 0x428a2f98 /\ nth 63 Sha256.K 0 = 0xc67178f2 /\
  nth 0 Sha256.H0 0 = 0x6a09e667 /\ nth 7 Sha256.H0 0 = 0x5be0cd19.
Proof. vm_compute. repeat split. Qed.

Example sha256_empty :
  Sha256.hexdigest [] =
  str "e3b0c44298fc1c149afbf4c8996fb92427ae41e4649b934ca495991b7852b855".
Proof. vm_compute. reflexivity. Qed.

Example sha256_abc :
  Sha256.hexdigest (map Z.of_nat [97; 98; 99]%nat) =
  str "ba7816bf8f01cfea414140de5dae2223b00361a396177a9cb410ff61f20015ad".
Proof. vm_compute. reflexivity. Qed.

Example sha256_two_blocks :
  Sha256.hexdigest (repeat 97 64) =
  str "ffe054fe7ae0cb6dc65c3af9b61d5209f439851db43d0ba5997337df154668eb".
Proof. vm_compute. reflexivity. Qed.

Example literals_are_correctly_rounded :
  f_0_3 = fdiv (float_of_Z 3) (float_of_Z 10) /\
  f_0_7 = fdiv (float_of_Z 7) (float_of_Z 10) /\
  f_1_0 = float_of_Z 1 /\ f_100 = float_of_Z 100 /\ f_500 = float_of_Z 500.
Proof. vm_compute. repeat split. Qed.

Example largest_int_that_converts :
  int_to_float (2 ^ 1024 - 2 ^ 970 - 1) =
    inr (S754_finite false 9007199254740991 971) /\
  int_to_float (2 ^ 1024 - 2 ^ 970) = inl OverflowError.
Proof. vm_compute. split; reflexivity. Qed.

(* ================================================================== *)
(** * Values: equality, strings *)

Lemma pystr_eqb_eq (a b : pystr) : pystr_eqb a b = true <-> a = b.
Proof.
  unfold pystr_eqb. destruct (list_eq_dec Z.eq_dec a b); split; congruence.
Qed.

Lemma pystr_eqb_refl (a : pystr) : pystr_eqb a a = true.
Proof. now apply pystr_eqb_eq. Qed.

Section PyvalInd.
Variable P : pyval -> Prop.
Hypothesis HNone : P VNone.
Hypothesis HBool : forall b, P (VBool b).
Hypothesis HInt : forall z, P (VInt z).
Hypothesis HFloat : forall f, P (VFloat f).
Hypothesis HStr : forall s, P (VStr s).
Hypothesis HList : forall l, Forall P l -> P (VList l).
Hypothesis HDict : forall d, Forall (fun kv => P (snd kv)) d -> P (VDict d).

Fixpoint pyval_nested_ind (v : pyval) : P v :=
  match v with
  | VNone => HNone
  | VBool b => HBool b
  | VInt z => HInt z
  | VFloat f => HFloat f
  | VStr s => HStr s
  | VList l =>
      HList l ((fix go (l : list pyval) : Forall P l :=
                  match l with
                  | [] => Forall_nil _
                  | x :: l' => Forall_cons x (pyval_nested_ind x) (go l')
                  end) l)
  | VDict d =>
      HDict d ((fix go (d : list (pystr * pyval)) : Forall (fun kv => P (snd kv)) d :=
                  match d with
                  | [] => Forall_nil _
                  | kv :: d' => Forall_cons kv (pyval_nested_ind (snd kv)) (go d')
                  end) d)
  end.
End PyvalInd.

Lemma pyval_eqb_eq (a : pyval) : forall b, pyval_eqb a b = true -> a = b.
Proof.
  induction a using pyval_nested_ind; intros [] E; simpl in E; try discriminate;
    try reflexivity.
  - apply Bool.eqb_prop in E. congruence.
  - apply Z.eqb_eq in E. congruence.
  - destruct f as [s|s| |s m e], f0 as [t|t| |t n e']; try discriminate;
      try reflexivity.
    + apply Bool.eqb_prop in E. congruence.
    + apply Bool.eqb_prop in E. congruence.
    + apply andb_prop in E as [E E3]. apply andb_prop in E as [E1 E2].
      apply Bool.eqb_prop in E1. apply Pos.eqb_eq in E2. apply Z.eqb_eq in E3.
      congruence.
  - apply pystr_eqb_eq in E. congruence.
  - f_equal. revert l0 E. induction H as [|x l Hx Hl IH]; intros [|y l0] E;
      try discriminate; try reflexivity.
    apply andb_prop in E as [E1 E2]. f_equal; auto.
  - f_equal. revert d0 E. induction H as [|[k x] d Hx Hd IH]; intros [|[k' y] d0] E;
      try discriminate; try reflexivity.
    apply andb_prop in E as [E E3]. apply andb_prop in E as [E1 E2].
    apply pystr_eqb_eq in E1. simpl in Hx. apply Hx in E2. f_equal; [congruence|auto].
Qed.

Lemma pyval_eqb_refl (a : pyval) : pyval_eqb a a = true.
Proof.
  induction a using pyval_nested_ind; simpl; auto.
  - apply Bool.eqb_reflx.
  - apply Z.eqb_refl.
  - destruct f; auto using Bool.eqb_reflx.
    now rewrite Bool.eqb_reflx, Pos.eqb_refl, Z.eqb_refl.
  - apply pystr_eqb_refl.
  - induction H; auto. now rewrite H, IHForall.
  - induction H as [|[k x] d Hx Hd IH]; auto.
    simpl in Hx. now rewrite pystr_eqb_refl, Hx, IH.
Qed.

Lemma pyval_eqb_iff (a b : pyval) : pyval_eqb a b = true <-> a = b.
Proof.
  split; [apply pyval_eqb_eq | intros ->; apply pyval_eqb_refl].
Qed.

Lemma utf8_char_total (c : Z) :
  0 <= c < 0x110000 -> is_surrogate c = false -> exists bs, utf8_char c = Some bs.
Proof.
  intros Hc Hs. unfold utf8_char. rewrite Hs.
  destruct (c <? 0) eqn:E0; [apply Z.ltb_lt in E0; lia|].
  destruct (c <? 128); [eauto|]. destruct (c <? 2048); [eauto|].
  destruct (c <? 65536); [eauto|].
  destruct (c <? 1114112) eqn:E; [eauto|]. apply Z.ltb_ge in E. lia.
Qed.

Lemma encode_total (s : pystr) : encodable s -> exists bytes, encode s = inr bytes.
Proof.
  induction 1 as [|c s [Hc Hs] _ [rest IH]]; simpl; [eauto|].
  destruct (utf8_char_total c Hc Hs) as [bs ->]. rewrite IH. eauto.
Qed.

(* ================================================================== *)
(** * The scorer: signs and bounds *)

Lemma round_not_negative (m e : Z) (l : location) :
  not_negative (binary_round_aux prec emax false m e l).
Proof.
  unfold binary_round_aux.
  destruct (shr_fexp prec emax m e l) as [mrs e1].
  destruct (shr_fexp prec emax _ e1 loc_Exact) as [mrs2 e2].
  destruct (shr_m mrs2); simpl; auto.
  match goal with |- context [if ?b then _ else _] => destruct b end; exact I.
Qed.

Lemma fleb_zero_not_negative (f : float) : fleb f_zero f = true -> not_negative f.
Proof. destruct f as [s|[]| |[] m e]; simpl; auto; discriminate. Qed.

Lemma fdiv_pos_not_negative (c : positive) (ec : Z) (a : float) :
  not_negative a -> not_negative (fdiv a (S754_finite false c ec)).
Proof.
  destruct a as [s|[]| |[] m e]; simpl; try tauto; intros _.
  destruct (SFdiv_core_binary prec emax (Z.pos m) e _ _) as [[mz ez] lz].
  apply round_not_negative.
Qed.

Lemma fmul_pos_not_negative (c : positive) (ec : Z) (b : float) :
  not_negative b -> not_negative (fmul (S754_finite false c ec) b).
Proof.
  destruct b as [s|[]| |[] m e]; simpl; try tauto; intros _.
  apply round_not_negative.
Qed.

Lemma fadd_not_negative (x y : float) :
  not_negative x -> not_negative y -> not_negative (fadd x y).
Proof.
  destruct x as [s|[]| |[] m e], y as [t|[]| |[] n f]; simpl; try tauto;
    intros _ _; try (destruct s, t; exact I).
  unfold binary_normalize.
  destruct (shl_align m e (Z.min e f)) as [m1 e1], (shl_align n f (Z.min e f)) as [n1 f1].
  simpl. unfold binary_round.
  destruct (shl_align _ _ _) as [mz ez]. apply round_not_negative.
Qed.

Lemma float_of_Z_not_negative (z : Z) : 0 <= z -> not_negative (float_of_Z z).
Proof.
  destruct z as [|p|p]; simpl; auto; [|lia]. intros _.
  unfold float_of_Z, binary_normalize, binary_round.
  destruct (shl_align _ _ _) as [mz ez]. apply round_not_negative.
Qed.

Lemma as_float_not_negative (a : pyval) (f : float) :
  amount_ge_0 a -> as_float a = inr f -> not_negative f.
Proof.
  destruct a as [|b|z|g|s|l|d]; simpl; try tauto.
  - intros _. destruct b; vm_compute; intros [= <-]; exact I.
  - intros Hz. unfold int_to_float.
    pose proof (float_of_Z_not_negative z Hz) as Hn.
    destruct (float_of_Z z); try discriminate; intros [= <-]; exact Hn.
  - intros Hg [= <-]. now apply fleb_zero_not_negative.
Qed.

Lemma pymin_le (a x : float) : fleb a a = true -> fleb (pymin a x) a = true.
Proof.
  intros Ha. unfold pymin, fltb, fleb, SFltb, SFleb in *.
  destruct (SFcompare x a) as [[]|] eqn:E; auto. now rewrite E.
Qed.

Lemma score_of_bounds (h : Z) (amount : float) :
  0 <= h -> not_negative amount ->
  fleb f_zero (score_of h amount) = true /\ fleb (score_of h amount) f_1_0 = true.
Proof.
  intros Hh Ha. unfold score_of.
  set (x := fadd _ _).
  assert (Hx : not_negative x).
  { apply fadd_not_negative; apply fmul_pos_not_negative;
      apply fdiv_pos_not_negative; auto using float_of_Z_not_negative. }
  split; [|apply pymin_le; reflexivity].
  unfold pymin. destruct (fltb x f_1_0) eqn:E; [|reflexivity].
  destruct x as [s|[]| |[] m e]; simpl in *; try tauto; try discriminate; reflexivity.
Qed.



Lemma SFcompare_antisym (x y : float) (c : comparison) :
  SFcompare x y = Some c -> SFcompare y x = Some (CompOpp c).
Proof.
  destruct x as [s|s| |s m e], y as [t|t| |t n f]; simpl; try discriminate;
    intros [= <-]; try (destruct s; reflexivity); try (destruct t; reflexivity);
    try (destruct s, t; reflexivity).
  assert (H : PosDef.Pos.compare_cont Eq n m = CompOpp (PosDef.Pos.compare_cont Eq m n))
    by apply ZC4.
  destruct s, t; try reflexivity; rewrite (Z.compare_antisym e f);
    destruct (e ?= f); simpl; try reflexivity; rewrite H;
    destruct (PosDef.Pos.compare_cont Eq m n); reflexivity.
Qed.


(* ================================================================== *)
(** * Rounding to nearest is monotone *)

Lemma cell_mono (N1 D1 N2 D2 : Z) :
  0 < D1 -> 0 < D2 -> N1 * D2 <= N2 * D1 -> cell N1 D1 <= cell N2 D2.
Proof.
  intros H1 H2 H. unfold cell.
  pose proof (Z.div_mod N1 D1 ltac:(lia)) as E1.
  pose proof (Z.div_mod N2 D2 ltac:(lia)) as E2.
  pose proof (Z.mod_pos_bound N1 D1 H1) as B1.
  pose proof (Z.mod_pos_bound N2 D2 H2) as B2.
  set (q1 := N1 / D1) in *. set (r1 := N1 mod D1) in *.
  set (q2 := N2 / D2) in *. set (r2 := N2 mod D2) in *.
  clearbody q1 r1 q2 r2.
  assert (Hq : q1 <= q2).
  { destruct (Z_le_gt_dec q1 q2) as [|Hgt]; [assumption|exfalso].
    assert (q2 + 1 <= q1) by lia.
    assert (N2 * D1 < (q2 + 1) * D2 * D1) by nia.
    assert ((q2 + 1) * D2 * D1 <= q1 * D1 * D2) by nia.
    nia. }
  destruct (r1 =? 0) eqn:R1, (r2 =? 0) eqn:R2; try lia.
  apply Z.eqb_neq in R1. apply Z.eqb_eq in R2.
  destruct (Z.eq_dec q1 q2) as [Heq|]; [exfalso|lia].
  rewrite R2 in E2. subst N1 N2. rewrite Heq in H. nia.
Qed.

Lemma cell_cell (N D K : Z) :
  0 < D -> 0 < K -> cell (cell N D) (2 * K) = cell N (D * K).
Proof.
  intros HD HK. unfold cell.
  pose proof (Z.div_mod N D ltac:(lia)) as E1.
  pose proof (Z.mod_pos_bound N D HD) as B1.
  set (q := N / D) in *. set (r := N mod D) in *. clearbody q r.
  pose proof (Z.div_mod q K ltac:(lia)) as E2.
  pose proof (Z.mod_pos_bound q K HK) as B2.
  set (q' := q / K) in *. set (r' := q mod K) in *. clearbody q' r'.
  set (sg := if r =? 0 then 0 else 1).
  assert (Hsg : 0 <= sg <= 1) by (unfold sg; destruct (r =? 0); lia).
  assert (Hdiv : (2 * q + sg) / (2 * K) = q' /\ (2 * q + sg) mod (2 * K) = 2 * r' + sg).
  { assert (X : 2 * q + sg = (2 * K) * q' + (2 * r' + sg)) by lia.
    split; symmetry.
    - apply (Z.div_unique_pos _ _ q' (2 * r' + sg)); [lia|exact X].
    - apply (Z.mod_unique_pos _ _ q' (2 * r' + sg)); [lia|exact X]. }
  destruct Hdiv as [-> ->].
  assert (Hdiv2 : N / (D * K) = q' /\ N mod (D * K) = D * r' + r).
  { assert (X : N = (D * K) * q' + (D * r' + r)) by nia.
    assert (0 <= D * r' + r < D * K) by nia.
    split; symmetry.
    - apply (Z.div_unique_pos _ _ q' (D * r' + r)); [lia|exact X].
    - apply (Z.mod_unique_pos _ _ q' (D * r' + r)); [lia|exact X]. }
  destruct Hdiv2 as [-> ->].
  f_equal. unfold sg.
  destruct (r =? 0) eqn:R; destruct (2 * r' + _ =? 0) eqn:R'; destruct (D * r' + r =? 0) eqn:R'';
    try reflexivity; exfalso;
    repeat match goal with
           | H : (_ =? _) = true |- _ => apply Z.eqb_eq in H
           | H : (_ =? _) = false |- _ => apply Z.eqb_neq in H
           end; nia.
Qed.

Lemma cell_1 (i : Z) : cell i 2 = i.
Proof.
  unfold cell. pose proof (Z.div_mod i 2 ltac:(lia)).
  pose proof (Z.mod_pos_bound i 2 ltac:(lia)).
  destruct (i mod 2 =? 0) eqn:E; [apply Z.eqb_eq in E|apply Z.eqb_neq in E]; lia.
Qed.

(** ** Shifted mantissas as cell indices *)

Lemma idx_of_loc (m : Z) (l : location) :
  idx_of (shr_record_of_loc m l) = 4 * m + loc_code l.
Proof. destruct l as [|[]]; unfold idx_of; simpl; lia. Qed.

Lemma cell_4 (q c : Z) :
  0 <= c < 4 -> cell (4 * q + c) 4 = 2 * q + (if c =? 0 then 0 else 1).
Proof.
  intros Hc. unfold cell.
  assert (E1 : (4 * q + c) / 4 = q) by (symmetry; apply (Z.div_unique_pos _ _ q c); lia).
  assert (E2 : (4 * q + c) mod 4 = c) by (symmetry; apply (Z.mod_unique_pos _ _ q c); lia).
  now rewrite E1, E2.
Qed.

Lemma cell_4_bits (q : Z) (r s : bool) :
  cell (4 * q + (if r then 2 else 0) + (if s then 1 else 0)) 4 =
  2 * q + (if r || s then 1 else 0).
Proof.
  rewrite <- Z.add_assoc, cell_4 by (destruct r, s; lia). destruct r, s; reflexivity.
Qed.

Lemma shr_1_idx (mrs : shr_record) :
  0 <= shr_m mrs ->
  idx_of (shr_1 mrs) = cell (idx_of mrs) 4 /\ 0 <= shr_m (shr_1 mrs).
Proof.
  destruct mrs as [m r s]. simpl. intros Hm. unfold idx_of.
  cbn [shr_m shr_r shr_s]. rewrite cell_4_bits.
  destruct m as [|[p|p|]|p]; try lia; simpl shr_1; cbn [shr_m shr_r shr_s];
    (split; [|lia]); destruct r, s; simpl orb; cbv iota; lia.
Qed.

Lemma pow2_double (p : positive) : 2 ^ Z.pos p~0 = 2 ^ Z.pos p * 2 ^ Z.pos p.
Proof.
  replace (Z.pos p~0) with (Z.pos p + Z.pos p) by lia. now rewrite Z.pow_add_r by lia.
Qed.

Lemma pow2_double_1 (p : positive) : 2 ^ Z.pos p~1 = 2 * (2 ^ Z.pos p * 2 ^ Z.pos p).
Proof.
  replace (Z.pos p~1) with (Z.pos p + Z.pos p + 1) by lia.
  rewrite !Z.pow_add_r by lia. change (2 ^ 1) with 2. ring.
Qed.

Lemma iter_shr_idx (p : positive) (mrs : shr_record) :
  0 <= shr_m mrs ->
  idx_of (iter_pos shr_1 p mrs) = cell (idx_of mrs) (2 * 2 ^ Z.pos p) /\
  0 <= shr_m (iter_pos shr_1 p mrs).
Proof.
  revert mrs. induction p as [p IH|p IH|]; intros mrs Hm; simpl iter_pos.
  - destruct (shr_1_idx mrs Hm) as [E1 H1].
    destruct (IH _ H1) as [E2 H2]. destruct (IH _ H2) as [E3 H3].
    split; [|assumption]. rewrite E3, E2, E1.
    assert (0 < 2 ^ Z.pos p) by (apply Z.pow_pos_nonneg; lia).
    rewrite (cell_cell (cell (idx_of mrs) 4) (2 * 2 ^ Z.pos p) (2 ^ Z.pos p)) by lia.
    replace (2 * 2 ^ Z.pos p * 2 ^ Z.pos p) with (2 * (2 ^ Z.pos p * 2 ^ Z.pos p)) by lia.
    rewrite (cell_cell (idx_of mrs) 4 (2 ^ Z.pos p * 2 ^ Z.pos p)) by nia.
    f_equal. rewrite pow2_double_1. ring.
  - destruct (IH _ Hm) as [E2 H2]. destruct (IH _ H2) as [E3 H3].
    split; [|assumption]. rewrite E3, E2.
    assert (0 < 2 ^ Z.pos p) by (apply Z.pow_pos_nonneg; lia).
    rewrite (cell_cell (idx_of mrs) (2 * 2 ^ Z.pos p) (2 ^ Z.pos p)) by lia.
    f_equal. rewrite pow2_double. ring.
  - apply shr_1_idx. assumption.
Qed.

(** ** Digits *)

Lemma digits2_pos_bounds (p : positive) :
  2 ^ (Z.pos (digits2_pos p) - 1) <= Z.pos p < 2 ^ Z.pos (digits2_pos p).
Proof.
  induction p as [p IH|p IH|]; simpl digits2_pos.
  - rewrite Pos2Z.inj_succ. replace (Z.succ (Z.pos (digits2_pos p)) - 1)
      with (Z.succ (Z.pos (digits2_pos p) - 1)) by lia.
    rewrite !Z.pow_succ_r by lia. lia.
  - rewrite Pos2Z.inj_succ. replace (Z.succ (Z.pos (digits2_pos p)) - 1)
      with (Z.succ (Z.pos (digits2_pos p) - 1)) by lia.
    rewrite !Z.pow_succ_r by lia. lia.
  - simpl. lia.
Qed.

Lemma Zdigits2_bounds (m : Z) :
  0 < m -> 0 < Zdigits2 m /\ 2 ^ (Zdigits2 m - 1) <= m < 2 ^ Zdigits2 m.
Proof.
  destruct m as [|p|p]; try lia. intros _. simpl. split; [lia|].
  apply digits2_pos_bounds.
Qed.

Lemma Zdigits2_le (m k : Z) : 0 <= k -> 0 <= m < 2 ^ k -> Zdigits2 m <= k.
Proof.
  intros Hk [H0 H]. destruct (Z.eq_dec m 0) as [->|]; [simpl; lia|].
  destruct (Zdigits2_bounds m ltac:(lia)) as [Hd [Hlo _]].
  destruct (Z_le_gt_dec (Zdigits2 m) k); [assumption|exfalso].
  assert (2 ^ k <= 2 ^ (Zdigits2 m - 1)) by (apply Z.pow_le_mono_r; lia). lia.
Qed.

Lemma Zdigits2_ge (m k : Z) : 0 <= k -> 2 ^ k <= m -> k + 1 <= Zdigits2 m.
Proof.
  intros Hk H. assert (0 < 2 ^ k) by (apply Z.pow_pos_nonneg; lia).
  destruct (Zdigits2_bounds m ltac:(lia)) as [Hd [_ Hhi]].
  destruct (Z_le_gt_dec (k + 1) (Zdigits2 m)); [assumption|exfalso].
  assert (2 ^ Zdigits2 m <= 2 ^ k) by (apply Z.pow_le_mono_r; lia). lia.
Qed.

(** ** The first shift of [binary_round_aux] *)

Lemma emin_value : emin = -1074.
Proof. reflexivity. Qed.

Lemma fexp_value (e : Z) : fexp e = Z.max (e - 53) (-1074).
Proof. reflexivity. Qed.

Lemma first_shift (m e : Z) (l : location) :
  0 <= m -> fine m e ->
  let t := fexp (Zdigits2 m + e) in
  exists mrs, shr_fexp prec emax m e l = (mrs, t) /\
    idx_of mrs = cell (4 * m + loc_code l) (2 * 2 ^ (t - e)) /\
    0 <= shr_m mrs.
Proof.
  intros Hm Hf t. unfold fine in Hf. fold t in Hf.
  unfold shr_fexp, shr. fold t. clearbody t.
  assert (Hm' : 0 <= shr_m (shr_record_of_loc m l)) by (destruct l as [|[]]; exact Hm).
  destruct (t - e) as [|p|p] eqn:En; try lia.
  - exists (shr_record_of_loc m l). split; [f_equal; lia|]. rewrite idx_of_loc. simpl.
    rewrite cell_1. split; [reflexivity|assumption].
  - destruct (iter_shr_idx p _ Hm') as [E H].
    exists (iter_pos shr_1 p (shr_record_of_loc m l)).
    split; [f_equal; lia|]. rewrite E, idx_of_loc. auto.
Qed.

Lemma shr_m_of_idx (mrs : shr_record) : shr_m mrs = idx_of mrs / 4.
Proof.
  destruct mrs as [m r s]. unfold idx_of. cbn [shr_m shr_r shr_s].
  apply (Z.div_unique_pos _ _ m ((if r then 2 else 0) + (if s then 1 else 0)));
    destruct r, s; lia.
Qed.

Lemma cell_div4 (m c K : Z) :
  0 <= c < 4 -> 0 < K -> cell (4 * m + c) (2 * K) / 4 = m / K.
Proof.
  intros Hc HK. unfold cell.
  set (I := 4 * m + c).
  assert (Hs : 0 <= (if I mod (2 * K) =? 0 then 0 else 1) <= 1)
    by (destruct (_ =? _); lia).
  set (sg := if I mod (2 * K) =? 0 then 0 else 1) in *. clearbody sg.
  assert (E1 : (2 * (I / (2 * K)) + sg) / 4 = I / (2 * K) / 2).
  { pose proof (Z.div_mod (I / (2 * K)) 2 ltac:(lia)).
    pose proof (Z.mod_pos_bound (I / (2 * K)) 2 ltac:(lia)).
    symmetry. apply (Z.div_unique_pos _ _ _ (2 * ((I / (2 * K)) mod 2) + sg)); lia. }
  rewrite E1, Z.div_div by lia.
  replace (2 * K * 2) with (4 * K) by lia. rewrite <- Z.div_div by lia.
  f_equal. unfold I. symmetry. apply (Z.div_unique_pos _ _ m c); lia.
Qed.

(** After the first shift the mantissa has at most [prec] digits, and
    exactly [prec] above the smallest exponent. *)
Lemma first_shift_bounds (m e : Z) :
  0 <= m -> fine m e ->
  let t := fexp (Zdigits2 m + e) in
  emin <= t /\ m / 2 ^ (t - e) < 2 ^ 53 /\ (emin < t -> 2 ^ 52 <= m / 2 ^ (t - e)).
Proof.
  intros Hm Hf t. unfold fine in Hf. fold t in Hf.
  assert (Ht : t = Z.max (Zdigits2 m + e - 53) (-1074)) by reflexivity.
  rewrite emin_value. clearbody t.
  assert (Hn : 0 <= t - e) by lia.
  assert (Hp : 0 < 2 ^ (t - e)) by (apply Z.pow_pos_nonneg; lia).
  split; [lia|].
  destruct (Z.eq_dec m 0) as [->|Hm0].
  { rewrite Z.div_0_l by lia. split; [lia|]. simpl in Ht. lia. }
  destruct (Zdigits2_bounds m ltac:(lia)) as [Hd [Hlo Hhi]].
  split.
  - apply Z.div_lt_upper_bound; [lia|]. rewrite <- Z.pow_add_r by lia.
    eapply Z.lt_le_trans; [exact Hhi|]. apply Z.pow_le_mono_r; lia.
  - intros Hgt. apply Z.div_le_lower_bound; [lia|]. rewrite <- Z.pow_add_r by lia.
    eapply Z.le_trans; [|exact Hlo]. apply Z.pow_le_mono_r; lia.
Qed.

(** ** Rounding to nearest even on cell indices *)

Lemma rne_round_idx (mrs : shr_record) :
  round_nearest_even (shr_m mrs) (loc_of_shr_record mrs) = round_idx (idx_of mrs).
Proof.
  destruct mrs as [m r s]. unfold round_idx, idx_of. cbn [shr_m shr_r shr_s].
  set (c := (if r then 2 else 0) + (if s then 1 else 0)).
  assert (Hc : 0 <= c < 4) by (unfold c; destruct r, s; lia).
  rewrite <- Z.add_assoc. fold c.
  assert (E1 : (4 * m + c) / 4 = m) by (symmetry; apply (Z.div_unique_pos _ _ m c); lia).
  assert (E2 : (4 * m + c) mod 4 = c) by (symmetry; apply (Z.mod_unique_pos _ _ m c); lia).
  cbv zeta. rewrite E1, E2. unfold c. destruct r, s; reflexivity.
Qed.

Lemma round_idx_bounds (i : Z) : i / 4 <= round_idx i <= i / 4 + 1.
Proof.
  unfold round_idx. cbv zeta. destruct (_ <? 2); [lia|].
  destruct (_ =? 2); [destruct (Z.even _)|]; lia.
Qed.

Lemma round_idx_mono (i j : Z) : i <= j -> round_idx i <= round_idx j.
Proof.
  intros H. pose proof (round_idx_bounds i). pose proof (round_idx_bounds j).
  pose proof (Z.div_mod i 4 ltac:(lia)). pose proof (Z.div_mod j 4 ltac:(lia)).
  pose proof (Z.mod_pos_bound i 4 ltac:(lia)). pose proof (Z.mod_pos_bound j 4 ltac:(lia)).
  destruct (Z.eq_dec (i / 4) (j / 4)) as [E|]; [|lia].
  unfold round_idx in *. cbv zeta in *. rewrite <- E in *.
  destruct (i mod 4 <? 2) eqn:A, (j mod 4 <? 2) eqn:B;
    destruct (i mod 4 =? 2) eqn:A', (j mod 4 =? 2) eqn:B';
    destruct (Z.even (i / 4)); lia.
Qed.

(** ** What [binary_round_aux] returns, on the cell index at the target
    exponent *)

Lemma round_out (m e : Z) (l : location) :
  0 <= m -> fine m e ->
  let t := fexp (Zdigits2 m + e) in
  binary_round_aux prec emax false m e l =
  out (cell (4 * m + loc_code l) (2 * 2 ^ (t - e))) t.
Proof.
  intros Hm Hf t.
  destruct (first_shift m e l Hm Hf) as (mrs & Hs & Hi & Hpos). fold t in Hs, Hi.
  destruct (first_shift_bounds m e Hm Hf) as (Ht & Hhi & _). fold t in Ht, Hhi.
  rewrite emin_value in Ht.
  assert (Hn : 0 < 2 ^ (t - e)).
  { apply Z.pow_pos_nonneg; [lia|]. unfold fine in Hf. fold t in Hf. lia. }
  assert (Hc : 0 <= loc_code l < 4) by (destruct l as [|[]]; simpl; lia).
  pose proof (cell_div4 m (loc_code l) (2 ^ (t - e)) Hc Hn) as Hd.
  clearbody t. unfold binary_round_aux. rewrite Hs, rne_round_idx, Hi.
  set (i := cell (4 * m + loc_code l) (2 * 2 ^ (t - e))) in *.
  pose proof (round_idx_bounds i) as Hb. rewrite Hd in Hb.
  assert (H0 : 0 <= m / 2 ^ (t - e)) by (apply Z.div_pos; lia).
  unfold out. cbv zeta. set (m1 := round_idx i) in *. clearbody m1.
  destruct (m1 <? 2 ^ 53) eqn:E53.
  - apply Z.ltb_lt in E53.
    assert (Hdig : Zdigits2 m1 <= 53) by (apply Zdigits2_le; lia).
    unfold shr_fexp, shr. rewrite fexp_value.
    destruct (Z.max (Zdigits2 m1 + t - 53) (-1074) - t) as [|p|p] eqn:En; try lia;
      simpl shr_record_of_loc; cbn [shr_m];
      destruct m1 as [|p1|p1]; try lia; reflexivity.
  - apply Z.ltb_ge in E53. assert (m1 = 2 ^ 53) by lia. subst m1.
    unfold shr_fexp, shr. rewrite fexp_value.
    change (Zdigits2 (2 ^ 53)) with 54.
    replace (Z.max (54 + t - 53) (-1074) - t) with 1 by lia.
    simpl iter_pos. cbn [shr_m].
    replace (t + 1 <=? emax - prec) with (t + 1 <=? 971) by reflexivity.
    reflexivity.
Qed.

Lemma leb_finite (m1 m2 : positive) (e1 e2 : Z) :
  e1 < e2 \/ (e1 = e2 /\ Z.pos m1 <= Z.pos m2) ->
  SFleb (S754_finite false m1 e1) (S754_finite false m2 e2) = true.
Proof.
  unfold SFleb, SFcompare. intros [H|[-> H]].
  - apply Z.compare_lt_iff in H. now rewrite H.
  - rewrite Z.compare_refl.
    change (PosDef.Pos.compare_cont Eq m1 m2) with (Pos.compare m1 m2).
    destruct (Pos.compare_spec m1 m2); try reflexivity. lia.
Qed.

Lemma out_mono (i1 t1 i2 t2 : Z) :
  canonical i1 t1 -> canonical i2 t2 ->
  t1 < t2 \/ (t1 = t2 /\ i1 <= i2) ->
  SFleb (out i1 t1) (out i2 t2) = true.
Proof.
  intros (P1 & T1 & H1 & L1) (P2 & T2 & H2 & L2) Hord. unfold out. cbv zeta.
  pose proof (round_idx_bounds i1) as B1. pose proof (round_idx_bounds i2) as B2.
  assert (Q1 : 0 <= i1 / 4) by (apply Z.div_pos; lia).
  assert (Q2 : 0 <= i2 / 4) by (apply Z.div_pos; lia).
  assert (Hab : t1 = t2 -> round_idx i1 <= round_idx i2).
  { intros E. destruct Hord as [|[_ Hi]]; [lia|]. now apply round_idx_mono. }
  assert (Hb : t1 < t2 -> 2 ^ 52 <= round_idx i2) by (intros; lia).
  set (a := round_idx i1) in *. set (b := round_idx i2) in *. clearbody a b.
  assert (E52 : 2 ^ 52 = 4503599627370496) by reflexivity.
  assert (E53 : 2 ^ 53 = 9007199254740992) by reflexivity.
  rewrite E52, E53 in *. clear E52 E53.
  destruct (a <? 9007199254740992) eqn:Ea, (b <? 9007199254740992) eqn:Eb;
    [apply Z.ltb_lt in Ea, Eb | apply Z.ltb_lt in Ea; apply Z.ltb_ge in Eb
     | apply Z.ltb_ge in Ea; apply Z.ltb_lt in Eb | apply Z.ltb_ge in Ea, Eb];
    destruct a as [|pa|pa]; try lia; destruct b as [|pb|pb]; try lia;
    repeat match goal with
           | |- context [?x <=? 971] =>
               let E := fresh "E" in
               destruct (x <=? 971) eqn:E;
               [apply Z.leb_le in E | apply Z.leb_gt in E]
           end;
    try reflexivity; try (apply leb_finite; lia); try lia.
Qed.

(** ** Order of the values, and monotonicity of the rounding *)

Lemma qle_base (B N1 D1 e1 N2 D2 e2 : Z) :
  B <= e1 -> B <= e2 ->
  (qle N1 D1 e1 N2 D2 e2 <-> N1 * D2 * 2 ^ (e1 - B) <= N2 * D1 * 2 ^ (e2 - B)).
Proof.
  intros H1 H2. unfold qle. set (E := Z.min e1 e2).
  assert (HE : B <= E) by (unfold E; lia).
  assert (HE1 : E <= e1) by (unfold E; lia).
  assert (HE2 : E <= e2) by (unfold E; lia). clearbody E.
  replace (e1 - B) with ((e1 - E) + (E - B)) by lia.
  replace (e2 - B) with ((e2 - E) + (E - B)) by lia.
  rewrite !Z.pow_add_r by lia.
  assert (Hp : 0 < 2 ^ (E - B)) by (apply Z.pow_pos_nonneg; lia).
  set (P := 2 ^ (E - B)) in *. clearbody P.
  set (X := N1 * D2 * 2 ^ (e1 - E)). set (Y := N2 * D1 * 2 ^ (e2 - E)).
  replace (N1 * D2 * (2 ^ (e1 - E) * P)) with (X * P) by (unfold X; ring).
  replace (N2 * D1 * (2 ^ (e2 - E) * P)) with (Y * P) by (unfold Y; ring).
  clearbody X Y. split; intros H; nia.
Qed.

Lemma cell_nonneg (N D : Z) : 0 <= N -> 0 < D -> 0 <= cell N D.
Proof.
  intros HN HD. unfold cell.
  assert (0 <= N / D) by (apply Z.div_pos; lia). destruct (_ =? 0); lia.
Qed.

Lemma cell_half (N D : Z) : 0 < D -> cell N D / 4 = N / D / 2.
Proof.
  intros HD. unfold cell.
  assert (Hs : 0 <= (if N mod D =? 0 then 0 else 1) <= 1) by (destruct (_ =? _); lia).
  set (sg := if N mod D =? 0 then 0 else 1) in *. clearbody sg.
  pose proof (Z.div_mod (N / D) 2 ltac:(lia)).
  pose proof (Z.mod_pos_bound (N / D) 2 ltac:(lia)).
  symmetry. apply (Z.div_unique_pos _ _ _ (2 * ((N / D) mod 2) + sg)); lia.
Qed.

(** The cell index at the target exponent. *)
Lemma target_cell (m e : Z) (l : location) (N D : Z) :
  stands_for m e l N D ->
  let t := fexp (Zdigits2 m + e) in
  binary_round_aux prec emax false m e l = out (cell N (D * 2 ^ (t - e))) t /\
  canonical (cell N (D * 2 ^ (t - e))) t /\ e <= t.
Proof.
  intros (Hm & Hf & HN & HD & Hc) t.
  assert (Hte : e <= t) by exact Hf.
  assert (Hp : 0 < 2 ^ (t - e)) by (apply Z.pow_pos_nonneg; lia).
  pose proof (round_out m e l Hm Hf) as Hr. cbv zeta in Hr. fold t in Hr.
  destruct (first_shift_bounds m e Hm Hf) as (Ht & Hhi & Hlo). fold t in Ht, Hhi, Hlo.
  rewrite emin_value in Ht, Hlo.
  assert (Hcode : 0 <= loc_code l < 4) by (destruct l as [|[]]; simpl; lia).
  pose proof (cell_div4 m (loc_code l) (2 ^ (t - e)) Hcode Hp) as Hd.
  clearbody t. rewrite Hc in Hr, Hd. rewrite cell_cell in Hr, Hd by lia.
  split; [exact Hr|]. split; [|exact Hte].
  unfold canonical. rewrite Hd. repeat split; auto.
  apply cell_nonneg; [assumption|]. nia.
Qed.

(** Rounding to nearest, ties to even, keeps the order: of two mantissas
    with their locations that stand for ordered non-negative values, the
    floats [binary_round_aux] returns are in the order of [<=]. *)
Theorem round_mono (m1 e1 : Z) (l1 : location) (N1 D1 : Z)
        (m2 e2 : Z) (l2 : location) (N2 D2 : Z) :
  stands_for m1 e1 l1 N1 D1 -> stands_for m2 e2 l2 N2 D2 ->
  qle N1 D1 e1 N2 D2 e2 ->
  SFleb (binary_round_aux prec emax false m1 e1 l1)
        (binary_round_aux prec emax false m2 e2 l2) = true.
Proof.
  intros S1 S2 Hq.
  destruct (target_cell _ _ _ _ _ S1) as (-> & C1 & T1).
  destruct (target_cell _ _ _ _ _ S2) as (-> & C2 & T2).
  destruct S1 as (_ & _ & HN1 & HD1 & _), S2 as (_ & _ & HN2 & HD2 & _).
  set (t1 := fexp (Zdigits2 m1 + e1)) in *. set (t2 := fexp (Zdigits2 m2 + e2)) in *.
  clearbody t1 t2.
  assert (P1 : 0 < 2 ^ (t1 - e1)) by (apply Z.pow_pos_nonneg; lia).
  assert (P2 : 0 < 2 ^ (t2 - e2)) by (apply Z.pow_pos_nonneg; lia).
  set (D1' := D1 * 2 ^ (t1 - e1)) in *. set (D2' := D2 * 2 ^ (t2 - e2)) in *.
  assert (HD1' : 0 < D1') by (unfold D1'; nia).
  assert (HD2' : 0 < D2') by (unfold D2'; nia).
  (* the order of the values, at the target exponents *)
  assert (Hv : forall B, B <= e1 -> B <= e2 ->
             N1 * D2' * 2 ^ (t1 - B) <= N2 * D1' * 2 ^ (t2 - B)).
  { intros B B1 B2. apply (qle_base B) in Hq; [|lia|lia].
    unfold D1', D2'.
    replace (t1 - B) with ((t1 - e1) + (e1 - B)) by lia.
    replace (t2 - B) with ((t2 - e2) + (e2 - B)) by lia.
    rewrite !Z.pow_add_r by lia.
    set (X := N1 * D2 * 2 ^ (e1 - B)) in *. set (Y := N2 * D1 * 2 ^ (e2 - B)) in *.
    replace (N1 * (D2 * 2 ^ (t2 - e2)) * (2 ^ (t1 - e1) * 2 ^ (e1 - B)))
      with (X * (2 ^ (t1 - e1) * 2 ^ (t2 - e2))) by (unfold X; ring).
    replace (N2 * (D1 * 2 ^ (t1 - e1)) * (2 ^ (t2 - e2) * 2 ^ (e2 - B)))
      with (Y * (2 ^ (t1 - e1) * 2 ^ (t2 - e2))) by (unfold Y; ring).
    apply Z.mul_le_mono_nonneg_r; [nia|exact Hq]. }
  apply out_mono; [assumption|assumption|].
  destruct (Z_lt_le_dec t1 t2) as [Hlt|Hge]; [now left|right].
  assert (Hv' : N1 * D2' * 2 ^ (t1 - t2) <= N2 * D1').
  { specialize (Hv (Z.min e1 e2) ltac:(lia) ltac:(lia)).
    replace (t1 - Z.min e1 e2) with ((t1 - t2) + (t2 - Z.min e1 e2)) in Hv by lia.
    rewrite Z.pow_add_r in Hv by lia.
    assert (0 < 2 ^ (t2 - Z.min e1 e2)) by (apply Z.pow_pos_nonneg; lia).
    set (P := 2 ^ (t2 - Z.min e1 e2)) in *. clearbody P. nia. }
  destruct (Z.eq_dec t1 t2) as [Heq|Hne].
  - split; [assumption|]. subst t2. rewrite Z.sub_diag in Hv'. simpl in Hv'.
    apply cell_mono; lia.
  - exfalso. assert (Hgt : t2 < t1) by lia.
    destruct C1 as (_ & _ & _ & L1), C2 as (_ & Tlo2 & H2 & _).
    rewrite cell_half in L1, H2 by assumption. clearbody D1' D2'.
    specialize (L1 ltac:(lia)).
    assert (A1 : 2 ^ 53 * D1' <= N1).
    { pose proof (Z.div_mod N1 D1' ltac:(lia)). pose proof (Z.mod_pos_bound N1 D1' HD1').
      pose proof (Z.div_mod (N1 / D1') 2 ltac:(lia)).
      pose proof (Z.mod_pos_bound (N1 / D1') 2 ltac:(lia)).
      change (2 ^ 53) with 9007199254740992. change (2 ^ 52) with 4503599627370496 in L1.
      nia. }
    assert (A2 : N2 < 2 ^ 54 * D2').
    { pose proof (Z.div_mod N2 D2' ltac:(lia)). pose proof (Z.mod_pos_bound N2 D2' HD2').
      pose proof (Z.div_mod (N2 / D2') 2 ltac:(lia)).
      pose proof (Z.mod_pos_bound (N2 / D2') 2 ltac:(lia)).
      change (2 ^ 54) with 18014398509481984. change (2 ^ 53) with 9007199254740992 in H2.
      nia. }
    assert (A3 : 2 <= 2 ^ (t1 - t2)).
    { change 2 with (2 ^ 1) at 1. apply Z.pow_le_mono_r; lia. }
    change (2 ^ 53) with 9007199254740992 in A1.
    change (2 ^ 54) with 18014398509481984 in A2.
    set (P := 2 ^ (t1 - t2)) in *. clearbody P.
    assert (9007199254740992 * D1' * D2' * P <= N1 * D2' * P) by nia.
    assert (N2 * D1' < 18014398509481984 * D2' * D1') by nia.
    nia.
Qed.

(** ** Floats the scorer computes with *)

Lemma valid_finite (m : positive) (e : Z) (s : bool) :
  valid (S754_finite s m e) = true <->
  e = fexp (Z.pos (digits2_pos m) + e) /\ e <= 971.
Proof.
  unfold valid, valid_binary, bounded, canonical_mantissa.
  rewrite andb_true_iff, Z.eqb_eq, Z.leb_le.
  change (emax - prec) with 971. intuition.
Qed.

(** A canonical mantissa has at most 53 digits, and exactly 53 above the
    smallest exponent. *)
Lemma valid_bounds (m : positive) (e : Z) (s : bool) :
  valid (S754_finite s m e) = true ->
  -1074 <= e <= 971 /\ Z.pos m < 2 ^ 53 /\ (-1074 < e -> 2 ^ 52 <= Z.pos m).
Proof.
  intros H. apply valid_finite in H as [Hc He]. rewrite fexp_value in Hc.
  destruct (digits2_pos_bounds m) as [Hlo Hhi].
  set (d := Z.pos (digits2_pos m)) in *. assert (0 < d) by (unfold d; lia). clearbody d.
  split; [lia|]. split.
  - eapply Z.lt_le_trans; [exact Hhi|]. apply Z.pow_le_mono_r; lia.
  - intros Hgt. eapply Z.le_trans; [|exact Hlo]. apply Z.pow_le_mono_r; lia.
Qed.

Lemma fine_big (m e : Z) : 2 ^ 52 <= m -> fine m e.
Proof.
  intros H. unfold fine. rewrite fexp_value.
  pose proof (Zdigits2_ge m 52 ltac:(lia) H). lia.
Qed.

Lemma fine_low (m e : Z) : e <= -1074 -> fine m e.
Proof. intros H. unfold fine. rewrite fexp_value. lia. Qed.

Lemma cell_exact (M : Z) : cell (2 * M) 1 = 4 * M.
Proof. unfold cell. rewrite Z.div_1_r, Z.mod_1_r, Z.eqb_refl. lia. Qed.

Lemma stands_exact (M e : Z) : 0 <= M -> fine M e -> stands_for M e loc_Exact (2 * M) 1.
Proof.
  intros HM Hf. unfold stands_for. rewrite cell_exact. cbn [loc_code].
  repeat split; auto; lia.
Qed.

Lemma round_idx_exact (m : Z) : round_idx (4 * m) = m.
Proof.
  unfold round_idx. cbv zeta.
  assert (E1 : (4 * m) / 4 = m) by (symmetry; apply (Z.div_unique_pos _ _ m 0); lia).
  assert (E2 : (4 * m) mod 4 = 0) by (symmetry; apply (Z.mod_unique_pos _ _ m 0); lia).
  now rewrite E1, E2.
Qed.

(** A canonical float is the rounding of its own mantissa and exponent. *)
(** Rounding a canonical float returns it. *)
Lemma round_id (m : positive) (e : Z) :
  valid (S754_finite false m e) = true ->
  binary_round_aux prec emax false (Z.pos m) e loc_Exact = S754_finite false m e /\
  stands_for (Z.pos m) e loc_Exact (2 * Z.pos m) 1.
Proof.
  intros Hv. pose proof (valid_bounds _ _ _ Hv) as (He & Hhi & _).
  apply valid_finite in Hv as [Hc _].
  assert (Hf : fine (Z.pos m) e) by (unfold fine; simpl Zdigits2; lia).
  split; [|apply stands_exact; [lia|assumption]].
  rewrite round_out by (assumption || lia). cbv zeta. simpl Zdigits2. rewrite <- Hc.
  rewrite Z.sub_diag. simpl Z.pow. simpl loc_code. rewrite Z.add_0_r.
  replace (2 * 1) with 2 by lia. rewrite cell_1.
  unfold out. cbv zeta. rewrite round_idx_exact.
  destruct (Z.pos m <? 2 ^ 53) eqn:E; [|apply Z.ltb_ge in E; lia].
  destruct (e <=? 971) eqn:E'; [reflexivity|apply Z.leb_gt in E'; lia].
Qed.

Lemma out_good (i t : Z) : canonical i t -> good (out i t).
Proof.
  intros (Hi & Ht & Hhi & Hlo). unfold out. cbv zeta.
  pose proof (round_idx_bounds i) as Hb.
  assert (Hq : 0 <= i / 4) by (apply Z.div_pos; lia).
  set (m1 := round_idx i) in *. clearbody m1.
  destruct (m1 <? 2 ^ 53) eqn:E53.
  - apply Z.ltb_lt in E53. destruct m1 as [|p|p]; try lia; [exact I|].
    destruct (t <=? 971) eqn:E; [|reflexivity]. apply Z.leb_le in E.
    split; [reflexivity|]. apply valid_finite. split; [|assumption].
    rewrite fexp_value. destruct (digits2_pos_bounds p) as [Dlo Dhi].
    change (Z.pos (digits2_pos p)) with (Zdigits2 (Z.pos p)) in *.
    pose proof (Zdigits2_le (Z.pos p) 53 ltac:(lia) ltac:(lia)).
    destruct (Z.eq_dec t (-1074)) as [->|]; [lia|].
    pose proof (Zdigits2_ge (Z.pos p) 52 ltac:(lia) ltac:(lia)). lia.
  - destruct (t + 1 <=? 971) eqn:E; [|reflexivity]. apply Z.leb_le in E.
    split; [reflexivity|]. apply valid_finite. split; [|assumption].
    rewrite fexp_value. change (Z.pos (digits2_pos 4503599627370496)) with 53. lia.
Qed.

Lemma round_good (m e : Z) (l : location) (N D : Z) :
  stands_for m e l N D -> good (binary_round_aux prec emax false m e l).
Proof.
  intros S. destruct (target_cell _ _ _ _ _ S) as (-> & C & _). now apply out_good.
Qed.

(** For canonical floats the order of [SFcompare] is the order of the
    values. *)
Lemma leb_value (m1 m2 : positive) (e1 e2 : Z) :
  valid (S754_finite false m1 e1) = true ->
  valid (S754_finite false m2 e2) = true ->
  SFleb (S754_finite false m1 e1) (S754_finite false m2 e2) = true ->
  qle (2 * Z.pos m1) 1 e1 (2 * Z.pos m2) 1 e2.
Proof.
  intros V1 V2 H.
  pose proof (valid_bounds _ _ _ V1) as (E1 & H1 & _).
  pose proof (valid_bounds _ _ _ V2) as (E2 & _ & L2).
  unfold SFleb, SFcompare in H. unfold qle.
  destruct (Z.compare_spec e1 e2) as [->|Hlt|Hgt]; try discriminate.
  - rewrite Z.min_id, Z.sub_diag. simpl Z.pow.
    change (PosDef.Pos.compare_cont Eq m1 m2) with (Pos.compare m1 m2) in H.
    destruct (Pos.compare_spec m1 m2); try discriminate; lia.
  - rewrite Z.min_l, Z.sub_diag by lia. simpl Z.pow.
    specialize (L2 ltac:(lia)).
    assert (2 <= 2 ^ (e2 - e1)).
    { change 2 with (2 ^ 1) at 1. apply Z.pow_le_mono_r; lia. }
    change (2 ^ 53) with 9007199254740992 in H1.
    change (2 ^ 52) with 4503599627370496 in L2.
    set (P := 2 ^ (e2 - e1)) in *. clearbody P. nia.
Qed.

Lemma leb_zero_good (s : bool) (f : float) : good f -> SFleb (S754_zero s) f = true.
Proof.
  destruct f as [t|t| |t m e]; simpl; intros H; try reflexivity; try contradiction.
  - now subst t.
  - destruct H as [-> _]. reflexivity.
Qed.

Lemma leb_good_inf (f : float) : good f -> SFleb f (S754_infinity false) = true.
Proof.
  destruct f as [t|t| |t m e]; simpl; intros H; try reflexivity; try contradiction.
  now subst t.
Qed.

(** ** The values at a common base *)

Lemma qle_scaled (B N1 D1 e1 N2 D2 e2 : Z) :
  B <= e1 -> B <= e2 ->
  (qle N1 D1 e1 N2 D2 e2 <-> scaled B N1 e1 * D2 <= scaled B N2 e2 * D1).
Proof.
  intros H1 H2. rewrite (qle_base B) by assumption. unfold scaled.
  replace (N1 * D2 * 2 ^ (e1 - B)) with (N1 * 2 ^ (e1 - B) * D2) by ring.
  replace (N2 * D1 * 2 ^ (e2 - B)) with (N2 * 2 ^ (e2 - B) * D1) by ring.
  reflexivity.
Qed.

Lemma scaled_shift (B m e k : Z) :
  0 <= k -> B <= e - k -> scaled B (m * 2 ^ k) (e - k) = scaled B m e.
Proof.
  intros Hk HB. unfold scaled. rewrite <- Z.mul_assoc, <- Z.pow_add_r by lia.
  do 2 f_equal. lia.
Qed.

Lemma scaled_base (B B' m e : Z) :
  B' <= B -> B <= e -> scaled B' m e = scaled B m e * 2 ^ (B - B').
Proof.
  intros H1 H2. unfold scaled. rewrite <- Z.mul_assoc, <- Z.pow_add_r by lia.
  do 2 f_equal. lia.
Qed.

Lemma scaled_pos (B m e : Z) : 0 < m -> B <= e -> 0 < scaled B m e.
Proof.
  intros Hm HB. unfold scaled.
  assert (0 < 2 ^ (e - B)) by (apply Z.pow_pos_nonneg; lia). nia.
Qed.

(** ** Multiplication by a normal constant *)

(** A product by a normal constant is the rounding of the exact product. *)
Lemma fmul_round (mc mb : positive) (ec eb : Z) :
  2 ^ 52 <= Z.pos mc ->
  SFmul prec emax (S754_finite false mc ec) (S754_finite false mb eb) =
    binary_round_aux prec emax false (Z.pos (mc * mb)) (ec + eb) loc_Exact /\
  stands_for (Z.pos (mc * mb)) (ec + eb) loc_Exact (2 * Z.pos (mc * mb)) 1.
Proof.
  intros Hc. split; [reflexivity|]. apply stands_exact; [lia|].
  apply fine_big. rewrite Pos2Z.inj_mul.
  change (2 ^ 52) with 4503599627370496 in *. nia.
Qed.

Lemma fmul_good (mc : positive) (ec : Z) (b : float) :
  2 ^ 52 <= Z.pos mc -> good b ->
  good (SFmul prec emax (S754_finite false mc ec) b).
Proof.
  intros Hc G. destruct b as [s|s| |s mb eb]; simpl in G; try contradiction.
  - exact I.
  - subst s. reflexivity.
  - destruct G as [-> _]. destruct (fmul_round mc mb ec eb Hc) as [-> S].
    eapply round_good; eauto.
Qed.

Lemma fmul_mono (mc : positive) (ec : Z) (a b : float) :
  2 ^ 52 <= Z.pos mc -> good a -> good b -> SFleb a b = true ->
  SFleb (SFmul prec emax (S754_finite false mc ec) a)
        (SFmul prec emax (S754_finite false mc ec) b) = true.
Proof.
  intros Hc Ga Gb Hle.
  pose proof (fmul_good mc ec a Hc Ga) as Ga'.
  pose proof (fmul_good mc ec b Hc Gb) as Gb'.
  destruct a as [s|s| |s ma ea]; simpl in Ga; try contradiction.
  - (* zero *) apply leb_zero_good. exact Gb'.
  - subst s. destruct b as [t|t| |t mb eb]; simpl in Gb; try contradiction;
      try discriminate. subst t. reflexivity.
  - destruct Ga as [-> Va].
    destruct b as [t|t| |t mb eb]; simpl in Gb; try contradiction; try discriminate.
    + subst t. apply leb_good_inf. exact Ga'.
    + destruct Gb as [-> Vb].
      destruct (fmul_round mc ma ec ea Hc) as [-> Sa].
      destruct (fmul_round mc mb ec eb Hc) as [-> Sb].
      eapply round_mono; eauto.
      pose proof (leb_value _ _ _ _ Va Vb Hle) as Hq.
      set (B := ec + Z.min ea eb).
      apply (qle_scaled B); [unfold B; lia|unfold B; lia|].
      apply (qle_scaled (Z.min ea eb)) in Hq; [|lia|lia].
      unfold scaled in *. rewrite !Pos2Z.inj_mul.
      replace (ec + ea - B) with (ea - Z.min ea eb) by (unfold B; lia).
      replace (ec + eb - B) with (eb - Z.min ea eb) by (unfold B; lia).
      set (X := 2 * Z.pos ma * 2 ^ (ea - Z.min ea eb)) in *.
      set (Y := 2 * Z.pos mb * 2 ^ (eb - Z.min ea eb)) in *.
      replace (2 * (Z.pos mc * Z.pos ma) * 2 ^ (ea - Z.min ea eb) * 1)
        with (Z.pos mc * (X * 1)) by (unfold X; ring).
      replace (2 * (Z.pos mc * Z.pos mb) * 2 ^ (eb - Z.min ea eb) * 1)
        with (Z.pos mc * (Y * 1)) by (unfold Y; ring).
      apply Z.mul_le_mono_nonneg_l; lia.
Qed.

(** ** Division by a constant *)

Lemma new_location_cell (N D : Z) :
  0 <= N -> 0 < D ->
  4 * (N / D) + loc_code (new_location D (N mod D)) = cell (2 * N) D.
Proof.
  intros HN HD.
  pose proof (Z.div_mod N D ltac:(lia)) as E.
  pose proof (Z.mod_pos_bound N D HD) as Hr.
  set (q := N / D) in *. set (r := N mod D) in *. clearbody q r.
  assert (Hcell : forall k rr, 0 <= rr < D -> 2 * r = D * k + rr ->
            cell (2 * N) D = 2 * (2 * q + k) + (if rr =? 0 then 0 else 1)).
  { intros k rr Hrr Hk. unfold cell.
    assert (X : 2 * N = D * (2 * q + k) + rr) by nia.
    rewrite <- (Z.div_unique_pos _ _ _ _ Hrr X), <- (Z.mod_unique_pos _ _ _ _ Hrr X).
    reflexivity. }
  assert (Hodd : Z.even D = false -> 2 * r <> D).
  { intros Ev X. rewrite <- X in Ev. rewrite Z.even_mul in Ev. discriminate. }
  unfold new_location, new_location_even, new_location_odd.
  change (IntDef.Z.even D) with (Z.even D).
  destruct (Z.even D) eqn:Ev; cbv beta; destruct (r =? 0) eqn:R0;
    try (apply Z.eqb_eq in R0; subst r; rewrite (Hcell 0 0) by lia;
         cbn [loc_code]; rewrite Z.eqb_refl; lia);
    apply Z.eqb_neq in R0.
  - destruct (Z.compare_spec (2 * r) D) as [Heq|Hlt|Hgt]; cbn [loc_code].
    + rewrite (Hcell 1 0) by lia. rewrite Z.eqb_refl. lia.
    + rewrite (Hcell 0 (2 * r)) by lia.
      destruct (2 * r =? 0) eqn:X; [apply Z.eqb_eq in X; lia|lia].
    + rewrite (Hcell 1 (2 * r - D)) by lia.
      destruct (2 * r - D =? 0) eqn:X; [apply Z.eqb_eq in X; lia|lia].
  - specialize (Hodd eq_refl).
    destruct (Z.compare_spec (2 * r + 1) D) as [Heq|Hlt|Hgt]; cbn [loc_code].
    + rewrite (Hcell 0 (2 * r)) by lia.
      destruct (2 * r =? 0) eqn:X; [apply Z.eqb_eq in X; lia|lia].
    + rewrite (Hcell 0 (2 * r)) by lia.
      destruct (2 * r =? 0) eqn:X; [apply Z.eqb_eq in X; lia|lia].
    + rewrite (Hcell 1 (2 * r - D)) by lia.
      destruct (2 * r - D =? 0) eqn:X; [apply Z.eqb_eq in X; lia|lia].
Qed.

Lemma div_core (ma mc : positive) (ea ec : Z) :
  exists q e' l s,
    SFdiv_core_binary prec emax (Z.pos ma) ea (Z.pos mc) ec = (q, e', l) /\
    0 <= s /\ e' = ea - ec - s /\
    stands_for q e' l (2 * (Z.pos ma * 2 ^ s)) (Z.pos mc).
Proof.
  unfold SFdiv_core_binary.
  set (d1 := Zdigits2 (Z.pos ma)). set (d2 := Zdigits2 (Z.pos mc)).
  set (e' := Z.min (fexp (d1 + ea - (d2 + ec))) (ea - ec)).
  set (s := ea - ec - e').
  assert (Hs : 0 <= s) by (unfold s, e'; lia).
  set (m' := match s with Z.pos _ => Z.shiftl (Z.pos ma) s | 0 => Z.pos ma | Z.neg _ => 0 end).
  assert (Hm' : m' = Z.pos ma * 2 ^ s).
  { unfold m'. clearbody s.
    destruct s as [|p|p]; [simpl; lia|rewrite Z.shiftl_mul_pow2 by lia; reflexivity|lia]. }
  assert (Hp : 0 < 2 ^ s) by (apply Z.pow_pos_nonneg; lia).
  assert (Hm0 : 0 <= m') by (rewrite Hm'; nia).
  pose proof (new_location_cell m' (Z.pos mc) Hm0 ltac:(lia)) as Hcell.
  unfold Z.div, Z.modulo in Hcell.
  destruct (Z.div_eucl m' (Z.pos mc)) as [q r] eqn:Ed.
  assert (Hq : q = m' / Z.pos mc) by (unfold Z.div; now rewrite Ed).
  exists q, e', (new_location (Z.pos mc) r), s.
  split; [reflexivity|]. split; [assumption|]. split; [unfold s; lia|].
  assert (Hq0 : 0 <= q) by (rewrite Hq; apply Z.div_pos; lia).
  unfold stands_for. rewrite <- Hm'. repeat split; try lia.
  (* fine *)
  destruct (Z_le_gt_dec e' (-1074)) as [Hlow|Hhigh]; [now apply fine_low|].
  apply fine_big. rewrite Hq. apply Z.div_le_lower_bound; [lia|].
  assert (Hx : e' <= d1 + ea - (d2 + ec) - 53).
  { unfold e' in *. rewrite fexp_value in *. lia. }
  destruct (digits2_pos_bounds ma) as [Alo _]. destruct (digits2_pos_bounds mc) as [_ Chi].
  fold (Zdigits2 (Z.pos ma)) in Alo. fold (Zdigits2 (Z.pos mc)) in Chi.
  fold d1 in Alo. fold d2 in Chi.
  assert (Hd1 : 0 < d1) by (unfold d1; simpl; lia).
  assert (Hd2 : 0 < d2) by (unfold d2; simpl; lia).
  assert (Hs' : 53 - d1 + d2 <= s) by (unfold s; lia).
  rewrite Hm'.
  assert (A : 2 ^ (52 + d2) <= 2 ^ (d1 - 1) * 2 ^ s).
  { rewrite <- Z.pow_add_r by lia. apply Z.pow_le_mono_r; lia. }
  rewrite Z.pow_add_r in A by lia.
  assert (0 < 2 ^ 52) by (apply Z.pow_pos_nonneg; lia).
  clearbody d1 d2 s e' m'.
  set (P52 := 2 ^ 52) in *. set (Pd2 := 2 ^ d2) in *. set (Pd1 := 2 ^ (d1 - 1)) in *.
  set (Ps := 2 ^ s) in *. clearbody P52 Pd2 Pd1 Ps. nia.
Qed.

(** A quotient is the rounding of a mantissa and location that stand for
    the exact quotient. *)
Lemma fdiv_round (ma mc : positive) (ea ec : Z) :
  exists q e' l s,
    SFdiv prec emax (S754_finite false ma ea) (S754_finite false mc ec) =
      binary_round_aux prec emax false q e' l /\
    0 <= s /\ e' = ea - ec - s /\
    stands_for q e' l (2 * (Z.pos ma * 2 ^ s)) (Z.pos mc).
Proof.
  destruct (div_core ma mc ea ec) as (q & e' & l & s & E & H).
  exists q, e', l, s. split; [|exact H]. unfold SFdiv. now rewrite E.
Qed.

Lemma fdiv_good (mc : positive) (ec : Z) (a : float) :
  good a -> good (SFdiv prec emax a (S754_finite false mc ec)).
Proof.
  intros G. destruct a as [s|s| |s ma ea]; simpl in G; try contradiction.
  - exact I.
  - subst s. reflexivity.
  - destruct G as [-> _].
    destruct (fdiv_round ma mc ea ec) as (q & e' & l & s & -> & _ & _ & S).
    eapply round_good; eauto.
Qed.

Lemma fdiv_mono (mc : positive) (ec : Z) (a b : float) :
  good a -> good b -> SFleb a b = true ->
  SFleb (SFdiv prec emax a (S754_finite false mc ec))
        (SFdiv prec emax b (S754_finite false mc ec)) = true.
Proof.
  intros Ga Gb Hle.
  pose proof (fdiv_good mc ec a Ga) as Ga'.
  pose proof (fdiv_good mc ec b Gb) as Gb'.
  destruct a as [s|s| |s ma ea]; simpl in Ga; try contradiction.
  - apply leb_zero_good. exact Gb'.
  - subst s. destruct b as [t|t| |t mb eb]; simpl in Gb; try contradiction;
      try discriminate. subst t. reflexivity.
  - destruct Ga as [-> Va].
    destruct b as [t|t| |t mb eb]; simpl in Gb; try contradiction; try discriminate.
    + subst t. apply leb_good_inf. exact Ga'.
    + destruct Gb as [-> Vb].
      destruct (fdiv_round ma mc ea ec) as (qa & e'a & la & sa & -> & Hsa & Ea & Sa).
      destruct (fdiv_round mb mc eb ec) as (qb & e'b & lb & sb & -> & Hsb & Eb & Sb).
      eapply round_mono; eauto.
      pose proof (leb_value _ _ _ _ Va Vb Hle) as Hq.
      set (B := Z.min e'a e'b).
      apply (qle_scaled B); [unfold B; lia|unfold B; lia|].
      apply (qle_scaled (B + ec)) in Hq; [|unfold B; lia|unfold B; lia].
      replace (2 * (Z.pos ma * 2 ^ sa)) with (2 * Z.pos ma * 2 ^ sa) by ring.
      replace (2 * (Z.pos mb * 2 ^ sb)) with (2 * Z.pos mb * 2 ^ sb) by ring.
      subst e'a e'b.
      rewrite (scaled_shift B (2 * Z.pos ma) (ea - ec) sa) by (unfold B; lia).
      rewrite (scaled_shift B (2 * Z.pos mb) (eb - ec) sb) by (unfold B; lia).
      unfold scaled in *.
      replace (ea - ec - B) with (ea - (B + ec)) by lia.
      replace (eb - ec - B) with (eb - (B + ec)) by lia.
      apply Z.mul_le_mono_nonneg_r; lia.
Qed.

(** ** Sums and integers: [binary_round] *)

Lemma iter_xO_pow (m d : positive) : Z.pos (Pos.iter xO m d) = Z.pos m * 2 ^ Z.pos d.
Proof.
  induction d as [|d IH] using Pos.peano_ind.
  - simpl. lia.
  - rewrite Pos.iter_succ, Pos2Z.inj_succ, Z.pow_succ_r by lia.
    rewrite Pos2Z.inj_xO, IH. ring.
Qed.

Lemma shl_align_spec (m : positive) (e e' : Z) :
  snd (shl_align m e e') = Z.min e e' /\
  Z.pos (fst (shl_align m e e')) = Z.pos m * 2 ^ (e - Z.min e e').
Proof.
  unfold shl_align. destruct (e' - e) as [|d|d] eqn:E; simpl fst; simpl snd.
  - rewrite Z.min_l, Z.sub_diag by lia. simpl. lia.
  - rewrite Z.min_l, Z.sub_diag by lia. simpl. lia.
  - rewrite Z.min_r by lia. rewrite iter_xO_pow. split; [reflexivity|].
    do 2 f_equal. lia.
Qed.

Lemma Zdigits2_shift (M k : Z) :
  0 < M -> 0 <= k -> Zdigits2 (M * 2 ^ k) = Zdigits2 M + k.
Proof.
  intros HM Hk. destruct (Zdigits2_bounds M HM) as [Hd [Hlo Hhi]].
  assert (Hp : 0 < 2 ^ k) by (apply Z.pow_pos_nonneg; lia).
  apply Z.le_antisymm.
  - apply Zdigits2_le; [lia|]. rewrite Z.pow_add_r by lia. nia.
  - replace (Zdigits2 M + k) with ((Zdigits2 M - 1 + k) + 1) by lia.
    apply Zdigits2_ge; [lia|]. rewrite Z.pow_add_r by lia. nia.
Qed.

Lemma binary_round_stands (M : positive) (e : Z) :
  exists M' e',
    binary_round prec emax false M e =
      binary_round_aux prec emax false (Z.pos M') e' loc_Exact /\
    e' <= e /\ Z.pos M' = Z.pos M * 2 ^ (e - e') /\ fine (Z.pos M') e'.
Proof.
  unfold binary_round.
  set (t := fexp (Z.pos (digits2_pos M) + e)).
  destruct (shl_align_spec M e t) as [He HM].
  destruct (shl_align M e t) as [M' e'] eqn:E. cbn [fst snd] in He, HM. subst e'.
  exists M', (Z.min e t). split; [reflexivity|]. split; [lia|]. split; [exact HM|].
  unfold fine. rewrite HM, Zdigits2_shift by lia.
  change (Zdigits2 (Z.pos M)) with (Z.pos (digits2_pos M)).
  replace (Z.pos (digits2_pos M) + (e - Z.min e t) + Z.min e t)
    with (Z.pos (digits2_pos M) + e) by lia.
  fold t. lia.
Qed.

(** A sum of two positive floats is the rounding of the exact sum. *)
Lemma fadd_round (mx mt : positive) (ex et : Z) :
  exists M' e',
    SFadd prec emax (S754_finite false mx ex) (S754_finite false mt et) =
      binary_round_aux prec emax false (Z.pos M') e' loc_Exact /\
    stands_for (Z.pos M') e' loc_Exact (2 * Z.pos M') 1 /\
    e' <= Z.min ex et /\
    forall B, B <= e' ->
      scaled B (Z.pos M') e' = scaled B (Z.pos mx) ex + scaled B (Z.pos mt) et.
Proof.
  unfold SFadd. cbv zeta. set (ez := Z.min ex et).
  destruct (shl_align_spec mx ex ez) as [_ Hx].
  destruct (shl_align_spec mt et ez) as [_ Ht].
  rewrite Z.min_r in Hx, Ht by (unfold ez; lia).
  set (x' := fst (shl_align mx ex ez)) in *. set (t' := fst (shl_align mt et ez)) in *.
  unfold cond_Zopp. change (Z.pos x' + Z.pos t') with (Z.pos (x' + t')).
  unfold binary_normalize.
  destruct (binary_round_stands (x' + t') ez) as (M' & e' & -> & He & HM & Hf).
  exists M', e'. split; [reflexivity|]. split; [apply stands_exact; [lia|assumption]|].
  split; [assumption|]. intros B HB.
  rewrite HM, Pos2Z.inj_add, Hx, Ht. unfold scaled.
  assert (E1 : ex - B = (ex - ez) + (ez - e') + (e' - B)) by lia.
  assert (E2 : et - B = (et - ez) + (ez - e') + (e' - B)) by lia.
  rewrite E1, E2. rewrite !Z.pow_add_r by (unfold ez in *; lia). ring.
Qed.

Lemma leb_refl_good (f : float) : good f -> SFleb f f = true.
Proof.
  destruct f as [s|s| |s m e]; simpl; intros H; try reflexivity; try contradiction.
  - now subst s.
  - destruct H as [-> _]. apply leb_finite. right. split; [reflexivity|lia].
Qed.

Lemma fadd_good (a t : float) : good a -> good t -> good (SFadd prec emax a t).
Proof.
  intros Ga Gt.
  destruct a as [sa|sa| |sa ma ea]; simpl in Ga; try contradiction.
  - destruct t as [st|st| |st mt et]; simpl in Gt; try contradiction.
    + destruct sa, st; exact I.
    + subst st. reflexivity.
    + exact Gt.
  - subst sa. destruct t as [st|st| |st mt et]; simpl in Gt; try contradiction.
    + reflexivity.
    + subst st. reflexivity.
    + reflexivity.
  - destruct Ga as [-> Va].
    destruct t as [st|st| |st mt et]; simpl in Gt; try contradiction.
    + split; [reflexivity|exact Va].
    + subst st. reflexivity.
    + destruct Gt as [-> Vt].
      destruct (fadd_round ma mt ea et) as (M' & e' & -> & S & _).
      eapply round_good; eauto.
Qed.

Lemma fadd_zero_r (a : float) (s : bool) :
  good a -> SFadd prec emax a (S754_zero s) = a \/
            exists s1 s2, a = S754_zero s1 /\ SFadd prec emax a (S754_zero s) = S754_zero s2.
Proof.
  intros Ga. destruct a as [sa|sa| |sa ma ea]; simpl in Ga; try contradiction.
  - right. exists sa. destruct sa, s; simpl; eauto.
  - now left.
  - now left.
Qed.

Lemma leb_zero_l (s1 s2 : bool) (f : float) : SFleb (S754_zero s1) f = SFleb (S754_zero s2) f.
Proof. now destruct f. Qed.

Lemma leb_zero_r (s1 s2 : bool) (f : float) : SFleb f (S754_zero s1) = SFleb f (S754_zero s2).
Proof. now destruct f. Qed.

Lemma fadd_inf_r (a : float) : good a -> SFadd prec emax a (S754_infinity false) = S754_infinity false.
Proof.
  intros Ga. destruct a as [sa|sa| |sa ma ea]; simpl in Ga; try contradiction; try reflexivity.
  now subst sa.
Qed.

Lemma scaled_double (B m e : Z) : scaled B (2 * m) e = 2 * scaled B m e.
Proof. unfold scaled. ring. Qed.

Lemma fadd_mono (a b t : float) :
  good a -> good b -> good t -> SFleb a b = true ->
  SFleb (SFadd prec emax a t) (SFadd prec emax b t) = true.
Proof.
  intros Ga Gb Gt Hle.
  pose proof (fadd_good a t Ga Gt) as Ga'. pose proof (fadd_good b t Gb Gt) as Gb'.
  destruct t as [st|st| |st mt et]; simpl in Gt; try contradiction.
  - destruct (fadd_zero_r a st Ga) as [->|(s1 & s2 & -> & ->)];
      destruct (fadd_zero_r b st Gb) as [->|(s3 & s4 & -> & ->)].
    + exact Hle.
    + now rewrite (leb_zero_r s4 s3).
    + now rewrite (leb_zero_l s2 s1).
    + reflexivity.
  - subst st. now rewrite !fadd_inf_r.
  - destruct Gt as [-> Vt].
    destruct a as [sa|sa| |sa ma ea]; simpl in Ga; try contradiction.
    + destruct b as [sb|sb| |sb mb eb]; simpl in Gb; try contradiction.
      * apply (leb_refl_good (S754_finite false mt et)). simpl. auto.
      * subst sb. reflexivity.
      * destruct Gb as [-> Vb].
        change (SFleb (S754_finite false mt et)
                  (SFadd prec emax (S754_finite false mb eb) (S754_finite false mt et)) = true).
        destruct (round_id mt et Vt) as [Et St]. rewrite <- Et at 1.
        destruct (fadd_round mb mt eb et) as (M' & e' & -> & S & He & Hval).
        eapply round_mono; eauto.
        apply (qle_scaled e'); [lia|lia|]. rewrite !Z.mul_1_r, !scaled_double.
        rewrite Hval by lia.
        pose proof (scaled_pos e' (Z.pos mb) eb ltac:(lia) ltac:(lia)). lia.
    + subst sa. destruct b as [sb|sb| |sb mb eb]; simpl in Gb; try contradiction;
        try discriminate. subst sb. reflexivity.
    + destruct Ga as [-> Va].
      destruct b as [sb|sb| |sb mb eb]; simpl in Gb; try contradiction; try discriminate.
      * subst sb. apply leb_good_inf. exact Ga'.
      * destruct Gb as [-> Vb].
        pose proof (leb_value _ _ _ _ Va Vb Hle) as Hq.
        destruct (fadd_round ma mt ea et) as (Ma & e'a & -> & Sa & Hea & Hva).
        destruct (fadd_round mb mt eb et) as (Mb & e'b & -> & Sb & Heb & Hvb).
        eapply round_mono; eauto.
        set (B := Z.min e'a e'b).
        apply (qle_scaled B); [unfold B; lia|unfold B; lia|].
        apply (qle_scaled B) in Hq; [|unfold B; lia|unfold B; lia].
        rewrite !Z.mul_1_r, !scaled_double in *.
        rewrite Hva, Hvb by (unfold B; lia). lia.
Qed.

(** ** Comparison of canonical floats, and [min] *)

Lemma leb_finite_iff (m1 m2 : positive) (e1 e2 : Z) :
  SFleb (S754_finite false m1 e1) (S754_finite false m2 e2) = true <->
  e1 < e2 \/ (e1 = e2 /\ Z.pos m1 <= Z.pos m2).
Proof.
  split; [|apply leb_finite].
  unfold SFleb, SFcompare. destruct (Z.compare_spec e1 e2) as [->|H|H].
  - change (PosDef.Pos.compare_cont Eq m1 m2) with (Pos.compare m1 m2).
    destruct (Pos.compare_spec m1 m2); intros; try discriminate; right; split; lia.
  - intros _. now left.
  - discriminate.
Qed.

Lemma ltb_finite_iff (m1 m2 : positive) (e1 e2 : Z) :
  SFltb (S754_finite false m1 e1) (S754_finite false m2 e2) = true <->
  e1 < e2 \/ (e1 = e2 /\ Z.pos m1 < Z.pos m2).
Proof.
  unfold SFltb, SFcompare. destruct (Z.compare_spec e1 e2) as [->|H|H].
  - change (PosDef.Pos.compare_cont Eq m1 m2) with (Pos.compare m1 m2).
    destruct (Pos.compare_spec m1 m2); split; intros; try discriminate; try reflexivity; lia.
  - split; [now left|reflexivity].
  - split; [discriminate|lia].
Qed.

Lemma ltb_leb (a b : float) : SFltb a b = true -> SFleb a b = true.
Proof. unfold SFltb, SFleb. now destruct (SFcompare a b) as [[| |]|]. Qed.

Lemma leb_ltb_trans (a b : float) (mc : positive) (ec : Z) :
  good a -> good b -> SFleb a b = true ->
  SFltb b (S754_finite false mc ec) = true -> SFltb a (S754_finite false mc ec) = true.
Proof.
  intros Ga Gb Hab Hbc.
  destruct a as [sa|sa| |sa ma ea]; simpl in Ga; try contradiction.
  - reflexivity.
  - subst sa. destruct b as [sb|sb| |sb mb eb]; simpl in Gb; try contradiction;
      try discriminate. subst sb. discriminate.
  - destruct Ga as [-> _].
    destruct b as [sb|sb| |sb mb eb]; simpl in Gb; try contradiction; try discriminate.
    + subst sb. discriminate.
    + destruct Gb as [-> _]. apply leb_finite_iff in Hab. apply ltb_finite_iff in Hbc.
      apply ltb_finite_iff. lia.
Qed.

Lemma pymin_good (mc : positive) (ec : Z) (x : float) :
  good (S754_finite false mc ec) -> good x -> good (pymin (S754_finite false mc ec) x).
Proof. intros Gc Gx. unfold pymin. now destruct (fltb _ _). Qed.

Lemma pymin_mono (mc : positive) (ec : Z) (x1 x2 : float) :
  good x1 -> good x2 -> SFleb x1 x2 = true ->
  SFleb (pymin (S754_finite false mc ec) x1) (pymin (S754_finite false mc ec) x2) = true.
Proof.
  intros G1 G2 Hle. unfold pymin, fltb.
  destruct (SFltb x1 _) eqn:L1; destruct (SFltb x2 _) eqn:L2.
  - exact Hle.
  - now apply ltb_leb.
  - rewrite (leb_ltb_trans x1 x2 mc ec G1 G2 Hle L2) in L1. discriminate.
  - apply leb_finite. right. split; [reflexivity|lia].
Qed.

(** ** Integers *)

Lemma float_of_Z_round (p : positive) :
  exists M' e',
    float_of_Z (Z.pos p) = binary_round_aux prec emax false (Z.pos M') e' loc_Exact /\
    stands_for (Z.pos M') e' loc_Exact (2 * Z.pos M') 1 /\
    e' <= 0 /\
    forall B, B <= e' -> scaled B (Z.pos M') e' = scaled B (Z.pos p) 0.
Proof.
  unfold float_of_Z, binary_normalize.
  destruct (binary_round_stands p 0) as (M' & e' & -> & He & HM & Hf).
  exists M', e'. split; [reflexivity|]. split; [apply stands_exact; [lia|assumption]|].
  split; [assumption|]. intros B HB. rewrite HM. unfold scaled.
  replace (0 - B) with ((0 - e') + (e' - B)) by lia.
  rewrite Z.pow_add_r by lia. ring.
Qed.

Lemma float_of_Z_good (z : Z) : 0 <= z -> good (float_of_Z z).
Proof.
  intros Hz. destruct z as [|p|p]; [exact I| |lia].
  destruct (float_of_Z_round p) as (M' & e' & -> & S & _). eapply round_good; eauto.
Qed.

Lemma float_of_Z_mono (z1 z2 : Z) :
  0 <= z1 <= z2 -> SFleb (float_of_Z z1) (float_of_Z z2) = true.
Proof.
  intros Hz. destruct z1 as [|p1|p1]; [apply leb_zero_good, float_of_Z_good; lia| |lia].
  destruct z2 as [|p2|p2]; try lia.
  destruct (float_of_Z_round p1) as (M1 & e1 & -> & S1 & He1 & Hv1).
  destruct (float_of_Z_round p2) as (M2 & e2 & -> & S2 & He2 & Hv2).
  eapply round_mono; eauto.
  set (B := Z.min e1 e2).
  apply (qle_scaled B); [unfold B; lia|unfold B; lia|].
  rewrite !Z.mul_1_r, !scaled_double, Hv1, Hv2 by (unfold B; lia).
  unfold scaled. assert (0 < 2 ^ (0 - B)) by (apply Z.pow_pos_nonneg; unfold B; lia). nia.
Qed.

(** ** The scorer is monotone in the amount *)

Lemma score_of_good (h : Z) (a : float) : 0 <= h -> good a -> good (score_of h a).
Proof.
  intros Hh Ga. unfold score_of. cbv zeta. apply pymin_good.
  - split; reflexivity.
  - apply fadd_good.
    + apply fmul_good; [vm_compute; discriminate|]. now apply fdiv_good.
    + apply fmul_good; [vm_compute; discriminate|]. apply fdiv_good. now apply float_of_Z_good.
Qed.

Lemma score_of_mono (h : Z) (a1 a2 : float) :
  0 <= h -> good a1 -> good a2 -> SFleb a1 a2 = true ->
  SFleb (score_of h a1) (score_of h a2) = true.
Proof.
  intros Hh G1 G2 Hle. unfold score_of. cbv zeta. apply pymin_mono.
  - apply fadd_good.
    + apply fmul_good; [vm_compute; discriminate|]. now apply fdiv_good.
    + apply fmul_good; [vm_compute; discriminate|]. apply fdiv_good. now apply float_of_Z_good.
  - apply fadd_good.
    + apply fmul_good; [vm_compute; discriminate|]. now apply fdiv_good.
    + apply fmul_good; [vm_compute; discriminate|]. apply fdiv_good. now apply float_of_Z_good.
  - apply fadd_mono.
    + apply fmul_good; [vm_compute; discriminate|]. now apply fdiv_good.
    + apply fmul_good; [vm_compute; discriminate|]. now apply fdiv_good.
    + apply fmul_good; [vm_compute; discriminate|]. apply fdiv_good. now apply float_of_Z_good.
    + apply fmul_mono; [vm_compute; discriminate| | |].
      * now apply fdiv_good.
      * now apply fdiv_good.
      * now apply fdiv_mono.
Qed.

(* ================================================================== *)
(** * Amounts: conversion and order *)

Lemma int_converts (z : Z) :
  0 <= z < 2 ^ 1024 - 2 ^ 970 ->
  int_to_float z = inr (float_of_Z z) /\ good (float_of_Z z).
Proof.
  intros Hz. pose proof (float_of_Z_good z ltac:(lia)) as G.
  pose proof (float_of_Z_mono z (2 ^ 1024 - 2 ^ 970 - 1) ltac:(lia)) as Hle.
  replace (float_of_Z (2 ^ 1024 - 2 ^ 970 - 1))
    with (S754_finite false 9007199254740991 971) in Hle by (vm_compute; reflexivity).
  unfold int_to_float.
  destruct (float_of_Z z) as [s|s| |s m e]; simpl in G; try contradiction; auto.
  subst s. discriminate.
Qed.

Lemma int_overflows (z : Z) :
  2 ^ 1024 - 2 ^ 970 <= z -> int_to_float z = inl OverflowError.
Proof.
  intros Hz. pose proof (float_of_Z_good z ltac:(lia)) as G.
  pose proof (float_of_Z_mono (2 ^ 1024 - 2 ^ 970) z ltac:(lia)) as Hle.
  replace (float_of_Z (2 ^ 1024 - 2 ^ 970))
    with (S754_infinity false) in Hle by (vm_compute; reflexivity).
  unfold int_to_float.
  destruct (float_of_Z z) as [s|s| |s m e]; simpl in G; try contradiction;
    try discriminate; reflexivity.
Qed.

Lemma float_of_Z_rounds (z : Z) : 0 <= z -> rounds_to (Dyadic z 0) (float_of_Z z).
Proof.
  intros Hz. destruct z as [|p|p]; [left; split; [reflexivity|now exists false]| |lia].
  right. split; [lia|]. destruct (float_of_Z_round p) as (M' & e' & E & S & He & Hv).
  exists M', e'. auto.
Qed.

Lemma as_float_rounds (a : pyval) :
  amount_ge_0 a -> amount_converts a ->
  exists f v, as_float a = inr f /\ good f /\ amount_value a = Some v /\ rounds_to v f.
Proof.
  intros Hge Hc. destruct a as [|b|z|g|s|l|d']; simpl in Hge, Hc; try contradiction.
  - set (z := if b then 1 else 0).
    assert (Hz : 0 <= z < 2 ^ 1024 - 2 ^ 970) by (destruct b; unfold z; split; reflexivity || lia).
    destruct (int_converts z Hz) as [E G].
    exists (float_of_Z z), (Dyadic z 0). repeat split; auto. apply float_of_Z_rounds; lia.
  - destruct (int_converts z ltac:(lia)) as [E G].
    exists (float_of_Z z), (Dyadic z 0). repeat split; auto. apply float_of_Z_rounds; lia.
  - destruct g as [s|s| |s m e]; try discriminate.
    + exists (S754_zero s), (Dyadic 0 0). repeat split. left. split; [reflexivity|now exists s].
    + destruct s; [discriminate|].
      exists (S754_infinity false), (Infinite false). repeat split.
    + destruct s; [discriminate|].
      exists (S754_finite false m e), (Dyadic (Z.pos m) e).
      destruct (round_id m e Hc) as [Er S]. repeat split; auto.
      right. split; [lia|]. exists m, e. repeat split; auto; try lia; apply S.
Qed.

Lemma rounds_to_mono (v1 v2 : exact) (f1 f2 : float) :
  rounds_to v1 f1 -> rounds_to v2 f2 -> good f1 -> good f2 -> exact_le v1 v2 ->
  SFleb f1 f2 = true.
Proof.
  intros R1 R2 G1 G2 Hle.
  destruct v2 as [N2 e2|s2]; cbn [rounds_to] in R2.
  2:{ destruct R2 as [_ ->]. now apply leb_good_inf. }
  destruct v1 as [N1 e1|s1]; cbn [rounds_to] in R1.
  2:{ destruct R1 as [-> _]. contradiction. }
  destruct R1 as [[-> [s ->]]|[H1 (M1 & e1' & -> & S1 & He1 & Hv1)]].
  { now apply leb_zero_good. }
  cbn [exact_le] in Hle.
  destruct R2 as [[-> [s ->]]|[H2 (M2 & e2' & -> & S2 & He2 & Hv2)]].
  { exfalso. unfold qle in Hle.
    assert (0 < 2 ^ (e1 - Z.min e1 e2)) by (apply Z.pow_pos_nonneg; lia). nia. }
  eapply round_mono; eauto.
  set (B := Z.min e1' e2').
  apply (qle_scaled B); [unfold B; lia|unfold B; lia|].
  apply (qle_scaled B) in Hle; [|unfold B; lia|unfold B; lia].
  rewrite !Z.mul_1_r, !scaled_double, Hv1, Hv2 by (unfold B; lia). lia.
Qed.

Lemma as_float_mono (a1 a2 : pyval) :
  amount_ge_0 a1 -> amount_ge_0 a2 -> amount_converts a1 -> amount_converts a2 ->
  amount_le a1 a2 ->
  exists f1 f2, as_float a1 = inr f1 /\ as_float a2 = inr f2 /\
                good f1 /\ good f2 /\ fleb f1 f2 = true.
Proof.
  intros P1 P2 C1 C2 Hle.
  destruct (as_float_rounds a1 P1 C1) as (f1 & v1 & E1 & G1 & V1 & R1).
  destruct (as_float_rounds a2 P2 C2) as (f2 & v2 & E2 & G2 & V2 & R2).
  exists f1, f2. repeat split; auto.
  unfold amount_le in Hle. rewrite V1, V2 in Hle.
  eapply rounds_to_mono; eauto.
Qed.

(* ================================================================== *)
(** * The scorer: the claims *)

(** C9.  The score depends only on [card_hash] and [amount]: two
    transactions that agree on these two fields, whatever their other
    fields, get the same result of [score] (the same value, or the same
    exception). *)
Theorem score_depends_only_on_card_hash_and_amount (d1 d2 : dict) :
  dict_get (str "card_hash") d1 = dict_get (str "card_hash") d2 ->
  dict_get (str "amount") d1 = dict_get (str "amount") d2 ->
  score (VDict d1) = score (VDict d2).
Proof.
  intros Hc Ha. unfold score, subscript. now rewrite Hc, Ha.
Qed.

Lemma score_depends_only_on_card_hash_and_amount_witness :
  score (mk_tx "t1" "m1" "abc" "2024-05-01T10:00:00" (VInt 700)) =
  score (VDict [(str "ts", VNone); (str "card_hash", VStr (str "abc"));
                (str "note", VList [VInt 1]); (str "amount", VInt 700)]).
Proof.
  apply score_depends_only_on_card_hash_and_amount; reflexivity.
Defined.

(** C5, as the code has it.  For a transaction whose [card_hash] is a
    string that encodes to UTF-8 and whose [amount] is not below zero,
    [score] returns a value in [0, 1] when the amount is a float (infinity
    included), a bool, or an int below 2^1024 - 2^970; on an int from
    2^1024 - 2^970 on, the division by [500.0] raises [OverflowError]. *)
Theorem score_in_unit_interval (d : dict) (card : pystr) (a : pyval) :
  dict_get (str "card_hash") d = Some (VStr card) ->
  encodable card ->
  dict_get (str "amount") d = Some a ->
  amount_ge_0 a ->
  ((forall z, a = VInt z -> z < 2 ^ 1024 - 2 ^ 970) ->
   exists s, score (VDict d) = inr s /\
             fleb f_zero s = true /\ fleb s f_1_0 = true) /\
  (forall z, a = VInt z -> 2 ^ 1024 - 2 ^ 970 <= z ->
             score (VDict d) = inl OverflowError).
Proof.
  intros Hc He Ha Hge. unfold score, subscript. rewrite Hc, Ha. simpl.
  destruct (encode_total card He) as [bytes ->].
  set (h := int16 _ mod 100).
  assert (Hh : 0 <= h < 100) by (apply Z.mod_pos_bound; lia).
  split.
  - intros Hz.
    assert (Ef : exists f, as_float a = inr f).
    { destruct a as [|b|z|g|s|l|d']; simpl in Hge; try contradiction.
      - destruct b; vm_compute; eauto.
      - simpl. destruct (int_converts z) as [-> _]; eauto.
      - simpl. eauto. }
    destruct Ef as [f Ef]. rewrite Ef. exists (score_of h f). split; [reflexivity|].
    apply score_of_bounds; [lia|]. eapply as_float_not_negative; eauto.
  - intros z -> Hz. simpl. now rewrite int_overflows.
Qed.

Lemma score_in_unit_interval_witness :
  exists s, score (mk_tx "t1" "m1" "abc" "2024-05-01T10:00:00" (VInt 500)) = inr s /\
            fleb f_zero s = true /\ fleb s f_1_0 = true.
Proof.
  apply (score_in_unit_interval
           [(str "txn_id", VStr (str "t1")); (str "amount", VInt 500);
            (str "merchant_id", VStr (str "m1")); (str "card_hash", VStr (str "abc"));
            (str "ts", VStr (str "2024-05-01T10:00:00"))]
           (str "abc") (VInt 500)).
  - reflexivity.
  - repeat constructor; vm_compute; intuition discriminate.
  - reflexivity.
  - simpl. lia.
  - intros z [= <-]. reflexivity.
Defined.

(** C5 as stated fails: an [amount] of 10^400 is a JSON number not below
    zero, and [score] raises [OverflowError] on it; a [card_hash] that is a
    lone surrogate is a string, and [score] raises [UnicodeEncodeError]. *)
Lemma score_raises_on_well_formed_input :
  amount_ge_0 (VInt (10 ^ 400)) /\
  score (mk_tx "t1" "m1" "abc" "2024-05-01T10:00:00" (VInt (10 ^ 400)))
    = inl OverflowError /\
  score (VDict [(str "card_hash", VStr [0xD800]); (str "amount", VInt 10)])
    = inl UnicodeEncodeError.
Proof. split; [simpl; lia|]. split; vm_compute; reflexivity. Qed.




(** The order of amounts is the order of the ints on ints and the order
    [<=] of the floats on floats. *)
Lemma amount_le_ints (z1 z2 : Z) : amount_le (VInt z1) (VInt z2) <-> z1 <= z2.
Proof.
  unfold amount_le, amount_value, exact_le, qle.
  rewrite Z.min_id, Z.sub_diag, Z.pow_0_r. lia.
Qed.

Lemma amount_le_floats (f1 f2 : float) :
  good f1 -> good f2 -> (amount_le (VFloat f1) (VFloat f2) <-> fleb f1 f2 = true).
Proof.
  intros G1 G2.
  assert (Hpow : forall x, 0 <= x -> 0 < 2 ^ x) by (intros; apply Z.pow_pos_nonneg; lia).
  unfold amount_le, amount_value.
  destruct f1 as [s1|s1| |s1 m1 e1]; simpl in G1; try contradiction;
    destruct f2 as [s2|s2| |s2 m2 e2]; simpl in G2; try contradiction;
    repeat match goal with
           | H : _ /\ _ |- _ => destruct H
           | H : ?s = false |- _ => is_var s; subst s
           end;
    cbn [exact_of_float exact_le cond_Zopp].
  - split; [reflexivity|]. intros _. unfold qle. lia.
  - split; [reflexivity|easy].
  - split; [reflexivity|]. intros _. unfold qle.
    pose proof (Hpow (e2 - Z.min 0 e2) ltac:(lia)). nia.
  - split; [contradiction|discriminate].
  - split; [reflexivity|easy].
  - split; [contradiction|discriminate].
  - split; [|discriminate]. unfold qle. intros H.
    pose proof (Hpow (e1 - Z.min e1 0) ltac:(lia)). nia.
  - split; [reflexivity|easy].
  - split.
    + intros H. destruct (round_id m1 e1) as [<- S1]; [assumption|].
      destruct (round_id m2 e2) as [<- S2]; [assumption|].
      eapply round_mono; eauto. unfold qle in *. lia.
    + intros H. apply leb_value in H; auto. unfold qle in *. lia.
Qed.

Lemma amount_le_ge_0 (a1 a2 : pyval) :
  amount_ge_0 a1 -> amount_le a1 a2 -> amount_ge_0 a2.
Proof.
  intros P1 Hle. unfold amount_le in Hle.
  assert (V1 : exists v1, amount_value a1 = Some v1 /\
                          match v1 with Dyadic N _ => 0 <= N | Infinite s => s = false end).
  { destruct a1 as [|b|z|g|s|l|d']; simpl in P1; try contradiction.
    - exists (Dyadic (if b then 1 else 0) 0). split; [reflexivity|destruct b; lia].
    - exists (Dyadic z 0). auto.
    - destruct g as [s|s| |s m e]; try discriminate.
      + exists (Dyadic 0 0). split; [reflexivity|lia].
      + destruct s; [discriminate|]. exists (Infinite false). now split.
      + destruct s; [discriminate|]. exists (Dyadic (Z.pos m) e). split; [reflexivity|lia]. }
  destruct V1 as (v1 & E1 & H1). rewrite E1 in Hle.
  assert (Hpow : forall x, 0 <= x -> 0 < 2 ^ x) by (intros; apply Z.pow_pos_nonneg; lia).
  destruct a2 as [|b|z|g|s|l|d']; simpl in Hle |- *; try contradiction; auto.
  - destruct v1 as [N1 e1|[]]; [|discriminate H1|contradiction].
    cbn [exact_le] in Hle. unfold qle in Hle.
    pose proof (Hpow (e1 - Z.min e1 0) ltac:(lia)). pose proof (Hpow (0 - Z.min e1 0) ltac:(lia)).
    nia.
  - destruct g as [s|s| |s m e]; cbn [exact_of_float] in Hle; try contradiction.
    + reflexivity.
    + destruct s; [|reflexivity].
      destruct v1 as [N1 e1|[]]; [contradiction|discriminate H1|contradiction].
    + destruct s; [|reflexivity].
      destruct v1 as [N1 e1|[]]; [|discriminate H1|contradiction].
      cbn [exact_le cond_Zopp] in Hle. unfold qle in Hle. exfalso.
      pose proof (Hpow (e1 - Z.min e1 e) ltac:(lia)). pose proof (Hpow (e - Z.min e1 e) ltac:(lia)).
      change (Z.opp (Z.pos m)) with (- Z.pos m) in Hle. nia.
Qed.

(** C10, as the code has it.  For two transactions with the same
    [card_hash] (a string that encodes to UTF-8) whose amounts are not
    below zero and convert to a float (binary64 floats, infinity included,
    bools, ints below 2^1024 - 2^970): if the first amount is less than or
    equal to the second, both scores are returned and the first is less
    than or equal to the second. *)
Theorem score_is_monotone_in_amount (d1 d2 : dict) (card : pystr) (a1 a2 : pyval) :
  dict_get (str "card_hash") d1 = Some (VStr card) ->
  dict_get (str "card_hash") d2 = Some (VStr card) ->
  encodable card ->
  dict_get (str "amount") d1 = Some a1 ->
  dict_get (str "amount") d2 = Some a2 ->
  amount_ge_0 a1 ->
  amount_converts a1 -> amount_converts a2 ->
  amount_le a1 a2 ->
  exists s1 s2, score (VDict d1) = inr s1 /\ score (VDict d2) = inr s2 /\
                fleb s1 s2 = true.
Proof.
  intros Hc1 Hc2 He Ha1 Ha2 P1 C1 C2 Hle.
  pose proof (amount_le_ge_0 a1 a2 P1 Hle) as P2.
  destruct (as_float_mono a1 a2 P1 P2 C1 C2 Hle) as (f1 & f2 & E1 & E2 & G1 & G2 & L).
  unfold score, subscript. rewrite Hc1, Hc2, Ha1, Ha2. simpl.
  destruct (encode_total card He) as [bytes ->].
  set (h := int16 _ mod 100).
  assert (Hh : 0 <= h < 100) by (apply Z.mod_pos_bound; lia).
  rewrite E1, E2. exists (score_of h f1), (score_of h f2).
  split; [reflexivity|]. split; [reflexivity|].
  apply score_of_mono; auto; lia.
Qed.

Lemma score_is_monotone_in_amount_witness :
  exists s1 s2,
    score (VDict [(str "card_hash", VStr (str "abc")); (str "amount", VInt 100)]) = inr s1 /\
    score (VDict [(str "amount", VFloat (S754_finite false 8813685208252416 (-45)));
                  (str "card_hash", VStr (str "abc"))]) = inr s2 /\
    fleb s1 s2 = true.
Proof.
  apply (score_is_monotone_in_amount _ _ (str "abc") (VInt 100)
           (VFloat (S754_finite false 8813685208252416 (-45)))).
  - reflexivity.
  - reflexivity.
  - repeat constructor; vm_compute; intuition discriminate.
  - reflexivity.
  - reflexivity.
  - simpl. lia.
  - simpl. lia.
  - reflexivity.
  - vm_compute. discriminate.
Defined.

(** C10 as stated fails: 1 and 10^400 are amounts not below zero, the first
    less than the second, and with the same card the first transaction has a
    score while [score] raises [OverflowError] on the second, so there are
    no two scores to compare. *)
Lemma score_of_the_larger_amount_raises :
  let tx a := mk_tx "t1" "m1" "abc" "2024-05-01T10:00:00" (VInt a) in
  amount_ge_0 (VInt 1) /\ amount_ge_0 (VInt (10 ^ 400)) /\
  amount_le (VInt 1) (VInt (10 ^ 400)) /\
  (exists s1, score (tx 1) = inr s1) /\
  score (tx (10 ^ 400)) = inl OverflowError /\
  ~ (exists s1 s2, score (tx 1) = inr s1 /\ score (tx (10 ^ 400)) = inr s2 /\
                   fleb s1 s2 = true).
Proof.
  cbv zeta.
  assert (E : score (mk_tx "t1" "m1" "abc" "2024-05-01T10:00:00" (VInt (10 ^ 400)))
              = inl OverflowError) by (vm_compute; reflexivity).
  split; [simpl; lia|]. split; [simpl; lia|].
  split; [vm_compute; discriminate|].
  split; [eexists; vm_compute; reflexivity|].
  split; [exact E|]. intros (s1 & s2 & _ & H & _). rewrite E in H. discriminate.
Qed.

(* ================================================================== *)
(** * The trace only grows *)

Lemma events_since_app (w w' : world) (evs : list event) :
  trace w' = trace w ++ evs -> events_since w w' = evs.
Proof.
  unfold events_since. intros ->.
  rewrite skipn_app, skipn_all, Nat.sub_diag. reflexivity.
Qed.

Definition extends (w w' : world) : Prop := exists evs, trace w' = trace w ++ evs.

Lemma extends_refl (w : world) : extends w w.
Proof. exists []. now rewrite app_nil_r. Qed.

Lemma extends_trans (w1 w2 w3 : world) : extends w1 w2 -> extends w2 w3 -> extends w1 w3.
Proof.
  intros [a Ha] [b Hb]. exists (a ++ b). now rewrite Hb, Ha, app_assoc.
Qed.

Lemma events_since_trans (w1 w2 w3 : world) :
  extends w1 w2 -> extends w2 w3 ->
  events_since w1 w3 = events_since w1 w2 ++ events_since w2 w3.
Proof.
  intros [a Ha] [b Hb].
  rewrite (events_since_app w1 w2 a Ha), (events_since_app w2 w3 b Hb).
  apply events_since_app. now rewrite Hb, Ha, app_assoc.
Qed.

(* ================================================================== *)
(** * The idle heartbeat *)

Section Heartbeat.
Context {R : Runtime}.

Lemma iteration_empty (st : loop_state) (r : response) :
  messages_of r = [] ->
  iteration st (RecvReturns r) =
  {| idle_ticks := idle_ticks st + 1;
     env := if (idle_ticks st + 1) mod 10 =? 0
            then print LogIdle (emit (ReceiveMessage, None) (env st))
            else emit (ReceiveMessage, None) (env st) |}.
Proof. intros H. unfold iteration. now rewrite H. Qed.

Lemma cycle_events_empty (st : loop_state) (p : poll) :
  empty_poll p ->
  cycle_events st p =
    (ReceiveMessage, None) ::
    (if (idle_ticks st + 1) mod 10 =? 0 then [(Print LogIdle, None)] else []) /\
  idle_ticks (iteration st p) = idle_ticks st + 1 /\
  extends (env st) (env (iteration st p)).
Proof.
  intros [r [-> Hr]]. unfold cycle_events. rewrite (iteration_empty st r Hr). simpl.
  destruct ((idle_ticks st + 1) mod 10 =? 0); (split; [|split; [reflexivity|]]).
  - apply events_since_app. simpl. now rewrite <- app_assoc.
  - eexists. simpl. now rewrite <- app_assoc.
  - now apply events_since_app.
  - now eexists.
Qed.

Lemma consumer_loop_snoc (polls : list poll) (p : poll) (st : loop_state) :
  consumer_loop (polls ++ [p]) st = iteration (consumer_loop polls st) p.
Proof. unfold consumer_loop. now rewrite fold_left_app. Qed.

(** After [n] idle cycles from a counter at [i], the counter is at [i + n]
    and as many heartbeats were printed as there are multiples of 10 in
    [(i, i + n]]. *)
Lemma idle_run (polls : list poll) (st : loop_state) :
  0 <= idle_ticks st ->
  Forall empty_poll polls ->
  let st' := consumer_loop polls st in
  idle_ticks st' = idle_ticks st + Z.of_nat (length polls) /\
  extends (env st) (env st') /\
  Z.of_nat (heartbeats (events_since (env st) (env st'))) =
    (idle_ticks st + Z.of_nat (length polls)) / 10 - idle_ticks st / 10.
Proof.
  intros H0 Hall. induction polls as [|p polls IH] using rev_ind; cbv zeta.
  - simpl. split; [lia|]. split; [apply extends_refl|].
    unfold events_since. rewrite skipn_all. simpl. rewrite Z.add_0_r. lia.
  - apply Forall_app in Hall as [Hall Hp]. inversion Hp as [|? ? Hp' _]; subst.
    destruct (IH Hall) as [Hi [Hext Hcount]]. clear IH.
    rewrite consumer_loop_snoc. set (st1 := consumer_loop polls st) in *.
    destruct (cycle_events_empty st1 p Hp') as [Hev [Hi' Hext']].
    rewrite length_app. simpl length.
    split; [lia|]. split; [eapply extends_trans; eauto|].
    rewrite (events_since_trans _ _ _ Hext Hext'). fold (cycle_events st1 p).
    unfold heartbeats in *. rewrite filter_app, length_app, Nat2Z.inj_add, Hcount, Hev.
    rewrite Hi. replace (Z.of_nat (length polls + 1)) with (Z.of_nat (length polls) + 1) by lia.
    set (n := Z.of_nat (length polls)). assert (0 <= n) by lia.
    replace (idle_ticks st + (n + 1)) with (idle_ticks st + n + 1) by lia.
    destruct ((idle_ticks st + n + 1) mod 10 =? 0) eqn:E; simpl.
    + apply Z.eqb_eq in E. Z.to_euclidean_division_equations. lia.
    + apply Z.eqb_neq in E. Z.to_euclidean_division_equations. lia.
Qed.

End Heartbeat.

(** C7.  Counting from a counter at zero (at the start, or right after a
    non-empty batch), in a run of empty polls the k-th cycle prints the
    heartbeat exactly when k is a multiple of 10, so [n] cycles print
    [n / 10] heartbeats; a non-empty batch puts the counter back to zero. *)
Theorem heartbeat_every_tenth_idle_cycle {R : Runtime} (st : loop_state) (polls : list poll) :
  idle_ticks st = 0 ->
  Forall empty_poll polls ->
  (forall k p, nth_error polls k = Some p ->
     heartbeats (cycle_events (consumer_loop (firstn k polls) st) p) =
       if Z.of_nat (S k) mod 10 =? 0 then 1%nat else 0%nat) /\
  heartbeats (events_since (env st) (env (consumer_loop polls st)))
    = (length polls / 10)%nat /\
  (forall st0 m msgs,
     idle_ticks (iteration st0 (RecvReturns (RespMessages (m :: msgs)))) = 0).
Proof.
  intros H0 Hall. split; [|split].
  - intros k p Hk.
    assert (Hlen : (k < length polls)%nat) by (apply nth_error_Some; congruence).
    assert (Hp : empty_poll p).
    { rewrite Forall_forall in Hall. eapply Hall, nth_error_In; eauto. }
    assert (Hpre : Forall empty_poll (firstn k polls)).
    { rewrite Forall_forall in *. intros x Hx. apply Hall.
      rewrite <- (firstn_skipn k polls). apply in_or_app. now left. }
    destruct (idle_run (firstn k polls) st ltac:(lia) Hpre) as [Hi _].
    destruct (cycle_events_empty (consumer_loop (firstn k polls) st) p Hp) as [-> _].
    rewrite Hi, H0, length_firstn, Nat.min_l by lia.
    replace (0 + Z.of_nat k + 1) with (Z.of_nat (S k)) by lia.
    destruct (Z.of_nat (S k) mod 10 =? 0); reflexivity.
  - destruct (idle_run polls st ltac:(lia) Hall) as [_ [_ Hc]].
    rewrite H0 in Hc. simpl in Hc. change (0 / 10) with 0 in Hc.
    rewrite Z.sub_0_r in Hc. apply Nat2Z.inj. rewrite Hc.
    rewrite Nat2Z.inj_div. reflexivity.
  - intros st0 m msgs. unfold iteration, messages_of.
    destruct (for_msgs (m :: msgs) []). reflexivity.
Qed.

Lemma heartbeat_every_tenth_idle_cycle_witness :
  let polls := repeat (RecvReturns RespNoMessages) 25 in
  let st := @start (fresh []) in
  (forall k p, nth_error polls k = Some p ->
     heartbeats (@cycle_events (frag_runtime (str "baseline"))
                   (@consumer_loop (frag_runtime (str "baseline")) (firstn k polls) st) p) =
       if Z.of_nat (S k) mod 10 =? 0 then 1%nat else 0%nat) /\
  heartbeats (events_since (env st)
                (env (@consumer_loop (frag_runtime (str "baseline")) polls st))) = 2%nat /\
  (forall st0 m msgs,
     idle_ticks (@iteration (frag_runtime (str "baseline")) st0
                   (RecvReturns (RespMessages (m :: msgs)))) = 0).
Proof.
  apply (@heartbeat_every_tenth_idle_cycle (frag_runtime (str "baseline"))
           (start (fresh [])) (repeat (RecvReturns RespNoMessages) 25)).
  - reflexivity.
  - repeat constructor; eexists; split; reflexivity.
Defined.

(** Twenty-five empty polls from the start: the heartbeat follows the 10th
    and the 20th receive, and nothing else is printed. *)
Example heartbeats_of_25_idle_cycles :
  trace (env (@consumer_loop (frag_runtime (str "baseline"))
                (repeat (RecvReturns RespNoMessages) 25) (start (fresh [])))) =
  repeat (ReceiveMessage, None) 10 ++ [(Print LogIdle, None)] ++
  repeat (ReceiveMessage, None) 10 ++ [(Print LogIdle, None)] ++
  repeat (ReceiveMessage, None) 5.
Proof. vm_compute. reflexivity. Qed.

(* ================================================================== *)
(** * The relational writer: what one attempt and one call do *)

Section Writer.
Context {R : Runtime}.

Ltac unit_cases :=
  repeat (simpl;
          match goal with
          | |- context [match raw_params ?tx with _ => _ end] =>
              destruct (raw_params tx) eqn:?
          | |- context [match scored_params ?tx ?s with _ => _ end] =>
              destruct (scored_params tx s) eqn:?
          | |- context [match ?fs with [] => _ | _ => _ end] =>
              is_var fs; destruct fs as [|[?|] ?]
          end); simpl.

Ltac trace_suffix :=
  eexists; split; [simpl; rewrite <- ?app_assoc; simpl; reflexivity|].

Lemma two_inserts_spec (c : Z) (tx : pyval) (s : float) (w w' : world) (res : exn + unit) :
  two_inserts c tx s w = (res, w') ->
  conn w' = conn w /\ opened w' = opened w /\ bucket w' = bucket w /\
  acked w' = acked w /\ clock w' = clock w /\
  exists evs, trace w' = trace w ++ evs /\ Forall (unit_event tx s c) evs /\
    match res with
    | inr _ =>
        exists r q, raw_params tx = inr r /\ scored_params tx s = inr q /\
          evs = [(Cursor c, None); (InsertRaw c r, None); (InsertScored c q, None)] /\
          tx_raw w' = insert_do_nothing raw_txn_id r (tx_raw w) /\
          tx_scored w' = insert_do_nothing sc_txn_id q (tx_scored w)
    | inl e =>
        tx_scored w' = tx_scored w /\
        row_added raw_txn_id (raw_params tx) (tx_raw w) (tx_raw w')
    end.
Proof.
  destruct w as [raw sc bk ak cn op ck fs tr].
  unfold two_inserts, bind, lift, execute_raw, execute_scored, external, row_added.
  unit_cases; intros [= <- <-]; simpl; do 5 (split; [reflexivity|]); trace_suffix;
    (split; [repeat constructor; simpl; auto|]);
    try (split; [reflexivity|]); eauto 8.
Qed.

Lemma pg_connect_from_spec (n : nat) (delay : Z) (last : option exn)
      (w w' : world) (res : exn + Z) :
  pg_connect_from n delay last w = (res, w') ->
  tx_raw w' = tx_raw w /\ tx_scored w' = tx_scored w /\ conn w' = conn w /\
  bucket w' = bucket w /\ acked w' = acked w /\
  exists evs, trace w' = trace w ++ evs /\ Forall connect_event evs /\
    match res with
    | inr c => reconnects evs = 1%nat /\ opened w' = opened w + 1 /\ c = opened w'
    | inl _ => reconnects evs = 0%nat /\ opened w' = opened w
    end.
Proof.
  revert last w. induction n as [|n IH]; intros last w.
  - simpl. destruct last; unfold raise; intros [= <- <-];
      do 5 (split; [reflexivity|]); exists []; rewrite app_nil_r; repeat split; constructor.
  - simpl. destruct w as [raw sc bk ak cn op ck fs tr].
    unfold connect_once, external. simpl.
    destruct fs as [|[e|] fs]; simpl.
    + intros [= <- <-]. simpl. do 5 (split; [reflexivity|]). trace_suffix.
      repeat split; repeat constructor.
    + intros H. apply IH in H. simpl in H.
      destruct H as (H1 & H2 & H3 & H4 & H5 & evs & Ht & Hev & Hres).
      do 5 (split; [assumption|]).
      exists ((Connect, Some e) :: (Sleep delay, None) :: evs). split.
      { rewrite Ht. now rewrite <- !app_assoc. }
      split; [repeat constructor; auto|]. exact Hres.
    + intros [= <- <-]. simpl. do 5 (split; [reflexivity|]). trace_suffix.
      repeat split; repeat constructor.
Qed.

Lemma write_db_unfold (tx : pyval) (s : float) (w : world) :
  write_db tx s w =
  match two_inserts (conn w) tx s w with
  | (inl OperationalError, w1) =>
      match pg_connect w1 with
      | (inr c, w2) => two_inserts c tx s (with_conn c w2)
      | (inl e, w2) => (inl e, w2)
      end
  | r => r
  end.
Proof.
  unfold write_db, bind.
  destruct (two_inserts (conn w) tx s w) as [[[]|[]] w1]; try reflexivity.
Qed.

Lemma has_key_insert {A} (key : A -> pyval) (r : A) (t : list A) :
  has_key key (key r) (insert_do_nothing key r t) = true.
Proof.
  unfold insert_do_nothing. destruct (has_key key (key r) t) eqn:E; [exact E|].
  unfold has_key. rewrite existsb_app. simpl.
  now rewrite pyval_eqb_refl, orb_true_r.
Qed.

Lemma insert_twice {A} (key : A -> pyval) (r : A) (t : list A) :
  insert_do_nothing key r (insert_do_nothing key r t) = insert_do_nothing key r t.
Proof.
  unfold insert_do_nothing at 1. now rewrite has_key_insert.
Qed.

Lemma insert_present {A} (key : A -> pyval) (r : A) (t : list A) :
  has_key key (key r) t = true -> insert_do_nothing key r t = t.
Proof. unfold insert_do_nothing. now intros ->. Qed.

Lemma row_added_twice {A} (key : A -> pyval) (p : exn + A) (t1 t2 t3 : list A) :
  row_added key p t1 t2 -> row_added key p t2 t3 -> row_added key p t1 t3.
Proof.
  intros [->|[x [Hx ->]]] [->|[y [Hy ->]]]; unfold row_added; eauto.
  right. exists x. split; [assumption|].
  assert (y = x) by congruence. subst. apply insert_twice.
Qed.

Lemma Forall_db_of_unit (tx : pyval) (s : float) (c : Z) (evs : list event) :
  Forall (unit_event tx s c) evs -> Forall (db_event tx s) evs.
Proof. apply Forall_impl. intros ev H. left. eauto. Qed.

Lemma Forall_db_of_connect (tx : pyval) (s : float) (evs : list event) :
  Forall connect_event evs -> Forall (db_event tx s) evs.
Proof. apply Forall_impl. intros ev H. now right. Qed.

Lemma reconnects_unit (tx : pyval) (s : float) (c : Z) (evs : list event) :
  Forall (unit_event tx s c) evs -> reconnects evs = 0%nat.
Proof.
  unfold reconnects. induction 1 as [|[[] o] evs H _ IH]; simpl in *; tauto.
Qed.

Lemma reconnects_app (a b : list event) :
  reconnects (a ++ b) = (reconnects a + reconnects b)%nat.
Proof. unfold reconnects. now rewrite filter_app, length_app. Qed.

(** Every call of [write_db], whatever the environment does: the tables
    change by the rows of [tx] at most, the events are those of the unit and
    of [pg_connect], at most one connection is opened, and a call that
    returns ends on a full unit that went through. *)
Lemma write_db_spec (tx : pyval) (s : float) (w w' : world) (res : exn + unit) :
  write_db tx s w = (res, w') ->
  bucket w' = bucket w /\ acked w' = acked w /\
  row_added raw_txn_id (raw_params tx) (tx_raw w) (tx_raw w') /\
  row_added sc_txn_id (scored_params tx s) (tx_scored w) (tx_scored w') /\
  exists evs, trace w' = trace w ++ evs /\ Forall (db_event tx s) evs /\
    (reconnects evs <= 1)%nat /\ opened w' = opened w + Z.of_nat (reconnects evs) /\
    match res with
    | inr _ =>
        exists r q pre, raw_params tx = inr r /\ scored_params tx s = inr q /\
          evs = pre ++ [(Cursor (conn w'), None); (InsertRaw (conn w') r, None);
                        (InsertScored (conn w') q, None)] /\
          tx_raw w' = insert_do_nothing raw_txn_id r (tx_raw w) /\
          tx_scored w' = insert_do_nothing sc_txn_id q (tx_scored w)
    | inl _ => True
    end.
Proof.
  rewrite write_db_unfold.
  destruct (two_inserts (conn w) tx s w) as [r1 w1] eqn:E1.
  pose proof (two_inserts_spec _ _ _ _ _ _ E1)
    as (C1 & O1 & B1 & A1 & _ & evs1 & T1 & F1 & R1).
  assert (Hdirect : (r1, w1) = (res, w') ->
    bucket w' = bucket w /\ acked w' = acked w /\
    row_added raw_txn_id (raw_params tx) (tx_raw w) (tx_raw w') /\
    row_added sc_txn_id (scored_params tx s) (tx_scored w) (tx_scored w') /\
    exists evs, trace w' = trace w ++ evs /\ Forall (db_event tx s) evs /\
      (reconnects evs <= 1)%nat /\ opened w' = opened w + Z.of_nat (reconnects evs) /\
      match res with
      | inr _ =>
          exists r q pre, raw_params tx = inr r /\ scored_params tx s = inr q /\
            evs = pre ++ [(Cursor (conn w'), None); (InsertRaw (conn w') r, None);
                          (InsertScored (conn w') q, None)] /\
            tx_raw w' = insert_do_nothing raw_txn_id r (tx_raw w) /\
            tx_scored w' = insert_do_nothing sc_txn_id q (tx_scored w)
      | inl _ => True
      end).
  { intros [= <- <-]. do 2 (split; [assumption|]).
    pose proof (reconnects_unit _ _ _ _ F1) as Hr.
    destruct r1 as [e|[]].
    - destruct R1 as [Hs Hraw]. split; [exact Hraw|]. split; [left; exact Hs|].
      exists evs1. rewrite Hr. repeat split; eauto using Forall_db_of_unit; lia.
    - destruct R1 as (r & q & Hr1 & Hq1 & -> & Hraw & Hsc).
      split; [right; eauto|]. split; [right; eauto|].
      exists [(Cursor (conn w), None); (InsertRaw (conn w) r, None);
              (InsertScored (conn w) q, None)].
      rewrite C1. repeat split; eauto using Forall_db_of_unit; try (simpl; lia).
      exists r, q, []. repeat split; auto. }
  destruct r1 as [e|[]]; [|exact Hdirect].
  destruct e; try exact Hdirect. clear Hdirect.
  destruct R1 as [Hs1 Hraw1].
  destruct (pg_connect w1) as [r2 w2] eqn:E2.
  pose proof (pg_connect_from_spec _ _ _ _ _ _ E2)
    as (Rw2 & Sc2 & C2 & B2 & A2 & evs2 & T2 & F2 & R2).
  pose proof (reconnects_unit _ _ _ _ F1) as Hr1.
  destruct r2 as [e2|c].
  - intros [= <- <-]. destruct R2 as [Hr2 O2].
    split; [congruence|]. split; [congruence|].
    split; [rewrite Rw2; exact Hraw1|]. split; [left; congruence|].
    exists (evs1 ++ evs2). rewrite T2, T1, <- app_assoc, reconnects_app, Hr1, Hr2.
    repeat split; auto; try (simpl; lia).
    apply Forall_app; split; eauto using Forall_db_of_unit, Forall_db_of_connect.
  - destruct R2 as (Hr2 & O2 & Hc). intros E3.
    pose proof (two_inserts_spec _ _ _ _ _ _ E3)
      as (C3 & O3 & B3 & A3 & _ & evs3 & T3 & F3 & R3).
    simpl in C3, O3, B3, A3, T3, R3.
    pose proof (reconnects_unit _ _ _ _ F3) as Hr3.
    split; [congruence|]. split; [congruence|].
    assert (Hraw : row_added raw_txn_id (raw_params tx) (tx_raw w) (tx_raw w')).
    { apply row_added_twice with (t2 := tx_raw w1); [exact Hraw1|].
      rewrite <- Rw2. destruct res as [e3|[]].
      - apply R3.
      - destruct R3 as (r & q & Hr & _ & _ & -> & _). right. eauto. }
    assert (Hsc : row_added sc_txn_id (scored_params tx s) (tx_scored w) (tx_scored w')).
    { rewrite <- Hs1, <- Sc2. destruct res as [e3|[]].
      - left. apply R3.
      - destruct R3 as (r & q & _ & Hq & _ & _ & ->). right. eauto. }
    split; [exact Hraw|]. split; [exact Hsc|].
    exists (evs1 ++ evs2 ++ evs3).
    rewrite T3. simpl. rewrite T2, T1, <- !app_assoc, !reconnects_app, Hr1, Hr2, Hr3.
    split; [reflexivity|]. split.
    { apply Forall_app; split; [eauto using Forall_db_of_unit|].
      apply Forall_app; split; eauto using Forall_db_of_unit, Forall_db_of_connect. }
    split; [simpl; lia|]. split; [simpl; lia|].
    destruct res as [e3|[]]; [exact I|].
    destruct R3 as (r & q & Hr & Hq & -> & Hraw3 & Hsc3).
    exists r, q, (evs1 ++ evs2). rewrite C3. simpl.
    split; [assumption|]. split; [assumption|].
    split; [now rewrite <- app_assoc|].
    split.
    + rewrite Hraw3. simpl. rewrite Rw2.
      destruct Hraw1 as [->|[x [Hx ->]]]; [reflexivity|].
      assert (x = r) by congruence. subst. apply insert_twice.
    + rewrite Hsc3. simpl. now rewrite Sc2, Hs1.
Qed.

End Writer.

(* ================================================================== *)
(** * Tables with unique keys *)

Lemma count_key_absent {A} (key : A -> pyval) (k : pyval) (t : list A) :
  has_key key k t = false -> count_key key k t = 0%nat.
Proof.
  unfold has_key, count_key. induction t as [|r t IH]; simpl; [reflexivity|].
  intros H. apply orb_false_iff in H as [H1 H2]. rewrite H1. auto.
Qed.

Lemma count_key_present {A} (key : A -> pyval) (k : pyval) (t : list A) :
  unique_keys key t -> has_key key k t = true -> count_key key k t = 1%nat.
Proof.
  induction t as [|r t IH]; simpl; [discriminate|]. intros [Hr Hu] H.
  unfold count_key. simpl. destruct (pyval_eqb (key r) k) eqn:E; simpl.
  - apply pyval_eqb_eq in E. subst k. f_equal. now apply count_key_absent.
  - apply IH; assumption.
Qed.

Lemma has_key_snoc {A} (key : A -> pyval) (k : pyval) (r : A) (t : list A) :
  has_key key k (t ++ [r]) = has_key key k t || pyval_eqb (key r) k.
Proof. unfold has_key. rewrite existsb_app. simpl. now rewrite orb_false_r. Qed.

Lemma pyval_eqb_sym (a b : pyval) : pyval_eqb a b = pyval_eqb b a.
Proof.
  destruct (pyval_eqb a b) eqn:E.
  - apply pyval_eqb_eq in E. subst. symmetry. apply pyval_eqb_refl.
  - destruct (pyval_eqb b a) eqn:E'; [|reflexivity].
    apply pyval_eqb_eq in E'. subst. now rewrite pyval_eqb_refl in E.
Qed.

Lemma unique_keys_insert {A} (key : A -> pyval) (r : A) (t : list A) :
  unique_keys key t -> unique_keys key (insert_do_nothing key r t).
Proof.
  unfold insert_do_nothing. destruct (has_key key (key r) t) eqn:E; [auto|].
  induction t as [|x t IH]; simpl; [auto|]. intros [Hx Hu].
  simpl in E. apply orb_false_iff in E as [E1 E2].
  split; [|auto]. rewrite has_key_snoc, Hx, pyval_eqb_sym, E1. reflexivity.
Qed.

Lemma unique_keys_row_added {A} (key : A -> pyval) (p : exn + A) (t t' : list A) :
  row_added key p t t' -> unique_keys key t -> unique_keys key t'.
Proof. intros [->|[x [_ ->]]]; auto using unique_keys_insert. Qed.

(* ================================================================== *)
(** * The relational writer: the claims *)

Section WriterClaims.
Context {R : Runtime}.

Lemma raw_params_key (tx : pyval) (r : raw_row) :
  raw_params tx = inr r -> subscript tx (str "txn_id") = inr (raw_txn_id r).
Proof.
  unfold raw_params. destruct (subscript tx (str "txn_id")); [discriminate|].
  destruct (subscript tx (str "amount")); [discriminate|].
  destruct (subscript tx (str "merchant_id")); [discriminate|].
  destruct (subscript tx (str "ts")); [discriminate|]. now intros [= <-].
Qed.

Lemma scored_params_key (tx : pyval) (s : float) (q : scored_row) :
  scored_params tx s = inr q -> subscript tx (str "txn_id") = inr (sc_txn_id q).
Proof.
  unfold scored_params. destruct (subscript tx (str "txn_id")); [discriminate|].
  destruct (subscript tx (str "ts")); [discriminate|].
  destruct (subscript tx (str "amount")); [discriminate|].
  destruct (subscript tx (str "merchant_id")); [discriminate|]. now intros [= <-].
Qed.

Lemma raw_params_payload (tx : pyval) (r : raw_row) :
  raw_params tx = inr r -> raw_payload r = json_dumps tx.
Proof.
  unfold raw_params. destruct (subscript tx (str "txn_id")); [discriminate|].
  destruct (subscript tx (str "amount")); [discriminate|].
  destruct (subscript tx (str "merchant_id")); [discriminate|].
  destruct (subscript tx (str "ts")); [discriminate|]. now intros [= <-].
Qed.

Lemma two_inserts_no_fault (c : Z) (tx : pyval) (s : float) (w : world)
      (r : raw_row) (q : scored_row) :
  faults w = [] -> raw_params tx = inr r -> scored_params tx s = inr q ->
  exists w', two_inserts c tx s w = (inr tt, w') /\ faults w' = [].
Proof.
  destruct w as [raw sc bk ak cn op ck fs tr]. simpl. intros -> Hr Hq.
  unfold two_inserts, bind, lift, execute_raw, execute_scored, external. simpl.
  rewrite Hr. simpl. rewrite Hq. simpl. eauto.
Qed.

Lemma row_added_same_key {A} (key : A -> pyval) (p : exn + A) (k : pyval) (t t' : list A) :
  (forall x, p = inr x -> key x = k) ->
  has_key key k t = true -> row_added key p t t' -> t' = t.
Proof.
  intros Hk Hin [->|[x [Hx ->]]]; [reflexivity|].
  apply insert_present. now rewrite (Hk x Hx).
Qed.

(** C3.  Once [write_db] has returned for a transaction, each table holds
    exactly one row under its [txn_id] and no two rows share a key; any
    further call for the same [txn_id] leaves both tables as they are, and
    repeating the call returns without an error when the environment lets
    the inserts through. *)
Theorem persist_twice_keeps_one_row (tx : pyval) (s : float) (w w1 : world) :
  unique_keys raw_txn_id (tx_raw w) ->
  unique_keys sc_txn_id (tx_scored w) ->
  write_db tx s w = (inr tt, w1) ->
  exists id, subscript tx (str "txn_id") = inr id /\
    count_key raw_txn_id id (tx_raw w1) = 1%nat /\
    count_key sc_txn_id id (tx_scored w1) = 1%nat /\
    unique_keys raw_txn_id (tx_raw w1) /\ unique_keys sc_txn_id (tx_scored w1) /\
    (forall tx' s' res w2,
        subscript tx' (str "txn_id") = inr id ->
        write_db tx' s' w1 = (res, w2) ->
        tx_raw w2 = tx_raw w1 /\ tx_scored w2 = tx_scored w1) /\
    (faults w1 = [] -> exists w2, write_db tx s w1 = (inr tt, w2)).
Proof.
  intros Ur Us H.
  pose proof (write_db_spec _ _ _ _ _ H)
    as (_ & _ & Hraw & Hsc & evs & _ & _ & _ & _ & r & q & pre & Hr & Hq & _ & Er & Es).
  pose proof (raw_params_key _ _ Hr) as Kr.
  pose proof (scored_params_key _ _ _ Hq) as Kq.
  assert (Kid : sc_txn_id q = raw_txn_id r) by congruence.
  assert (Ur1 : unique_keys raw_txn_id (tx_raw w1))
    by (rewrite Er; now apply unique_keys_insert).
  assert (Us1 : unique_keys sc_txn_id (tx_scored w1))
    by (rewrite Es; now apply unique_keys_insert).
  assert (Pr : has_key raw_txn_id (raw_txn_id r) (tx_raw w1) = true)
    by (rewrite Er; apply has_key_insert).
  assert (Ps : has_key sc_txn_id (raw_txn_id r) (tx_scored w1) = true)
    by (rewrite Es, <- Kid; apply has_key_insert).
  exists (raw_txn_id r). split; [exact Kr|].
  split; [now apply count_key_present|]. split; [now apply count_key_present|].
  split; [exact Ur1|]. split; [exact Us1|]. split.
  - intros tx' s' res w2 Hid H2.
    pose proof (write_db_spec _ _ _ _ _ H2) as (_ & _ & Hraw2 & Hsc2 & _).
    split.
    + eapply row_added_same_key; [|exact Pr|exact Hraw2].
      intros x Hx. apply raw_params_key in Hx. congruence.
    + eapply row_added_same_key; [|exact Ps|exact Hsc2].
      intros x Hx. apply scored_params_key in Hx. congruence.
  - intros Hf. rewrite write_db_unfold.
    destruct (two_inserts_no_fault (conn w1) tx s w1 r q Hf Hr Hq) as [w2 [-> _]].
    eauto.
Qed.

Lemma events_since_self (w : world) : events_since w w = [].
Proof. unfold events_since. apply skipn_all. Qed.

Lemma process_message_unfold (m : message) (w : world) :
  process_message m w =
  match json_loads (Body m) with
  | inl e => (inl e, w)
  | inr tx =>
      match score tx with
      | inl e => (inl e, w)
      | inr s =>
          match write_db tx s w with
          | (inl e, w1) => (inl e, w1)
          | (inr _, w1) =>
              match scored_record tx s with
              | inl e => (inl e, w1)
              | inr rec =>
                  match write_s3 rec w1 with
                  | (inl e, w2) => (inl e, w2)
                  | (inr _, w2) => (inr (entry_of m), w2)
                  end
              end
          end
      end
  end.
Proof.
  unfold process_message, bind, lift, ret.
  destruct (json_loads (Body m)); [reflexivity|].
  destruct (score p); [reflexivity|].
  destruct (write_db p f w) as [[|] w1]; [reflexivity|].
  destruct (scored_record p f); [reflexivity|].
  destruct (write_s3 p0 w1) as [[|] w2]; reflexivity.
Qed.

Lemma process_message_raises (m : message) (w w' : world) (e : exn) :
  process_message m w = (inl e, w') <-> fails_at m w e w'.
Proof.
  rewrite process_message_unfold. split.
  - destruct (json_loads (Body m)) as [e0|tx] eqn:Ej.
    { intros [= <- <-]. now apply FailParse. }
    destruct (score tx) as [e0|s] eqn:Es.
    { intros [= <- <-]. now apply FailScore with tx. }
    destruct (write_db tx s w) as [[e0|[]] w1] eqn:Ew.
    { intros [= <- <-]. now apply FailPersist with tx s. }
    destruct (scored_record tx s) as [e0|rec] eqn:Er.
    { intros [= <- <-]. apply FailArchive with tx s w1; auto. }
    destruct (write_s3 rec w1) as [[e0|[]] w2] eqn:E3; [|discriminate].
    intros [= <- <-]. apply FailArchive with tx s w1; eauto.
  - intros [Hj ->|tx Hj Hs ->|tx s Hj Hs Hw|tx s w1 Hj Hs Hw [[Hr ->]|[rec [Hr H3]]]];
      rewrite Hj; try reflexivity; rewrite Hs; try reflexivity; rewrite Hw;
      try reflexivity; rewrite Hr; try reflexivity. now rewrite H3.
Qed.

Lemma write_s3_spec (rec : pyval) (w w' : world) (res : exn + unit) :
  write_s3 rec w = (res, w') ->
  tx_raw w' = tx_raw w /\ tx_scored w' = tx_scored w /\ acked w' = acked w /\
  conn w' = conn w /\ opened w' = opened w /\
  match res with
  | inr _ =>
      exists bytes, encode (json_dumps rec ++ [10]) = inr bytes /\
        trace w' = trace w ++ [(PutObject (key_at (clock w)) (Gzip bytes), None)] /\
        bucket w' = bucket w ++ [(key_at (clock w), Gzip bytes)]
  | inl e =>
      bucket w' = bucket w /\
      (trace w' = trace w \/ exists k b, trace w' = trace w ++ [(PutObject k b, Some e)])
  end.
Proof.
  destruct w as [raw sc bk ak cn op ck fs tr]. unfold write_s3, external. simpl.
  destruct (encode (json_dumps rec ++ [10])) as [e|bytes].
  - intros [= <- <-]. simpl. repeat split; auto.
  - destruct fs as [|[e|] fs]; simpl; intros [= <- <-]; simpl;
      do 5 (split; [reflexivity|]); eauto 6.
Qed.

Lemma ack_calls_app (a b : list event) :
  ack_calls (a ++ b) = (ack_calls a + ack_calls b)%nat.
Proof. unfold ack_calls. now rewrite filter_app, length_app. Qed.

Lemma ack_calls_db (tx : pyval) (s : float) (evs : list event) :
  Forall (db_event tx s) evs -> ack_calls evs = 0%nat.
Proof.
  unfold ack_calls. induction 1 as [|[[] o] evs H _ IH]; simpl in *; auto;
    destruct H as [[c H]|H]; simpl in H; try tauto; destruct o; tauto.
Qed.

(** What the processing of one message does, whatever its outcome: it
    acknowledges nothing; when it returns, the message went through its
    four stages and its events end on the two inserts and the archive
    write. *)
Lemma process_message_spec (m : message) (w w' : world) (res : exn + entry) :
  process_message m w = (res, w') ->
  acked w' = acked w /\
  exists evs, trace w' = trace w ++ evs /\ ack_calls evs = 0%nat /\
    match res with
    | inr en => archived_in [m] en evs
    | inl _ => True
    end.
Proof.
  rewrite process_message_unfold.
  destruct (json_loads (Body m)) as [e0|tx] eqn:Ej.
  { intros [= <- <-]. split; [reflexivity|]. exists []. now rewrite app_nil_r. }
  destruct (score tx) as [e0|s] eqn:Es.
  { intros [= <- <-]. split; [reflexivity|]. exists []. now rewrite app_nil_r. }
  destruct (write_db tx s w) as [r1 w1] eqn:Ew.
  pose proof (write_db_spec _ _ _ _ _ Ew)
    as (_ & A1 & _ & _ & evs1 & T1 & F1 & _ & _ & R1).
  pose proof (ack_calls_db _ _ _ F1) as Q1.
  destruct r1 as [e0|[]].
  { intros [= <- <-]. split; [assumption|]. exists evs1. auto. }
  destruct R1 as (r & q & pre & Hr & Hq & Hev & _).
  destruct (scored_record tx s) as [e0|rec] eqn:Er.
  { intros [= <- <-]. split; [assumption|]. exists evs1. auto. }
  destruct (write_s3 rec w1) as [r2 w2] eqn:E2.
  pose proof (write_s3_spec _ _ _ _ E2) as (_ & _ & A2 & _ & _ & R2).
  destruct r2 as [e0|[]].
  - intros [= <- <-]. split; [congruence|]. destruct R2 as [_ [T2|[k [b T2]]]].
    + exists evs1. rewrite T2. auto.
    + exists (evs1 ++ [(PutObject k b, Some e0)]).
      rewrite T2, T1, <- app_assoc, ack_calls_app, Q1. auto.
  - intros [= <- <-]. split; [congruence|].
    destruct R2 as (bytes & Hb & T2 & _).
    exists (evs1 ++ [(PutObject (key_at (clock w1)) (Gzip bytes), None)]).
    rewrite T2, T1, <- app_assoc, ack_calls_app, Q1.
    split; [reflexivity|]. split; [reflexivity|].
    exists m, tx, s, rec, bytes, (key_at (clock w1)), (conn w1), r, q, pre, [].
    rewrite Hev, <- app_assoc. simpl. repeat split; auto.
Qed.

Lemma archived_in_weaken (msgs msgs' : list message) (en : entry)
      (evs a b : list event) :
  incl msgs msgs' -> archived_in msgs en evs -> archived_in msgs' en (a ++ evs ++ b).
Proof.
  intros Hi (m & tx & s & rec & bytes & k & c & r & q & before & after & Hm & H).
  destruct H as (He & Hj & Hs & Hr & Hq & Hrec & Hb & ->).
  exists m, tx, s, rec, bytes, k, c, r, q, (a ++ before), (after ++ b).
  repeat split; auto. now rewrite <- !app_assoc.
Qed.

(** The [for] loop: what it adds to the list of entries, and what it emits. *)
Lemma for_msgs_spec (msgs : list message) (acc : list entry) (w : world)
      (d : list entry) (w' : world) :
  for_msgs msgs acc w = (d, w') ->
  acked w' = acked w /\
  exists new evs, d = acc ++ new /\ trace w' = trace w ++ evs /\
    ack_calls evs = 0%nat /\
    forall en, In en new -> archived_in msgs en evs.
Proof.
  revert acc w. induction msgs as [|m msgs IH]; intros acc w; simpl.
  - intros [= <- <-]. split; [reflexivity|]. exists [], [].
    rewrite !app_nil_r. repeat split; auto. intros en [].
  - destruct (process_message m w) as [r1 w1] eqn:E1.
    pose proof (process_message_spec _ _ _ _ E1) as (A1 & evs1 & T1 & Q1 & R1).
    destruct r1 as [e|en1]; intros H; apply IH in H;
      destruct H as (A2 & new & evs2 & -> & T2 & Q2 & Hnew).
    + split; [simpl in A2; congruence|].
      exists new, (evs1 ++ [(Print (LogMessageError (MessageId m) e), None)] ++ evs2).
      split; [reflexivity|]. split.
      { rewrite T2. simpl. rewrite T1. now rewrite <- !app_assoc. }
      split; [rewrite !ack_calls_app, Q1, Q2; reflexivity|].
      intros en Hen. specialize (Hnew en Hen).
      apply (archived_in_weaken msgs (m :: msgs) en evs2
               (evs1 ++ [(Print (LogMessageError (MessageId m) e), None)]) []) in Hnew.
      * now rewrite app_nil_r, <- app_assoc in Hnew.
      * apply incl_tl, incl_refl.
    + split; [congruence|].
      exists (en1 :: new), (evs1 ++ evs2).
      split; [now rewrite <- app_assoc|]. split; [rewrite T2, T1; now rewrite app_assoc|].
      split; [rewrite ack_calls_app, Q1, Q2; reflexivity|].
      intros en [<-|Hen].
      * apply (archived_in_weaken [m] (m :: msgs) en1 evs1 [] evs2) in R1; [exact R1|].
        intros x [<-|[]]. now left.
      * specialize (Hnew en Hen).
        apply (archived_in_weaken msgs (m :: msgs) en evs2 evs1 []) in Hnew.
        -- now rewrite app_nil_r in Hnew.
        -- apply incl_tl, incl_refl.
Qed.

Lemma for_msgs_app (pre post : list message) (acc : list entry) (w : world) :
  for_msgs (pre ++ post) acc w =
  let '(d1, w1) := for_msgs pre acc w in for_msgs post d1 w1.
Proof.
  revert acc w. induction pre as [|m pre IH]; intros acc w; simpl; [reflexivity|].
  destruct (process_message m w) as [[e|en] w1]; apply IH.
Qed.

Lemma for_msgs_acc (msgs : list message) (acc : list entry) (w : world) :
  for_msgs msgs acc w =
  let '(d, w') := for_msgs msgs [] w in (acc ++ d, w').
Proof.
  revert acc w. induction msgs as [|m msgs IH]; intros acc w; simpl.
  - now rewrite app_nil_r.
  - destruct (process_message m w) as [[e|en] w1].
    + apply IH.
    + rewrite IH. rewrite (IH [en]).
      destruct (for_msgs msgs [] w1) as [d w']. now rewrite <- app_assoc.
Qed.

Lemma for_msgs_failed (m : message) (rest : list message) (acc : list entry)
      (w w' : world) (e : exn) :
  process_message m w = (inl e, w') ->
  for_msgs (m :: rest) acc w =
  for_msgs rest acc (print (LogMessageError (MessageId m) e) w').
Proof. intros H. simpl. now rewrite H. Qed.

(** C4.  When the first attempt of the unit raises [OperationalError],
    [write_db] calls [pg_connect] once.  If it gives a connection (the one
    connection opened during the call), the unit is replayed in full on it
    and its outcome is the outcome of [write_db]: on success both rows are
    in their tables; on failure the exception leaves [write_db].  If it
    gives none, its exception leaves [write_db].  An exception that leaves
    [write_db] keeps the message out of the entries to acknowledge. *)
Theorem write_db_reconnects_once_and_replays (tx : pyval) (s : float) (w w1 : world) :
  two_inserts (conn w) tx s w = (inl OperationalError, w1) ->
  (exists rc w2, pg_connect w1 = (rc, w2) /\
     match rc with
     | inl e => write_db tx s w = (inl e, w2) /\ reconnects (events_since w w2) = 0%nat
     | inr c =>
         c = opened w + 1 /\
         exists res w3,
           two_inserts c tx s (with_conn c w2) = (res, w3) /\
           write_db tx s w = (res, w3) /\
           conn w3 = c /\ opened w3 = opened w + 1 /\
           reconnects (events_since w w3) = 1%nat /\
           match res with
           | inr _ =>
               exists r q, raw_params tx = inr r /\ scored_params tx s = inr q /\
                 events_since w2 w3 =
                   [(Cursor c, None); (InsertRaw c r, None); (InsertScored c q, None)] /\
                 has_key raw_txn_id (raw_txn_id r) (tx_raw w3) = true /\
                 has_key sc_txn_id (sc_txn_id q) (tx_scored w3) = true
           | inl _ => True
           end
     end) /\
  (forall e w' m rest acc,
      write_db tx s w = (inl e, w') ->
      json_loads (Body m) = inr tx -> score tx = inr s ->
      for_msgs (m :: rest) acc w =
      for_msgs rest acc (print (LogMessageError (MessageId m) e) w')).
Proof.
  intros E1. split.
  - pose proof (two_inserts_spec _ _ _ _ _ _ E1)
      as (C1 & O1 & _ & _ & _ & evs1 & T1 & F1 & _).
    pose proof (reconnects_unit _ _ _ _ F1) as Hr1.
    destruct (pg_connect w1) as [rc w2] eqn:E2. exists rc, w2. split; [reflexivity|].
    pose proof (pg_connect_from_spec _ _ _ _ _ _ E2)
      as (_ & _ & _ & _ & _ & evs2 & T2 & F2 & R2).
    rewrite write_db_unfold, E1, E2.
    destruct rc as [e|c].
    + split; [reflexivity|]. destruct R2 as [Hr2 _].
      rewrite (events_since_app w w2 (evs1 ++ evs2)).
      * now rewrite reconnects_app, Hr1, Hr2.
      * now rewrite T2, T1, app_assoc.
    + destruct R2 as (Hr2 & O2 & ->). split; [lia|].
      destruct (two_inserts (opened w2) tx s (with_conn (opened w2) w2))
        as [res w3] eqn:E3.
      exists res, w3. split; [reflexivity|]. split; [reflexivity|].
      pose proof (two_inserts_spec _ _ _ _ _ _ E3)
        as (C3 & O3 & _ & _ & _ & evs3 & T3 & F3 & R3).
      simpl in C3, O3, T3, R3.
      pose proof (reconnects_unit _ _ _ _ F3) as Hr3.
      split; [exact C3|]. split; [lia|]. split.
      * rewrite (events_since_app w w3 (evs1 ++ evs2 ++ evs3)).
        -- now rewrite !reconnects_app, Hr1, Hr2, Hr3.
        -- now rewrite T3, T2, T1, !app_assoc.
      * destruct res as [e|[]]; [exact I|].
        destruct R3 as (r & q & Hr & Hq & -> & Er & Es).
        exists r, q. split; [assumption|]. split; [assumption|].
        split; [now apply events_since_app|].
        rewrite Er, Es. split; apply has_key_insert.
  - intros e w' m rest acc Hw Hj Hs. apply for_msgs_failed.
    rewrite process_message_unfold, Hj, Hs, Hw. reflexivity.
Qed.

(** C2.  A message whose processing raises, at whatever stage, adds nothing
    to the entries to acknowledge and stops nothing: the entries of the
    batch are those of the messages before it followed by those of the
    messages after it, which are processed from the world the failed one
    left; every entry is the entry of one of these other messages, gone
    through its four stages. *)
Theorem failed_message_is_isolated (pre post : list message) (m : message)
        (w w1 w2 w3 : world) (d1 d2 : list entry) (e : exn) :
  for_msgs pre [] w = (d1, w1) ->
  fails_at m w1 e w2 ->
  for_msgs post [] (print (LogMessageError (MessageId m) e) w2) = (d2, w3) ->
  for_msgs (pre ++ m :: post) [] w = (d1 ++ d2, w3) /\
  (forall en, In en (d1 ++ d2) ->
     exists evs, archived_in (pre ++ post) en evs) /\
  acked w3 = acked w.
Proof.
  intros H1 H2 H3. apply process_message_raises in H2.
  split; [|split].
  - rewrite for_msgs_app, H1. rewrite (for_msgs_failed _ _ _ _ _ _ H2).
    rewrite for_msgs_acc, H3. reflexivity.
  - pose proof (for_msgs_spec _ _ _ _ _ H1) as (_ & new1 & evs1 & -> & _ & _ & N1).
    pose proof (for_msgs_spec _ _ _ _ _ H3) as (_ & new2 & evs2 & -> & _ & _ & N2).
    simpl. intros en Hen. apply in_app_or in Hen as [Hen|Hen].
    + exists ([] ++ evs1 ++ []). eapply archived_in_weaken; [|eauto].
      apply incl_appl, incl_refl.
    + exists ([] ++ evs2 ++ []). eapply archived_in_weaken; [|eauto].
      apply incl_appr, incl_refl.
  - pose proof (for_msgs_spec _ _ _ _ _ H1) as (A1 & _).
    pose proof (for_msgs_spec _ _ _ _ _ H3) as (A3 & _).
    pose proof (process_message_spec _ _ _ _ H2) as (A2 & _).
    simpl in A3. congruence.
Qed.

Lemma cycle_shape (st : loop_state) (m : message) (msgs : list message) :
  let to_delete := fst (for_msgs (m :: msgs) [] (emit (ReceiveMessage, None) (env st))) in
  let evs := cycle_events st (RecvReturns (RespMessages (m :: msgs))) in
  exists batch_evs tail,
    evs = (ReceiveMessage, None) :: batch_evs ++ tail /\
    ack_calls batch_evs = 0%nat /\
    (forall en, In en to_delete -> archived_in (m :: msgs) en batch_evs) /\
    match to_delete with
    | [] => tail = []
    | _ => exists o rest, tail = (DeleteMessageBatch to_delete, o) :: rest /\
                          ack_calls rest = 0%nat
    end.
Proof.
  cbv zeta. unfold cycle_events, iteration, messages_of.
  destruct (for_msgs (m :: msgs) [] (emit (ReceiveMessage, None) (env st)))
    as [d w1] eqn:E.
  pose proof (for_msgs_spec _ _ _ _ _ E) as (_ & new & bevs & Hd & T & Q & N).
  simpl in Hd, T. subst new. cbn [fst idle_ticks env].
  destruct d as [|en d].
  - exists bevs, []. rewrite app_nil_r.
    rewrite (events_since_app (env st) w1 ((ReceiveMessage, None) :: bevs))
      by (rewrite T; now rewrite <- app_assoc).
    repeat split; auto.
  - destruct (env st) as [raw sc bk ak cn op ck fs tr] eqn:Ew.
    destruct w1 as [raw1 sc1 bk1 ak1 cn1 op1 ck1 fs1 tr1]. simpl in T. subst tr1.
    unfold delete_message_batch, external. simpl.
    destruct fs1 as [|[e|] fs1]; simpl; eexists bevs, _; (split;
      [apply events_since_app; simpl; rewrite <- !app_assoc; simpl; reflexivity|]);
      (split; [exact Q|]); (split; [exact N|]);
      eexists _, _; split; reflexivity.
Qed.

(** C1, as the code has it.  The events of a poll cycle that received
    messages are the receive call, the events of the messages, and a tail.
    No acknowledgment call is among the events of the messages; every entry
    to acknowledge belongs to a message that went through its four stages,
    with its archive write among these events.  The tail is empty when no
    message is to be acknowledged, and otherwise starts with the one
    acknowledgment call of the cycle, on exactly these entries. *)
Theorem ack_follows_the_whole_batch (st : loop_state) (m : message) (msgs : list message) :
  let to_delete := fst (for_msgs (m :: msgs) [] (emit (ReceiveMessage, None) (env st))) in
  let evs := cycle_events st (RecvReturns (RespMessages (m :: msgs))) in
  exists batch_evs tail,
    evs = (ReceiveMessage, None) :: batch_evs ++ tail /\
    ack_calls batch_evs = 0%nat /\
    (forall en, In en to_delete -> archived_in (m :: msgs) en batch_evs) /\
    match to_delete with
    | [] => tail = []
    | _ => exists o rest, tail = (DeleteMessageBatch to_delete, o) :: rest /\
                          ack_calls rest = 0%nat
    end /\
    ack_calls evs = match to_delete with [] => 0%nat | _ => 1%nat end.
Proof.
  cbv zeta. destruct (cycle_shape st m msgs) as (bevs & tail & Hev & Q & N & Ht).
  cbv zeta in Hev, N, Ht. exists bevs, tail.
  split; [exact Hev|]. split; [exact Q|]. split; [exact N|]. split; [exact Ht|].
  rewrite Hev. change ((ReceiveMessage, None) :: bevs ++ tail)
    with ([(ReceiveMessage, @None exn)] ++ bevs ++ tail).
  rewrite !ack_calls_app, Q.
  destruct (fst (for_msgs (m :: msgs) [] (emit (ReceiveMessage, None) (env st)))).
  - subst tail. reflexivity.
  - destruct Ht as (o & rest & -> & Hrest).
    change ((DeleteMessageBatch (e :: l), o) :: rest)
      with ([(DeleteMessageBatch (e :: l), o)] ++ rest).
    rewrite ack_calls_app, Hrest. reflexivity.
Qed.

(** C8, as the code has it.  For a message that was processed to the end,
    every insert into [tx_raw] issued for it carries as [payload] the
    serialization [json.dumps] of the record parsed from the body, and when
    its [txn_id] was not yet in the table, this is the payload of its row. *)
Theorem payload_is_the_serialized_record (m : message) (w w' : world) (en : entry) :
  process_message m w = (inr en, w') ->
  exists tx, json_loads (Body m) = inr tx /\
    (forall c r o, In (InsertRaw c r, o) (events_since w w') ->
       raw_payload r = json_dumps tx) /\
    (forall id, subscript tx (str "txn_id") = inr id ->
       has_key raw_txn_id id (tx_raw w) = false ->
       exists r, In r (tx_raw w') /\ raw_txn_id r = id /\
                 raw_payload r = json_dumps tx).
Proof.
  rewrite process_message_unfold.
  destruct (json_loads (Body m)) as [e0|tx] eqn:Ej; [discriminate|].
  destruct (score tx) as [e0|s] eqn:Es; [discriminate|].
  destruct (write_db tx s w) as [r1 w1] eqn:Ew.
  pose proof (write_db_spec _ _ _ _ _ Ew)
    as (_ & _ & _ & _ & evs1 & T1 & F1 & _ & _ & R1).
  destruct r1 as [e0|[]]; [discriminate|].
  destruct R1 as (r & q & pre & Hr & Hq & Hev & Er & _).
  destruct (scored_record tx s) as [e0|rec] eqn:Erec; [discriminate|].
  destruct (write_s3 rec w1) as [r2 w2] eqn:E2.
  pose proof (write_s3_spec _ _ _ _ E2) as (Rw & _ & _ & _ & _ & R2).
  destruct r2 as [e0|[]]; [discriminate|]. intros [= _ <-].
  destruct R2 as (bytes & _ & T2 & _).
  exists tx. split; [reflexivity|]. split.
  - intros c r0 o Hin.
    rewrite (events_since_app w w2
               (evs1 ++ [(PutObject (key_at (clock w1)) (Gzip bytes), None)])) in Hin
      by (rewrite T2, T1; now rewrite app_assoc).
    apply in_app_or in Hin as [Hin|[Hin|[]]]; [|discriminate].
    rewrite Forall_forall in F1. apply F1 in Hin.
    destruct Hin as [[c' [_ Hin]]|Hin]; [|destruct o; contradiction].
    now apply raw_params_payload.
  - intros id Hid Habs. exists r.
    pose proof (raw_params_key _ _ Hr) as Hk.
    assert (raw_txn_id r = id) by congruence. subst id.
    split; [|split; [reflexivity|now apply raw_params_payload]].
    rewrite Rw, Er. unfold insert_do_nothing. rewrite Habs.
    apply in_or_app. right. now left.
Qed.

End WriterClaims.

(* ================================================================== *)
(** * The claims on concrete runs *)

Lemma persist_twice_keeps_one_row_witness :
  let w := fresh [] in
  let w1 := snd (@write_db baseline tx1 f_1_0 w) in
  exists id, subscript tx1 (str "txn_id") = inr id /\
    count_key raw_txn_id id (tx_raw w1) = 1%nat /\
    count_key sc_txn_id id (tx_scored w1) = 1%nat /\
    unique_keys raw_txn_id (tx_raw w1) /\ unique_keys sc_txn_id (tx_scored w1) /\
    (forall tx' s' res w2,
        subscript tx' (str "txn_id") = inr id ->
        @write_db baseline tx' s' w1 = (res, w2) ->
        tx_raw w2 = tx_raw w1 /\ tx_scored w2 = tx_scored w1) /\
    (faults w1 = [] -> exists w2, @write_db baseline tx1 f_1_0 w1 = (inr tt, w2)).
Proof.
  apply (@persist_twice_keeps_one_row baseline tx1 f_1_0 (fresh [])).
  - exact I.
  - exact I.
  - vm_compute. reflexivity.
Defined.

(** Persisting the same transaction twice, with nothing failing: one row
    in each table, the second call returns. *)
Example persist_twice_run :
  let '(r1, w1) := @write_db baseline tx1 f_1_0 (fresh []) in
  let '(r2, w2) := @write_db baseline tx1 f_1_0 w1 in
  r1 = inr tt /\ r2 = inr tt /\
  length (tx_raw w2) = 1%nat /\ length (tx_scored w2) = 1%nat /\
  tx_raw w2 = tx_raw w1 /\ tx_scored w2 = tx_scored w1.
Proof. vm_compute. repeat split. Qed.

Lemma write_db_reconnects_once_and_replays_witness :
  let w := fresh drop_once in
  let w1 := snd (@two_inserts baseline (conn w) tx1 f_1_0 w) in
  (exists rc w2, pg_connect w1 = (rc, w2) /\
     match rc with
     | inl e => @write_db baseline tx1 f_1_0 w = (inl e, w2) /\
                reconnects (events_since w w2) = 0%nat
     | inr c =>
         c = opened w + 1 /\
         exists res w3,
           @two_inserts baseline c tx1 f_1_0 (with_conn c w2) = (res, w3) /\
           @write_db baseline tx1 f_1_0 w = (res, w3) /\
           conn w3 = c /\ opened w3 = opened w + 1 /\
           reconnects (events_since w w3) = 1%nat /\
           match res with
           | inr _ =>
               exists r q, @raw_params baseline tx1 = inr r /\
                 @scored_params baseline tx1 f_1_0 = inr q /\
                 events_since w2 w3 =
                   [(Cursor c, None); (InsertRaw c r, None); (InsertScored c q, None)] /\
                 has_key raw_txn_id (raw_txn_id r) (tx_raw w3) = true /\
                 has_key sc_txn_id (sc_txn_id q) (tx_scored w3) = true
           | inl _ => True
           end
     end) /\
  (forall e w' m rest acc,
      @write_db baseline tx1 f_1_0 w = (inl e, w') ->
      @json_loads baseline (Body m) = inr tx1 -> score tx1 = inr f_1_0 ->
      @for_msgs baseline (m :: rest) acc w =
      @for_msgs baseline rest acc (print (LogMessageError (MessageId m) e) w')).
Proof.
  apply (@write_db_reconnects_once_and_replays baseline tx1 f_1_0 (fresh drop_once)).
  vm_compute. reflexivity.
Defined.

(** The connection drops on the first insert and the replay goes through:
    [write_db] returns, both rows are there, one connection was opened and
    the global handle is the new one. *)
Example reconnect_is_transparent :
  let '(r, w) := @write_db baseline tx1 f_1_0 (fresh drop_once) in
  r = inr tt /\ length (tx_raw w) = 1%nat /\ length (tx_scored w) = 1%nat /\
  reconnects (trace w) = 1%nat /\ conn w = 1 /\
  map fst (trace w) =
    [Cursor 0; InsertRaw 0 (match @raw_params baseline tx1 with
                            | inr r => r
                            | inl _ => Build_raw_row VNone VNone VNone VNone []
                            end);
     Connect; Cursor 1] ++ skipn 4 (map fst (trace w)) /\
  map snd (trace w) = [None; Some OperationalError; None; None; None; None].
Proof. vm_compute. repeat split. Qed.

Lemma failed_message_is_isolated_witness :
  let w := fresh second_persist_fails in
  let w1 := snd (@for_msgs baseline [msg1] [] w) in
  let w2 := snd (@process_message baseline msg2 w1) in
  let w3 := snd (@for_msgs baseline [msg3; msg4; msg5] []
                   (print (LogMessageError (MessageId msg2) OperationalError) w2)) in
  @for_msgs baseline ([msg1] ++ msg2 :: [msg3; msg4; msg5]) [] w =
    ([entry_of msg1] ++ [entry_of msg3; entry_of msg4; entry_of msg5], w3) /\
  (forall en, In en ([entry_of msg1] ++ [entry_of msg3; entry_of msg4; entry_of msg5]) ->
     exists evs, @archived_in baseline ([msg1] ++ [msg3; msg4; msg5]) en evs) /\
  acked w3 = acked w.
Proof.
  apply (@failed_message_is_isolated baseline [msg1] [msg3; msg4; msg5] msg2
           (fresh second_persist_fails)
           (snd (@for_msgs baseline [msg1] [] (fresh second_persist_fails)))
           (snd (@process_message baseline msg2
                   (snd (@for_msgs baseline [msg1] [] (fresh second_persist_fails)))))
           _ [entry_of msg1] [entry_of msg3; entry_of msg4; entry_of msg5]
           OperationalError);
    [vm_compute; reflexivity| |vm_compute; reflexivity].
  apply (@FailPersist baseline) with
    (tx := mk_tx "t2" "m7" "abc" "2024-05-01T10:00:00" (VInt 1100)) (s := f_1_0);
    vm_compute; reflexivity.
Defined.

(** A batch where the second body is not JSON: it is logged and left out,
    the third message is processed and acknowledged with the first. *)
Example malformed_message_is_skipped :
  let st := @consumer_loop baseline
              [RecvReturns (RespMessages [msg1; msg "2" (str "{ not json"); msg3])]
              (start (fresh [])) in
  acked (env st) = [entry_of msg1; entry_of msg3] /\
  In (Print (LogMessageError (str "2") JSONDecodeError), None) (trace (env st)) /\
  map raw_txn_id (tx_raw (env st)) = [VStr (str "t1"); VStr (str "t3")].
Proof. vm_compute. repeat split. right. right. right. right. right. now left. Qed.

(** C1 as stated fails: in a poll cycle whose only message is malformed,
    and in an idle cycle, no acknowledgment call is made. *)
Lemma no_ack_call_in_a_cycle_without_success :
  ack_calls (@cycle_events baseline (start (fresh []))
               (RecvReturns (RespMessages [msg "1" (str "{ not json")]))) = 0%nat /\
  ack_calls (@cycle_events baseline (start (fresh []))
               (RecvReturns RespNoMessages)) = 0%nat /\
  ack_calls (@cycle_events baseline (start (fresh []))
               (RecvReturns (RespMessages [msg1]))) = 1%nat.
Proof. vm_compute. repeat split. Qed.

Lemma payload_is_the_serialized_record_witness :
  let w := fresh [] in
  let w' := snd (@process_message baseline msg1 w) in
  exists tx, @json_loads baseline (Body msg1) = inr tx /\
    (forall c r o, In (InsertRaw c r, o) (events_since w w') ->
       raw_payload r = @json_dumps baseline tx) /\
    (forall id, subscript tx (str "txn_id") = inr id ->
       has_key raw_txn_id id (tx_raw w) = false ->
       exists r, In r (tx_raw w') /\ raw_txn_id r = id /\
                 raw_payload r = @json_dumps baseline tx).
Proof.
  apply (@payload_is_the_serialized_record baseline msg1 (fresh [])
           (snd (@process_message baseline msg1 (fresh []))) (entry_of msg1)).
  vm_compute. reflexivity.
Defined.

(** C8 as stated fails: a body without the spaces of [json.dumps] is
    processed and acknowledged, and the payload stored is not the body. *)
Lemma payload_is_not_the_body_verbatim :
  let m := msg "1" compact_body in
  let st := @consumer_loop baseline [RecvReturns (RespMessages [m])] (start (fresh [])) in
  acked (env st) = [entry_of m] /\
  map raw_payload (tx_raw (env st)) = [body_of "t1" "abc" 1000] /\
  body_of "t1" "abc" 1000 <> Body m.
Proof. vm_compute. repeat split. discriminate. Qed.
(* ================================================================== *)
(** * The scorer: where it returns and what it raises *)

Lemma utf8_char_some (c : Z) (bs : list Z) :
  utf8_char c = Some bs -> 0 <= c < 0x110000 /\ is_surrogate c = false.
Proof.
  unfold utf8_char, is_surrogate.
  destruct (c <? 0) eqn:E0; [discriminate|].
  destruct (c <? 0x80) eqn:E1; [intros _; split; lia|].
  destruct (c <? 0x800) eqn:E2; [intros _; split; lia|].
  destruct ((0xD800 <=? c) && (c <=? 0xDFFF)) eqn:E3; [discriminate|].
  destruct (c <? 0x10000) eqn:E4; [intros _; split; [lia|reflexivity]|].
  destruct (c <? 0x110000) eqn:E5; [intros _; split; [lia|reflexivity]|discriminate].
Qed.

Lemma encode_returns_iff (s : pystr) : (exists bytes, encode s = inr bytes) <-> encodable s.
Proof.
  split; [|apply encode_total].
  induction s as [|c s IH]; intros [bytes H]; [constructor|].
  simpl in H. destruct (utf8_char c) as [bs|] eqn:Ec; [|discriminate].
  destruct (encode s) as [e|rest]; [discriminate|].
  constructor; [eapply utf8_char_some; eauto|]. apply IH. eauto.
Qed.

Lemma encode_raises (s : pystr) (e : exn) : encode s = inl e -> e = UnicodeEncodeError.
Proof.
  destruct s as [|c s]; simpl; [discriminate|].
  destruct (utf8_char c); [destruct (encode s)|]; congruence.
Qed.

(** The rounding does not look at the sign. *)
Lemma binary_round_opp (m : positive) (e : Z) :
  binary_round prec emax true m e = SFopp (binary_round prec emax false m e).
Proof.
  unfold binary_round, binary_round_aux.
  destruct (shl_align m e _) as [mz ez].
  destruct (shr_fexp prec emax (Z.pos mz) ez loc_Exact) as [mrs e1].
  destruct (shr_fexp prec emax _ e1 loc_Exact) as [mrs2 e2].
  destruct (shr_m mrs2); try reflexivity.
  destruct (e2 <=? emax - prec); reflexivity.
Qed.

Lemma float_of_Z_opp (z : Z) : 0 < z -> float_of_Z (- z) = SFopp (float_of_Z z).
Proof.
  destruct z as [|p|p]; try lia. intros _. apply binary_round_opp.
Qed.

Lemma int_to_float_returns_iff (z : Z) :
  (exists f, int_to_float z = inr f) <-> - (2 ^ 1024 - 2 ^ 970) < z < 2 ^ 1024 - 2 ^ 970.
Proof.
  destruct (Z_lt_le_dec z 0) as [Hn|Hp].
  - assert (E : int_to_float z = match int_to_float (- z) with
                                 | inl e => inl e
                                 | inr f => inr (SFopp f)
                                 end).
    { unfold int_to_float. replace z with (- - z) at 1 by lia.
      rewrite float_of_Z_opp by lia. now destruct (float_of_Z (- z)). }
    rewrite E. split.
    + intros [f Hf]. destruct (Z_lt_le_dec (- z) (2 ^ 1024 - 2 ^ 970)) as [|Hbig].
      * lia.
      * rewrite int_overflows in Hf by exact Hbig. discriminate.
    + intros H. destruct (int_converts (- z)) as [-> _]; [lia|]. eauto.
  - split.
    + intros [f Hf]. destruct (Z_lt_le_dec z (2 ^ 1024 - 2 ^ 970)) as [|Hbig]; [lia|].
      rewrite int_overflows in Hf by exact Hbig. discriminate.
    + intros H. destruct (int_converts z) as [-> _]; [lia|]. eauto.
Qed.

Lemma as_float_returns_iff (a : pyval) :
  (exists f, as_float a = inr f) <-> amount_accepted a.
Proof.
  destruct a as [|b|z|g|s|l|d']; simpl; try (split; [intros [f H]; discriminate|tauto]).
  - split; [tauto|intros _]. destruct b; vm_compute; eauto.
  - apply int_to_float_returns_iff.
  - split; eauto.
Qed.

Lemma int_to_float_raises (z : Z) (e : exn) : int_to_float z = inl e -> e = OverflowError.
Proof. unfold int_to_float. destruct (float_of_Z z); congruence. Qed.

(** X1.  [score] returns exactly on the dicts whose [card_hash] is a string
    without a lone surrogate and whose [amount] is a float, a bool, or an
    int strictly between -(2^1024 - 2^970) and 2^1024 - 2^970. *)
Theorem score_returns_iff (tx : pyval) :
  (exists s, score tx = inr s) <->
  exists d card a, tx = VDict d /\
    dict_get (str "card_hash") d = Some (VStr card) /\ encodable card /\
    dict_get (str "amount") d = Some a /\ amount_accepted a.
Proof.
  split.
  - intros [s H]. destruct tx as [|b|z|g|s0|l|d]; try discriminate.
    exists d. unfold score, subscript in H.
    destruct (dict_get (str "card_hash") d) as [c|]; [|discriminate].
    destruct c as [|b|z|g|card|l|d']; try discriminate. simpl in H.
    destruct (encode card) as [e|bytes] eqn:Ee; [discriminate|].
    destruct (dict_get (str "amount") d) as [a|]; [|discriminate].
    destruct (as_float a) as [e|f] eqn:Ea; [discriminate|].
    exists card, a. repeat split; auto.
    + apply encode_returns_iff. eauto.
    + apply as_float_returns_iff. eauto.
  - intros (d & card & a & -> & Hc & He & Ha & Hacc).
    unfold score, subscript. rewrite Hc, Ha. simpl.
    destruct (encode_total card He) as [bytes ->].
    apply as_float_returns_iff in Hacc as [f ->]. eauto.
Qed.

(** X2.  [score] raises exactly in the seven ways of [score_raises], with the
    exception each one names: the subscript of a value that is no dict, a
    missing [card_hash], a [card_hash] that is no string or holds a lone
    surrogate, then a missing [amount], an [amount] that is no number, an
    int [amount] whose nearest float is infinite. *)
Theorem score_raises_iff (tx : pyval) (e : exn) :
  score tx = inl e <-> score_raises tx e.
Proof.
  split.
  - intros H. destruct tx as [|b|z|g|s0|l|d];
      try (injection H as <-; constructor; discriminate).
    unfold score, subscript in H.
    destruct (dict_get (str "card_hash") d) as [c|] eqn:Hc;
      [|injection H as <-; now constructor].
    destruct c as [|b|z|g|card|l|d'];
      try (injection H as <-; apply RaisesCardNotStr with (c := _) (1 := Hc); discriminate).
    simpl in H. destruct (encode card) as [e0|bytes] eqn:Ee.
    { injection H as <-. rewrite (encode_raises _ _ Ee).
      apply RaisesSurrogate with card; [assumption|].
      intros Hen. apply encode_total in Hen as [b Hb]. congruence. }
    assert (Hen : encodable card) by (apply encode_returns_iff; eauto).
    destruct (dict_get (str "amount") d) as [a|] eqn:Ha;
      [|injection H as <-; now apply RaisesNoAmount with card].
    destruct (as_float a) as [e0|f] eqn:Ea; [|discriminate]. injection H as <-.
    destruct a as [|b|z|g|s|l|d']; simpl in Ea;
      try (injection Ea as <-; apply (RaisesAmountNotNumber d card _ Hc Hen Ha); exact I).
    + destruct b; vm_compute in Ea; discriminate.
    + rewrite (int_to_float_raises _ _ Ea).
      apply RaisesAmountTooLarge with card z; auto.
      destruct (Z_lt_le_dec (- (2 ^ 1024 - 2 ^ 970)) z) as [H1|H1]; [|now left].
      destruct (Z_lt_le_dec z (2 ^ 1024 - 2 ^ 970)) as [H2|H2]; [|now right].
      destruct (proj2 (int_to_float_returns_iff z) (conj H1 H2)) as [f Hf]. congruence.
    + discriminate.
  - intros H. destruct H as [tx Hn|d Hc|d c Hc Hn|d card Hc Hn|d card Hc He Ha
                             |d card a Hc He Ha Hn|d card z Hc He Ha Hz].
    + destruct tx; try reflexivity. now destruct (Hn d).
    + unfold score, subscript. now rewrite Hc.
    + unfold score, subscript. rewrite Hc.
      destruct c; try reflexivity. now destruct (Hn s).
    + unfold score, subscript. rewrite Hc. simpl.
      destruct (encode card) as [e0|bytes] eqn:Ee.
      * now rewrite (encode_raises _ _ Ee).
      * destruct Hn. apply encode_returns_iff. eauto.
    + unfold score, subscript. rewrite Hc, Ha. simpl.
      now destruct (encode_total card He) as [bytes ->].
    + unfold score, subscript. rewrite Hc, Ha. simpl.
      destruct (encode_total card He) as [bytes ->].
      destruct a; try contradiction; reflexivity.
    + unfold score, subscript. rewrite Hc, Ha. simpl.
      destruct (encode_total card He) as [bytes ->].
      destruct (int_to_float z) as [e0|f] eqn:Ez.
      * now rewrite (int_to_float_raises _ _ Ez).
      * exfalso. assert (- (2 ^ 1024 - 2 ^ 970) < z < 2 ^ 1024 - 2 ^ 970)
          by (apply int_to_float_returns_iff; eauto). lia.
Qed.

(* ================================================================== *)
(** * The scorer: where the clamp acts *)

Lemma pymin_at_cap (x : float) :
  fleb f_1_0 (pymin f_1_0 x) = true -> pymin f_1_0 x = f_1_0.
Proof.
  unfold pymin, fltb. destruct (SFltb x f_1_0) eqn:L; [|reflexivity].
  intros H. exfalso. unfold SFltb in L. unfold fleb, SFleb in H.
  destruct (SFcompare x f_1_0) as [c|] eqn:E; [|discriminate].
  rewrite (SFcompare_antisym _ _ _ E) in H. destruct c; discriminate.
Qed.

Lemma buckets_table (P : Z -> bool) (h : Z) :
  forallb (fun n => P (Z.of_nat n)) (seq 0 100) = true -> 0 <= h < 100 -> P h = true.
Proof.
  intros H Hh. rewrite forallb_forall in H. specialize (H (Z.to_nat h)).
  rewrite Z2Nat.id in H by lia. apply H, in_seq. lia.
Qed.

(** The sum [score] clamps. *)
Lemma weighted_sum_good (h : Z) (a : float) :
  0 <= h -> good a ->
  good (fadd (fmul f_0_3 (fdiv a f_500)) (fmul f_0_7 (fdiv (float_of_Z h) f_100))).
Proof.
  intros Hh Ga. apply fadd_good.
  - apply fmul_good; [vm_compute; discriminate|]. now apply fdiv_good.
  - apply fmul_good; [vm_compute; discriminate|]. apply fdiv_good. now apply float_of_Z_good.
Qed.

Lemma weighted_sum_mono (h : Z) (a1 a2 : float) :
  0 <= h -> good a1 -> good a2 -> SFleb a1 a2 = true ->
  SFleb (fadd (fmul f_0_3 (fdiv a1 f_500)) (fmul f_0_7 (fdiv (float_of_Z h) f_100)))
        (fadd (fmul f_0_3 (fdiv a2 f_500)) (fmul f_0_7 (fdiv (float_of_Z h) f_100))) = true.
Proof.
  intros Hh G1 G2 Hle. apply fadd_mono.
  - apply fmul_good; [vm_compute; discriminate|]. now apply fdiv_good.
  - apply fmul_good; [vm_compute; discriminate|]. now apply fdiv_good.
  - apply fmul_good; [vm_compute; discriminate|]. apply fdiv_good. now apply float_of_Z_good.
  - apply fmul_mono; [vm_compute; discriminate| | |].
    + now apply fdiv_good.
    + now apply fdiv_good.
    + now apply fdiv_mono.
Qed.

(** X3.  From an amount of 1667 on, the score is 1.0 whatever the card: the
    amount term 0.3 * (amount / 500.0) alone reaches 1.0. *)
Theorem score_is_one_from_1667_on (d : dict) (card : pystr) (a : pyval) :
  dict_get (str "card_hash") d = Some (VStr card) ->
  encodable card ->
  dict_get (str "amount") d = Some a ->
  amount_converts a ->
  amount_le (VInt 1667) a ->
  score (VDict d) = inr f_1_0.
Proof.
  intros Hc He Ha Ca Hle.
  assert (P0 : amount_ge_0 (VInt 1667)) by (simpl; lia).
  assert (C0 : amount_converts (VInt 1667)) by (simpl; lia).
  pose proof (amount_le_ge_0 _ _ P0 Hle) as Pa.
  destruct (as_float_mono _ _ P0 Pa C0 Ca Hle) as (f1 & f2 & E1 & E2 & G1 & G2 & L).
  assert (f1 = float_of_Z 1667) by (vm_compute in E1; vm_compute; congruence). subst f1.
  unfold score, subscript. rewrite Hc, Ha. simpl.
  destruct (encode_total card He) as [bytes ->].
  set (h := int16 _ mod 100).
  assert (Hh : 0 <= h < 100) by (apply Z.mod_pos_bound; lia).
  rewrite E2. f_equal. clearbody h.
  pose proof (score_of_mono h _ _ (proj1 Hh) G1 G2 L) as M.
  pose proof (buckets_table
                (fun h => pyval_eqb (VFloat (score_of h (float_of_Z 1667))) (VFloat f_1_0))
                h ltac:(vm_compute; reflexivity) Hh) as T.
  cbv beta in T. apply pyval_eqb_eq in T.
  assert (E : score_of h (float_of_Z 1667) = f_1_0) by (injection T as E0; exact E0).
  rewrite E in M. apply pymin_at_cap. exact M.
Qed.

Lemma leb_trans_good (a b c : float) :
  good a -> good b -> good c ->
  SFleb a b = true -> SFleb b c = true -> SFleb a c = true.
Proof.
  intros Ga Gb Gc Hab Hbc.
  destruct a as [sa|sa| |sa ma ea]; simpl in Ga; try contradiction.
  - now apply leb_zero_good.
  - subst sa. destruct b as [sb|sb| |sb mb eb]; simpl in Gb; try contradiction;
      try discriminate. subst sb.
    destruct c as [sc|sc| |sc mc ec]; simpl in Gc; try contradiction; try discriminate.
    now subst sc.
  - destruct Ga as [-> _].
    destruct b as [sb|sb| |sb mb eb]; simpl in Gb; try contradiction; try discriminate.
    + subst sb. destruct c as [sc|sc| |sc mc ec]; simpl in Gc; try contradiction;
        try discriminate. now subst sc.
    + destruct Gb as [-> _].
      destruct c as [sc|sc| |sc mc ec]; simpl in Gc; try contradiction; try discriminate.
      * now subst sc.
      * destruct Gc as [-> _]. apply leb_finite_iff in Hab, Hbc. apply leb_finite_iff. lia.
Qed.

(** X4.  Up to an amount of 500 the clamp does not act: the score is the
    weighted sum itself, and it is below 1.0. *)
Theorem score_is_below_one_up_to_500 (d : dict) (card : pystr) (a : pyval) :
  dict_get (str "card_hash") d = Some (VStr card) ->
  encodable card ->
  dict_get (str "amount") d = Some a ->
  amount_ge_0 a ->
  amount_converts a ->
  amount_le a (VInt 500) ->
  exists h amount,
    hash_bucket (VStr card) = inr h /\ as_float a = inr amount /\
    let sum := fadd (fmul f_0_3 (fdiv amount f_500))
                    (fmul f_0_7 (fdiv (float_of_Z h) f_100)) in
    score (VDict d) = inr sum /\ fltb sum f_1_0 = true.
Proof.
  intros Hc He Ha Pa Ca Hle.
  assert (P5 : amount_ge_0 (VInt 500)) by (simpl; lia).
  assert (C5 : amount_converts (VInt 500)) by (simpl; lia).
  destruct (as_float_mono _ _ Pa P5 Ca C5 Hle) as (f1 & f2 & E1 & E2 & G1 & G2 & L).
  assert (f2 = float_of_Z 500) by (vm_compute in E2; vm_compute; congruence). subst f2.
  unfold score, subscript. rewrite Hc, Ha. simpl.
  destruct (encode_total card He) as [bytes ->].
  set (h := int16 _ mod 100).
  assert (Hh : 0 <= h < 100) by (apply Z.mod_pos_bound; lia).
  exists h, f1. split; [reflexivity|]. split; [exact E1|]. rewrite E1. clearbody h.
  pose proof (weighted_sum_mono h _ _ (proj1 Hh) G1 G2 L) as M.
  pose proof (buckets_table
                (fun h => fltb (fadd (fmul f_0_3 (fdiv (float_of_Z 500) f_500))
                                     (fmul f_0_7 (fdiv (float_of_Z h) f_100))) f_1_0)
                h ltac:(vm_compute; reflexivity) Hh) as T.
  cbv beta in T.
  assert (B : fltb (fadd (fmul f_0_3 (fdiv f1 f_500))
                         (fmul f_0_7 (fdiv (float_of_Z h) f_100))) f_1_0 = true).
  { eapply leb_ltb_trans; [| |exact M|exact T]; apply weighted_sum_good; auto; lia. }
  split; [|exact B]. unfold score_of, pymin. cbv zeta. now rewrite B.
Qed.

(* ================================================================== *)
(** * The producer and the scorer *)

Lemma hex_digit_ascii (n : Z) : 0 <= n < 16 -> 48 <= Sha256.hex_digit n < 128.
Proof. unfold Sha256.hex_digit. destruct (n <? 10) eqn:E; lia. Qed.

Lemma encodable_app (a b : pystr) : encodable a -> encodable b -> encodable (a ++ b).
Proof. unfold encodable. intros. now apply Forall_app. Qed.

Lemma encodable_char (c : Z) : 0 <= c < 128 -> 0 <= c < 0x110000 /\ is_surrogate c = false.
Proof. intros H. unfold is_surrogate. split; [lia|]. apply andb_false_iff. left. lia. Qed.

Lemma hex_digits_encodable (n : nat) (v : Z) : encodable (hex_digits n v).
Proof.
  unfold hex_digits, encodable. apply Forall_map, Forall_forall. intros i _.
  apply encodable_char.
  pose proof (hex_digit_ascii (Z.shiftr v (4 * Z.of_nat i) mod 16)
                              ltac:(apply Z.mod_pos_bound; lia)). lia.
Qed.

Lemma uuid_str_encodable (u : Z) : encodable (uuid_str u).
Proof.
  unfold uuid_str.
  repeat (apply encodable_app;
          [first [apply hex_digits_encodable
                 |repeat constructor; vm_compute; intuition discriminate]|]).
  apply hex_digits_encodable.
Qed.

(** What the consumer reads in a dict of the five fields in the order of
    the producer. *)
Lemma five_fields {R : Runtime} (id mid ts : pyval) (card : pystr) (amount : float)
      (s : float) :
  let tx := VDict [(str "txn_id", id); (str "amount", VFloat amount);
                   (str "merchant_id", mid); (str "card_hash", VStr card);
                   (str "ts", ts)] in
  subscript tx (str "card_hash") = inr (VStr card) /\
  subscript tx (str "amount") = inr (VFloat amount) /\
  raw_params tx = inr {| raw_txn_id := id; raw_amount := VFloat amount;
                         raw_merchant_id := mid; raw_ts := ts;
                         raw_payload := json_dumps tx |} /\
  scored_params tx s =
    inr {| sc_txn_id := id; sc_ts := ts; sc_amount := VFloat amount;
           sc_merchant_id := mid; sc_score := s;
           sc_features := json_dumps (VDict [(str "model", VStr MODEL_VERSION)]) |}.
Proof.
  cbv zeta.
  assert (E1 : forall v, subscript (VDict [(str "txn_id", id); (str "amount", VFloat amount);
                   (str "merchant_id", mid); (str "card_hash", VStr card);
                   (str "ts", ts)]) (str "card_hash") = v -> v = inr (VStr card))
    by (intros v <-; reflexivity).
  assert (E2 : forall v, subscript (VDict [(str "txn_id", id); (str "amount", VFloat amount);
                   (str "merchant_id", mid); (str "card_hash", VStr card);
                   (str "ts", ts)]) (str "amount") = v -> v = inr (VFloat amount))
    by (intros v <-; reflexivity).
  assert (E3 : forall v, subscript (VDict [(str "txn_id", id); (str "amount", VFloat amount);
                   (str "merchant_id", mid); (str "card_hash", VStr card);
                   (str "ts", ts)]) (str "txn_id") = v -> v = inr id)
    by (intros v <-; reflexivity).
  assert (E4 : forall v, subscript (VDict [(str "txn_id", id); (str "amount", VFloat amount);
                   (str "merchant_id", mid); (str "card_hash", VStr card);
                   (str "ts", ts)]) (str "merchant_id") = v -> v = inr mid)
    by (intros v <-; reflexivity).
  assert (E5 : forall v, subscript (VDict [(str "txn_id", id); (str "amount", VFloat amount);
                   (str "merchant_id", mid); (str "card_hash", VStr card);
                   (str "ts", ts)]) (str "ts") = v -> v = inr ts)
    by (intros v <-; reflexivity).
  set (tx := VDict _) in *.
  split; [now apply E1|]. split; [now apply E2|].
  unfold raw_params, scored_params.
  rewrite (E3 _ eq_refl), (E2 _ eq_refl), (E4 _ eq_refl), (E5 _ eq_refl). split; reflexivity.
Qed.

(** X6.  Every transaction the producer builds goes through the scorer and
    through the parameters of both inserts: its score lies between 0.48 and
    1.0, and no field is missing. *)
Theorem producer_tx_is_scored {R : Runtime} (x : draw) :
  drawn x ->
  exists s r q,
    score (producer_tx x) = inr s /\
    fleb f_0_48 s = true /\ fleb s f_1_0 = true /\
    raw_params (producer_tx x) = inr r /\
    raw_txn_id r = VStr (uuid_str (draw_txn x)) /\
    scored_params (producer_tx x) s = inr q.
Proof.
  intros (V & Lo & Hi).
  assert (G8 : good (float_of_Z 800)) by (apply float_of_Z_good; lia).
  assert (Ga : good (draw_amount x)).
  { destruct (draw_amount x) as [s|s| |s m e].
    - exact I.
    - destruct s; [discriminate Lo|reflexivity].
    - discriminate Lo.
    - destruct s; [discriminate Lo|]. unfold good. split; [reflexivity|exact V]. }
  destruct (encode_total _ (uuid_str_encodable (draw_card x))) as [bytes Eb].
  set (h := int16 (Sha256.hexdigest bytes) mod 100).
  assert (Hh : 0 <= h < 100) by (apply Z.mod_pos_bound; lia).
  unfold producer_tx.
  generalize dependent (uuid_str (draw_card x)). intros card Eb.
  generalize (VStr (uuid_str (draw_txn x))) (VStr (str "m" ++ int_repr (draw_merchant x)))
             (VStr (draw_ts x)).
  intros id mid ts.
  destruct (five_fields id mid ts card (draw_amount x) (score_of h (draw_amount x)))
    as (F1 & F2 & F3 & F4).
  set (tx := VDict _) in *.
  assert (Es : score tx = inr (score_of h (draw_amount x))).
  { unfold score. rewrite F1, F2. cbn [hash_bucket as_float]. rewrite Eb. reflexivity. }
  clearbody h tx.
  exists (score_of h (draw_amount x)). eexists. eexists.
  split; [exact Es|split; [|split; [|split; [exact F3|split; [reflexivity|exact F4]]]]].
  - pose proof (buckets_table (fun h => fleb f_0_48 (score_of h (float_of_Z 800)))
                  h ltac:(vm_compute; reflexivity) Hh) as T.
    cbv beta in T.
    apply (leb_trans_good _ (score_of h (float_of_Z 800)));
      [split; reflexivity
      |apply score_of_good; [lia|exact G8]
      |apply score_of_good; [lia|exact Ga]
      |exact T
      |apply score_of_mono; [lia|exact G8|exact Ga|exact Lo]].
  - apply score_of_bounds; [lia|].
    destruct (draw_amount x) as [s|s| |s m e]; simpl in Ga |- *; auto.
    + now subst s.
    + now destruct Ga as [-> _].
Qed.

(* ================================================================== *)
(** * [pg_connect]: the retries *)

Lemma pg_connect_from_failures (es : list exn) :
  forall (n : nat) (delay : Z) (last : option exn) (w : world) (rest : list (option exn)),
  faults w = map Some es ++ rest ->
  pg_connect_from (length es + n) delay last w =
  pg_connect_from n delay (match rev es with e :: _ => Some e | [] => last end)
    {| tx_raw := tx_raw w; tx_scored := tx_scored w; bucket := bucket w;
       acked := acked w; conn := conn w; opened := opened w;
       clock := clock w + delay * Z.of_nat (length es);
       faults := rest; trace := trace w ++ failed_attempts delay es |}.
Proof.
  induction es as [|e es IH]; intros n delay last w rest Hf.
  - simpl in *. destruct w; simpl in *. subst. rewrite Z.mul_0_r, Z.add_0_r, app_nil_r.
    reflexivity.
  - destruct w as [raw sc bk ak cn op ck fs tr]. simpl in Hf. subst fs.
    change (length (e :: es) + n)%nat with (S (length es + n)).
    change (length (e :: es)) with (S (length es)). rewrite Nat2Z.inj_succ.
    cbn [pg_connect_from]. unfold connect_once, external.
    cbn [faults]. cbv iota beta.
    rewrite (IH n delay (Some e) _ rest); [|reflexivity].
    unfold sleep, emit, with_faults, with_clock.
    cbn [tx_raw tx_scored bucket acked conn opened clock faults trace].
    f_equal.
    + simpl rev. destruct (rev es) as [|e' l]; reflexivity.
    + f_equal; [lia|]. simpl. now rewrite <- !app_assoc.
Qed.

(** X7.  When all ten attempts raise, [pg_connect] raises the exception of
    the tenth, after ten sleeps of three seconds (one after the last attempt
    too), and no connection is opened. *)
Theorem pg_connect_raises_the_last_error (es : list exn) (e : exn) (w : world)
        (rest : list (option exn)) :
  length es = 9%nat ->
  faults w = map Some (es ++ [e]) ++ rest ->
  pg_connect w =
    (inl e,
     {| tx_raw := tx_raw w; tx_scored := tx_scored w; bucket := bucket w;
        acked := acked w; conn := conn w; opened := opened w;
        clock := clock w + 30;
        faults := rest; trace := trace w ++ failed_attempts 3 (es ++ [e]) |}).
Proof.
  intros Hl Hf. unfold pg_connect.
  replace 10%nat with (length (es ++ [e]) + 0)%nat
    by (rewrite length_app, Hl; reflexivity).
  rewrite (pg_connect_from_failures _ _ _ _ _ _ Hf).
  rewrite rev_app_distr. simpl. unfold raise.
  rewrite length_app, Hl. reflexivity.
Qed.

(** X8.  When the first [k] attempts raise ([k] below ten) and the next one
    goes through, [pg_connect] returns the connection it opened, after [k]
    sleeps of three seconds. *)
Theorem pg_connect_returns_after_failures (es : list exn) (w : world)
        (rest : list (option exn)) :
  (length es < 10)%nat ->
  faults w = map Some es ++ None :: rest ->
  pg_connect w =
    (inr (opened w + 1),
     {| tx_raw := tx_raw w; tx_scored := tx_scored w; bucket := bucket w;
        acked := acked w; conn := conn w; opened := opened w + 1;
        clock := clock w + 3 * Z.of_nat (length es);
        faults := rest;
        trace := trace w ++ failed_attempts 3 es ++ [(Connect, None)] |}).
Proof.
  intros Hl Hf. unfold pg_connect.
  replace 10%nat with (length es + S (9 - length es))%nat by lia.
  rewrite (pg_connect_from_failures _ _ _ _ _ _ Hf).
  cbn [pg_connect_from]. unfold connect_once, external.
  cbn [faults]. cbv iota beta.
  unfold with_opened, emit, with_faults.
  cbn [tx_raw tx_scored bucket acked conn opened clock faults trace].
  now rewrite <- app_assoc.
Qed.

(* ================================================================== *)
(** * The relational writer: missing fields, and a unit cut in two *)

Section WriterEdges.
Context {R : Runtime}.

Lemma params_of_missing_field (d : dict) (s : float) (k : pystr) :
  In k [str "txn_id"; str "amount"; str "merchant_id"; str "ts"] ->
  dict_get k d = None ->
  (exists k', raw_params (VDict d) = inl (KeyError k')) /\
  (exists k', scored_params (VDict d) s = inl (KeyError k')).
Proof.
  intros Hk Hn. unfold raw_params, scored_params, subscript.
  destruct (dict_get (str "txn_id") d) eqn:E1; [|split; eauto].
  destruct (dict_get (str "amount") d) eqn:E2;
    destruct (dict_get (str "merchant_id") d) eqn:E3;
    destruct (dict_get (str "ts") d) eqn:E4; try solve [split; eauto].
  exfalso. simpl in Hk. destruct Hk as [<-|[<-|[<-|[<-|[]]]]]; congruence.
Qed.

(** X9.  A transaction that lacks one of [txn_id], [amount], [merchant_id]
    and [ts] is never written: whatever the environment does, [write_db]
    raises and leaves both tables as they were; when no call fails, what it
    raises is the [KeyError], right after the cursor was opened. *)
Theorem write_db_missing_field_writes_nothing
        (d : dict) (s : float) (k : pystr) (w w' : world) (res : exn + unit) :
  In k [str "txn_id"; str "amount"; str "merchant_id"; str "ts"] ->
  dict_get k d = None ->
  write_db (VDict d) s w = (res, w') ->
  (exists e, res = inl e) /\
  tx_raw w' = tx_raw w /\ tx_scored w' = tx_scored w /\
  (faults w = [] ->
   (exists k', res = inl (KeyError k')) /\
   events_since w w' = [(Cursor (conn w), None)]).
Proof.
  intros Hk Hn H.
  destruct (params_of_missing_field d s k Hk Hn) as [[k1 E1] [k2 E2]].
  pose proof (write_db_spec _ _ _ _ _ H) as (_ & _ & Hraw & Hsc & evs & _ & _ & _ & _ & Hres).
  split; [|split; [|split]].
  - destruct res as [e|[]]; [eauto|].
    destruct Hres as (r & q & pre & Hr & _). congruence.
  - destruct Hraw as [->|[x [Hx _]]]; [reflexivity|congruence].
  - destruct Hsc as [->|[x [Hx _]]]; [reflexivity|congruence].
  - intros Hf. rewrite write_db_unfold in H.
    destruct w as [raw sc bk ak cn op ck fs tr]. simpl in Hf. subst fs.
    unfold two_inserts, bind, lift, external in H. simpl in H.
    rewrite E1 in H. simpl in H. injection H as <- <-.
    split; [eauto|]. now apply events_since_app.
Qed.

(** X10.  The two inserts are not one transaction: when the second insert
    raises an exception other than [OperationalError], [write_db] raises it
    without reconnecting, and the row of [tx_raw] written just before stays,
    with no row in [tx_scored]. *)
Theorem write_db_is_not_atomic (tx : pyval) (s : float) (w : world) (e : exn)
        (r : raw_row) (q : scored_row) (rest : list (option exn)) :
  faults w = None :: None :: Some e :: rest ->
  e <> OperationalError ->
  raw_params tx = inr r ->
  scored_params tx s = inr q ->
  has_key raw_txn_id (raw_txn_id r) (tx_raw w) = false ->
  exists w', write_db tx s w = (inl e, w') /\
    tx_raw w' = tx_raw w ++ [r] /\ tx_scored w' = tx_scored w /\
    conn w' = conn w /\ opened w' = opened w /\ faults w' = rest /\
    events_since w w' = [(Cursor (conn w), None); (InsertRaw (conn w) r, None);
                         (InsertScored (conn w) q, Some e)].
Proof.
  intros Hf He Hr Hq Hk. rewrite write_db_unfold.
  destruct w as [raw sc bk ak cn op ck fs tr]. simpl in Hf, Hk. subst fs.
  unfold two_inserts, bind, lift, execute_raw, execute_scored, external. simpl.
  rewrite Hr. simpl. rewrite Hq. simpl.
  unfold insert_do_nothing. rewrite Hk.
  eexists. split.
  - destruct e; try reflexivity. now destruct He.
  - simpl. repeat split. apply events_since_app. simpl. now rewrite <- !app_assoc.
Qed.

End WriterEdges.

(* ================================================================== *)
(** * The store only grows *)

Lemma store_grows_refl (w : world) : store_grows w w.
Proof.
  unfold store_grows. repeat split; try (exists []; now rewrite app_nil_r); auto.
Qed.

Lemma store_grows_trans (w1 w2 w3 : world) :
  store_grows w1 w2 -> store_grows w2 w3 -> store_grows w1 w3.
Proof.
  intros ([r1 R1] & [s1 S1] & [b1 B1] & U1 & V1) ([r2 R2] & [s2 S2] & [b2 B2] & U2 & V2).
  unfold store_grows. repeat split.
  - exists (r1 ++ r2). now rewrite R2, R1, app_assoc.
  - exists (s1 ++ s2). now rewrite S2, S1, app_assoc.
  - exists (b1 ++ b2). now rewrite B2, B1, app_assoc.
  - auto.
  - auto.
Qed.

Lemma store_grows_same (w w' : world) :
  tx_raw w' = tx_raw w -> tx_scored w' = tx_scored w -> bucket w' = bucket w ->
  store_grows w w'.
Proof.
  intros H1 H2 H3. unfold store_grows. rewrite H1, H2, H3.
  repeat split; try (exists []; now rewrite app_nil_r); auto.
Qed.

Lemma row_added_grows {A} (key : A -> pyval) (p : exn + A) (t t' : list A) :
  row_added key p t t' ->
  (exists rows, t' = t ++ rows) /\ (unique_keys key t -> unique_keys key t').
Proof.
  intros H. split; [|intros U; eapply unique_keys_row_added; eauto].
  destruct H as [->|[x [_ ->]]]; [exists []; now rewrite app_nil_r|].
  unfold insert_do_nothing. destruct (has_key key (key x) t); eauto.
  exists []. now rewrite app_nil_r.
Qed.

Lemma has_key_grows {A} (key : A -> pyval) (k : pyval) (t rows : list A) :
  has_key key k t = true -> has_key key k (t ++ rows) = true.
Proof. unfold has_key. rewrite existsb_app. now intros ->. Qed.

Section Store.
Context {R : Runtime}.

Lemma write_db_grows (tx : pyval) (s : float) (w w' : world) (res : exn + unit) :
  write_db tx s w = (res, w') -> store_grows w w'.
Proof.
  intros H. pose proof (write_db_spec _ _ _ _ _ H) as (B & _ & Hr & Hs & _).
  destruct (row_added_grows _ _ _ _ Hr) as [P1 U1].
  destruct (row_added_grows _ _ _ _ Hs) as [P2 U2].
  unfold store_grows. repeat split; auto. exists []. now rewrite app_nil_r.
Qed.

Lemma write_s3_grows (rec : pyval) (w w' : world) (res : exn + unit) :
  write_s3 rec w = (res, w') -> store_grows w w'.
Proof.
  intros H. pose proof (write_s3_spec _ _ _ _ H) as (Hr & Hs & _ & _ & _ & Hres).
  unfold store_grows. rewrite Hr, Hs.
  repeat split; try (exists []; now rewrite app_nil_r); auto.
  destruct res as [e|[]].
  - destruct Hres as [-> _]. exists []. now rewrite app_nil_r.
  - destruct Hres as (bytes & _ & _ & ->). eauto.
Qed.

Lemma process_message_grows (m : message) (w w' : world) (res : exn + entry) :
  process_message m w = (res, w') -> store_grows w w'.
Proof.
  rewrite process_message_unfold.
  destruct (json_loads (Body m)) as [e0|tx]; [intros [= _ <-]; apply store_grows_refl|].
  destruct (score tx) as [e0|s]; [intros [= _ <-]; apply store_grows_refl|].
  destruct (write_db tx s w) as [r1 w1] eqn:Ew.
  pose proof (write_db_grows _ _ _ _ _ Ew) as G1.
  destruct r1 as [e0|[]]; [now intros [= _ <-]|].
  destruct (scored_record tx s) as [e0|rec]; [now intros [= _ <-]|].
  destruct (write_s3 rec w1) as [r2 w2] eqn:E2.
  pose proof (write_s3_grows _ _ _ _ E2) as G2.
  destruct r2 as [e0|[]]; intros [= _ <-]; eapply store_grows_trans; eauto.
Qed.

Lemma stored_grows (m : message) (w w' : world) :
  stored m w -> store_grows w w' -> stored m w'.
Proof.
  intros (tx & s & id & rec & bytes & k & Hj & Hs & Hid & Kr & Ks & Hrec & Hb & Hin)
         ([r Er] & [q Eq] & [b Eb] & _).
  exists tx, s, id, rec, bytes, k. repeat split; auto.
  - rewrite Er. now apply has_key_grows.
  - rewrite Eq. now apply has_key_grows.
  - rewrite Eb. apply in_or_app. now left.
Qed.

Lemma process_message_stored (m : message) (w w' : world) (en : entry) :
  process_message m w = (inr en, w') -> en = entry_of m /\ stored m w'.
Proof.
  rewrite process_message_unfold.
  destruct (json_loads (Body m)) as [e0|tx] eqn:Ej; [discriminate|].
  destruct (score tx) as [e0|s] eqn:Es; [discriminate|].
  destruct (write_db tx s w) as [r1 w1] eqn:Ew.
  pose proof (write_db_spec _ _ _ _ _ Ew) as (_ & _ & _ & _ & evs & _ & _ & _ & _ & R1).
  destruct r1 as [e0|[]]; [discriminate|].
  destruct R1 as (r & q & pre & Hr & Hq & _ & Er & Eq).
  destruct (scored_record tx s) as [e0|rec] eqn:Erec; [discriminate|].
  destruct (write_s3 rec w1) as [r2 w2] eqn:E2.
  pose proof (write_s3_spec _ _ _ _ E2) as (Rw & Sw & _ & _ & _ & R2).
  destruct r2 as [e0|[]]; [discriminate|]. intros [= <- <-].
  destruct R2 as (bytes & Hb & _ & Bk).
  split; [reflexivity|].
  exists tx, s, (raw_txn_id r), rec, bytes, (key_at (clock w1)).
  repeat split; auto.
  - now apply raw_params_key.
  - rewrite Rw, Er. apply has_key_insert.
  - rewrite Sw, Eq.
    assert (K : raw_txn_id r = sc_txn_id q).
    { apply raw_params_key in Hr. apply scored_params_key in Hq. congruence. }
    rewrite K. apply has_key_insert.
  - rewrite Bk. apply in_or_app. right. now left.
Qed.

(** The [for] loop: the store grows, and every new entry is the entry of a
    message of the batch that is in the store, in the order of the batch. *)
Lemma for_msgs_stored (msgs : list message) (acc : list entry) (w : world)
      (d : list entry) (w' : world) :
  for_msgs msgs acc w = (d, w') ->
  store_grows w w' /\ acked w' = acked w /\
  exists new, d = acc ++ new /\ subsequence new (map entry_of msgs) /\
    forall en, In en new -> exists m, In m msgs /\ en = entry_of m /\ stored m w'.
Proof.
  revert acc w. induction msgs as [|m msgs IH]; intros acc w; simpl.
  - intros [= <- <-]. split; [apply store_grows_refl|]. split; [reflexivity|].
    exists []. rewrite app_nil_r. repeat split; [constructor|]. intros en [].
  - destruct (process_message m w) as [r1 w1] eqn:E1.
    pose proof (process_message_grows _ _ _ _ E1) as G1.
    pose proof (process_message_spec _ _ _ _ E1) as (A1 & _).
    destruct r1 as [e|en1]; intros H; apply IH in H;
      destruct H as (G2 & A2 & new & -> & Sub & Hnew).
    + split; [eapply store_grows_trans; [exact G1|];
              eapply store_grows_trans; [|exact G2]; now apply store_grows_same|].
      split; [simpl in A2; congruence|].
      exists new. split; [reflexivity|]. split; [now constructor|].
      intros en Hen. destruct (Hnew en Hen) as (m' & Hm & He & Hst). eauto 6 using in_cons.
    + split; [eapply store_grows_trans; eauto|]. split; [congruence|].
      exists (en1 :: new). split; [now rewrite <- app_assoc|].
      destruct (process_message_stored _ _ _ _ E1) as [-> Hst1].
      split; [now constructor|].
      intros en [<-|Hen].
      * exists m. split; [now left|]. split; [reflexivity|]. eapply stored_grows; eauto.
      * destruct (Hnew en Hen) as (m' & Hm & He & Hst). eauto 6 using in_cons.
Qed.




End Store.

(* ================================================================== *)
(** * One message: bodies that are no object, and redelivery *)

Lemma subsequence_length {A} (a b : list A) :
  subsequence a b -> (length a <= length b)%nat.
Proof. induction 1; simpl; lia. Qed.

Lemma subsequence_in {A} (a b : list A) (x : A) : subsequence a b -> In x a -> In x b.
Proof. induction 1; simpl; intuition. Qed.

Lemma subsequence_nodup {A} (a b : list A) : subsequence a b -> NoDup b -> NoDup a.
Proof.
  induction 1 as [|x a b H IH|x a b H IH]; intros N; auto.
  - inversion N; auto.
  - inversion N as [|? ? Hx Hb]; subst. constructor; auto.
    intros Hin. apply Hx. eapply subsequence_in; eauto.
Qed.

Lemma subsequence_map {A B} (f : A -> B) (a b : list A) :
  subsequence a b -> subsequence (map f a) (map f b).
Proof.
  induction 1; simpl; [apply SubNil|apply SubSkip|apply SubKeep]; assumption.
Qed.

Section Messages.
Context {R : Runtime}.

(** X16.  The entries a batch leaves to acknowledge are entries of its
    messages, in the order of the batch and each message at most once: there
    are no more of them than messages, and their ids are distinct when those
    of the messages are. *)
Theorem ack_entries_follow_the_batch (msgs : list message) (w : world) :
  let to_delete := fst (for_msgs msgs [] w) in
  subsequence to_delete (map entry_of msgs) /\
  (length to_delete <= length msgs)%nat /\
  (NoDup (map MessageId msgs) -> NoDup (map Id to_delete)).
Proof.
  cbv zeta. destruct (for_msgs msgs [] w) as [d w'] eqn:E.
  pose proof (for_msgs_stored _ _ _ _ _ E) as (_ & _ & new & Hd & Sub & _).
  simpl in Hd. subst new. cbn [fst]. split; [exact Sub|]. split.
  - apply subsequence_length in Sub. now rewrite length_map in Sub.
  - intros N. apply (subsequence_map Id) in Sub. rewrite map_map in Sub.
    eapply subsequence_nodup; eauto.
Qed.

(** X14.  A body that is valid JSON but no object (an array, a string, a
    number, [null]) is turned down by the scorer with [TypeError], before
    anything is written. *)
Theorem body_that_is_no_object_is_rejected (m : message) (tx : pyval) (w : world) :
  json_loads (Body m) = inr tx ->
  (forall d, tx <> VDict d) ->
  process_message m w = (inl TypeError, w).
Proof.
  intros Hj Hn. rewrite process_message_unfold, Hj.
  destruct tx; try reflexivity. now destruct (Hn d).
Qed.


End Messages.

(* ================================================================== *)
(** * The idle counter and the polls that raise *)

Section IdleAndErrors.
Context {R : Runtime}.

Lemma cycle_events_failed (st : loop_state) (e : exn) :
  cycle_events st (RecvRaises e) =
    [(ReceiveMessage, Some e); (Print (LogLoopError e), None); (Sleep 2, None)] /\
  idle_ticks (iteration st (RecvRaises e)) = idle_ticks st /\
  extends (env st) (env (iteration st (RecvRaises e))).
Proof.
  unfold cycle_events. simpl. split; [|split; [reflexivity|]].
  - apply events_since_app. simpl. now rewrite <- !app_assoc.
  - eexists. simpl. now rewrite <- !app_assoc.
Qed.

Lemma idle_run_with_errors (polls : list poll) (st : loop_state) :
  0 <= idle_ticks st ->
  Forall (fun p => empty_poll p \/ is_failed_poll p = true) polls ->
  let st' := consumer_loop polls st in
  let n := Z.of_nat (length (returned polls)) in
  idle_ticks st' = idle_ticks st + n /\
  extends (env st) (env st') /\
  Z.of_nat (heartbeats (events_since (env st) (env st'))) =
    (idle_ticks st + n) / 10 - idle_ticks st / 10.
Proof.
  intros H0 Hall. induction polls as [|p polls IH] using rev_ind; cbv zeta.
  - simpl. split; [lia|]. split; [apply extends_refl|].
    unfold events_since. rewrite skipn_all. simpl. rewrite Z.add_0_r. lia.
  - apply Forall_app in Hall as [Hall Hp]. inversion Hp as [|? ? Hp' _]; subst.
    destruct (IH Hall) as [Hi [Hext Hcount]]. clear IH. cbv zeta in Hi, Hcount.
    rewrite consumer_loop_snoc. set (st1 := consumer_loop polls st) in *.
    unfold returned in *. rewrite filter_app, length_app.
    set (n := Z.of_nat (length (filter (fun p => negb (is_failed_poll p)) polls))) in *.
    assert (0 <= n) by lia.
    destruct Hp' as [Hp'|Hp'].
    + assert (Hr : is_failed_poll p = false) by (destruct Hp' as [r [-> _]]; reflexivity).
      destruct (cycle_events_empty st1 p Hp') as [Hev [Hi' Hext']].
      simpl filter. rewrite Hr. simpl length.
      replace (Z.of_nat (length (filter (fun p => negb (is_failed_poll p)) polls) + 1))
        with (n + 1) by (unfold n; lia).
      split; [lia|]. split; [eapply extends_trans; eauto|].
      rewrite (events_since_trans _ _ _ Hext Hext'). fold (cycle_events st1 p).
      unfold heartbeats in *. rewrite filter_app, length_app, Nat2Z.inj_add, Hcount, Hev.
      rewrite Hi. replace (idle_ticks st + (n + 1)) with (idle_ticks st + n + 1) by lia.
      destruct ((idle_ticks st + n + 1) mod 10 =? 0) eqn:E; simpl.
      * apply Z.eqb_eq in E. Z.to_euclidean_division_equations. lia.
      * apply Z.eqb_neq in E. Z.to_euclidean_division_equations. lia.
    + destruct p as [e|r]; [|discriminate].
      destruct (cycle_events_failed st1 e) as [Hev [Hi' Hext']].
      simpl filter. simpl length. rewrite Nat.add_0_r. fold n.
      split; [lia|]. split; [eapply extends_trans; eauto|].
      rewrite (events_since_trans _ _ _ Hext Hext'). fold (cycle_events st1 (RecvRaises e)).
      unfold heartbeats in *. rewrite filter_app, length_app, Nat2Z.inj_add, Hcount, Hev.
      simpl. lia.
Qed.

(** X18.  A poll that raises neither advances nor resets the idle counter: in
    a run of polls that come back empty or raise, from a counter at zero,
    the heartbeats are one for every ten polls that came back, however many
    raised in between, and every poll that raised is followed by its log
    line and a sleep of two seconds. *)
Theorem heartbeat_counts_only_the_polls_that_returned
        (st : loop_state) (polls : list poll) :
  idle_ticks st = 0 ->
  Forall (fun p => empty_poll p \/ is_failed_poll p = true) polls ->
  heartbeats (events_since (env st) (env (consumer_loop polls st)))
    = (length (returned polls) / 10)%nat /\
  idle_ticks (consumer_loop polls st) = Z.of_nat (length (returned polls)) /\
  (forall st0 e, cycle_events st0 (RecvRaises e) =
     [(ReceiveMessage, Some e); (Print (LogLoopError e), None); (Sleep 2, None)]).
Proof.
  intros H0 Hall.
  destruct (idle_run_with_errors polls st ltac:(lia) Hall) as (Hi & _ & Hc).
  cbv zeta in Hi, Hc. rewrite H0 in Hi, Hc. simpl in Hi, Hc.
  split; [|split; [exact Hi|intros; apply cycle_events_failed]].
  change (0 / 10) with 0 in Hc. rewrite Z.sub_0_r in Hc.
  apply Nat2Z.inj. rewrite Hc, Nat2Z.inj_div. reflexivity.
Qed.

End IdleAndErrors.

(* ================================================================== *)
(** * The archive writer: the line and the key *)

Lemma encode_ascii (s : pystr) : ascii s -> encode s = inr s.
Proof.
  induction 1 as [|c s Hc _ IH]; [reflexivity|]. simpl. rewrite IH.
  unfold utf8_char. destruct (c <? 0) eqn:E0; [lia|].
  destruct (c <? 128) eqn:E1; [reflexivity|lia].
Qed.

Lemma ascii_app (a b : pystr) : ascii a -> ascii b -> ascii (a ++ b).
Proof. unfold ascii. intros. now apply Forall_app. Qed.

Ltac ascii_literal :=
  unfold ascii, str; cbn; repeat (apply Forall_cons; [lia|]); apply Forall_nil.

Lemma decimal_digits_ascii (fuel : nat) :
  forall n acc, ascii acc -> ascii (decimal_digits fuel n acc).
Proof.
  induction fuel as [|fuel IH]; intros n acc Ha; simpl; [assumption|].
  assert (A : ascii ((48 + n mod 10) :: acc)).
  { constructor; [|assumption]. pose proof (Z.mod_pos_bound n 10). lia. }
  destruct (n <? 10); auto.
Qed.

Lemma int_repr_ascii (z : Z) : ascii (int_repr z).
Proof.
  unfold int_repr. destruct (z <? 0).
  - constructor; [lia|]. apply decimal_digits_ascii. constructor.
  - apply decimal_digits_ascii. constructor.
Qed.

Lemma hex4_ascii (c : Z) : ascii (hex4 c).
Proof.
  unfold hex4, ascii. apply Forall_map, Forall_forall. intros i _.
  pose proof (hex_digit_ascii (Z.shiftr c (4 * Z.of_nat i) mod 16)
                              ltac:(apply Z.mod_pos_bound; lia)). lia.
Qed.

Lemma escape_char_ascii (c : Z) : ascii (escape_char c).
Proof.
  unfold escape_char.
  repeat match goal with
         | |- ascii (if ?b then _ else _) => destruct b eqn:?
         end;
    try (repeat constructor; lia);
    repeat first [apply ascii_app | apply hex4_ascii | ascii_literal].
Qed.

Lemma quote_ascii (s : pystr) : ascii (quote s).
Proof.
  unfold quote. apply ascii_app; [repeat constructor; lia|].
  apply ascii_app; [|repeat constructor; lia].
  induction s as [|c s IH]; simpl; [constructor|].
  apply ascii_app; [apply escape_char_ascii|exact IH].
Qed.

Lemma join_ascii (sep : pystr) (parts : list pystr) :
  ascii sep -> Forall ascii parts -> ascii (join sep parts).
Proof.
  intros Hs. induction 1 as [|x parts Hx Hp IH]; simpl; [constructor|].
  destruct parts; [assumption|]. apply ascii_app; [assumption|]. now apply ascii_app.
Qed.

Section Archive.
Context {R : Runtime}.
Hypothesis float_repr_ascii : forall f, ascii (float_repr f).

(** [json.dumps] escapes what is not ASCII. *)
Lemma json_dumps_ascii (v : pyval) : ascii (json_dumps v).
Proof.
  induction v as [|b|z|f|s|l IH|d IH] using pyval_nested_ind; cbn [json_dumps].
  - ascii_literal.
  - destruct b; ascii_literal.
  - apply int_repr_ascii.
  - unfold dumps_float. destruct f as [| [] | |]; auto; ascii_literal.
  - apply quote_ascii.
  - apply ascii_app; [ascii_literal|]. apply ascii_app; [|ascii_literal].
    apply join_ascii; [ascii_literal|]. now apply Forall_map.
  - apply ascii_app; [ascii_literal|]. apply ascii_app; [|ascii_literal].
    apply join_ascii; [ascii_literal|].
    induction IH as [|[k x] d Hx Hd IHd]; [constructor|]. constructor; [|exact IHd].
    apply ascii_app; [apply quote_ascii|]. apply ascii_app; [ascii_literal|exact Hx].
Qed.

(** X11.  [write_s3] never fails before the object store is called: the line
    [json.dumps(tx) + "\n"] is ASCII, so encoding it cannot raise and gives
    one byte per character. Every call puts exactly one object, the
    compressed line, under the key of the clock, and raises exactly when the
    put raises. *)
Theorem write_s3_fails_only_in_put_object (rec : pyval) (w w' : world) (res : exn + unit) :
  write_s3 rec w = (res, w') ->
  exists o,
    events_since w w' =
      [(PutObject (key_at (clock w)) (Gzip (json_dumps rec ++ [10])), o)] /\
    match o with
    | Some e => res = inl e /\ bucket w' = bucket w
    | None => res = inr tt /\
              bucket w' = bucket w ++ [(key_at (clock w), Gzip (json_dumps rec ++ [10]))]
    end.
Proof.
  unfold write_s3.
  rewrite encode_ascii
    by (apply ascii_app; [apply json_dumps_ascii|repeat constructor; lia]).
  destruct w as [raw sc bk ak cn op ck fs tr]. unfold external. simpl.
  destruct fs as [|[e|] fs]; intros [= <- <-]; eexists; (split;
    [apply events_since_app; reflexivity|]); simpl; auto.
Qed.

End Archive.

(* ================================================================== *)
(** * The archived record *)

Lemma dict_get_set_same (k : pystr) (v : pyval) (d : dict) :
  dict_get k (dict_set k v d) = Some v.
Proof.
  induction d as [|[k' v'] d IH]; simpl.
  - now rewrite pystr_eqb_refl.
  - destruct (pystr_eqb k k') eqn:E; simpl; rewrite E; auto.
Qed.

Lemma dict_get_set_other (k k' : pystr) (v : pyval) (d : dict) :
  k' <> k -> dict_get k' (dict_set k v d) = dict_get k' d.
Proof.
  intros Hn. induction d as [|[k0 v0] d IH]; simpl.
  - destruct (pystr_eqb k' k) eqn:E; [|reflexivity].
    apply pystr_eqb_eq in E. contradiction.
  - destruct (pystr_eqb k k0) eqn:E; simpl.
    + apply pystr_eqb_eq in E. subst k0.
      destruct (pystr_eqb k' k) eqn:E'; [|reflexivity].
      apply pystr_eqb_eq in E'. contradiction.
    + now rewrite IH.
Qed.

Lemma dict_set_keys (k : pystr) (v : pyval) (d : dict) :
  map fst (dict_set k v d) =
  if existsb (pystr_eqb k) (map fst d) then map fst d else map fst d ++ [k].
Proof.
  induction d as [|[k' v'] d IH]; simpl; [reflexivity|].
  destruct (pystr_eqb k k') eqn:E; simpl; [reflexivity|].
  rewrite IH. now destruct (existsb (pystr_eqb k) (map fst d)).
Qed.

(** X13.  The record put in the archive is the transaction with its [score]
    and [model] set: a field of one of these names that came with the
    message is replaced by the computed score and the configured model,
    every other field keeps its value, and no field is dropped. *)
Theorem archived_record_fields {R : Runtime} (d : dict) (s : float) :
  exists rec,
    scored_record (VDict d) s = inr (VDict rec) /\
    dict_get (str "score") rec = Some (VFloat s) /\
    dict_get (str "model") rec = Some (VStr MODEL_VERSION) /\
    (forall k, k <> str "score" -> k <> str "model" -> dict_get k rec = dict_get k d) /\
    (forall k, In k (map fst d) -> In k (map fst rec)).
Proof.
  eexists. split; [reflexivity|]. split; [|split; [|split]].
  - rewrite dict_get_set_other by discriminate. apply dict_get_set_same.
  - apply dict_get_set_same.
  - intros k H1 H2. now rewrite !dict_get_set_other.
  - intros k Hk. rewrite !dict_set_keys.
    repeat match goal with
           | |- context [if ?b then _ else _] => destruct b
           end; repeat (apply in_or_app; left); assumption.
Qed.

(* ================================================================== *)
(** * The key of an archived object *)

Lemma key_at_inj (t1 t2 : Z) : key_at t1 = key_at t2 -> t1 = t2.
Proof. unfold key_at. now intros [= _ _ H]. Qed.

(** X12.  The key of an archived object is made of the clock alone: two calls
    of [write_s3] put under the same key exactly when the clock shows them
    the same second, whatever the two records are. *)
Theorem archive_key_is_the_second {R : Runtime}
        (rec1 rec2 : pyval) (w1 w1' w2 w2' : world) (res1 res2 : exn + unit)
        (k1 k2 : s3key) (b1 b2 : blob) (o1 o2 : option exn) :
  write_s3 rec1 w1 = (res1, w1') ->
  write_s3 rec2 w2 = (res2, w2') ->
  In (PutObject k1 b1, o1) (events_since w1 w1') ->
  In (PutObject k2 b2, o2) (events_since w2 w2') ->
  (k1 = k2 <-> clock w1 = clock w2).
Proof.
  assert (P : forall rec w w' res k b o,
             write_s3 rec w = (res, w') ->
             In (PutObject k b, o) (events_since w w') -> k = key_at (clock w)).
  { intros rec w w' res k b o H Hin.
    destruct w as [raw sc bk ak cn op ck fs tr]. unfold write_s3, external in H.
    simpl in H. destruct (encode (json_dumps rec ++ [10])) as [e|bytes].
    - injection H as <- <-. rewrite events_since_self in Hin. destruct Hin.
    - destruct fs as [|[e|] fs]; injection H as <- <-;
        rewrite (events_since_app _ _ [_]) in Hin by reflexivity;
        destruct Hin as [[= <- _ _]|[]]; reflexivity. }
  intros H1 H2 I1 I2.
  rewrite (P _ _ _ _ _ _ _ H1 I1), (P _ _ _ _ _ _ _ H2 I2).
  split; [apply key_at_inj|now intros ->].
Qed.

(* ================================================================== *)
(** * When the acknowledgment fails *)


(* ================================================================== *)
(** * An amount that is no number *)

(** X5.  [json.loads] reads [NaN] as a float. With such an amount the sum is
    NaN, no comparison with it holds, and [min(1.0, sum)] gives back its
    first argument: the score is 1.0, whatever the card. *)
Theorem nan_amount_scores_one (d : dict) (card : pystr) :
  dict_get (str "card_hash") d = Some (VStr card) ->
  encodable card ->
  dict_get (str "amount") d = Some (VFloat S754_nan) ->
  score (VDict d) = inr f_1_0.
Proof.
  intros Hc He Ha. unfold score, subscript. rewrite Hc, Ha. simpl.
  destruct (encode_total card He) as [bytes ->]. reflexivity.
Qed.

(* ================================================================== *)
(** * A cycle in which no call fails *)

Section NoFault.
Context {R : Runtime}.
Hypothesis float_repr_ascii : forall f, ascii (float_repr f).






End NoFault.

(* ================================================================== *)
(** * The further properties on concrete inputs *)

Lemma score_is_one_from_1667_on_witness :
  score (VDict [(str "card_hash", VStr (str "abc")); (str "amount", VInt 2000)])
    = inr f_1_0.
Proof.
  apply (score_is_one_from_1667_on
           [(str "card_hash", VStr (str "abc")); (str "amount", VInt 2000)]
           (str "abc") (VInt 2000)).
  - reflexivity.
  - repeat constructor; vm_compute; intuition discriminate.
  - reflexivity.
  - simpl. lia.
  - vm_compute. discriminate.
Defined.

Lemma score_is_below_one_up_to_500_witness :
  exists h amount,
    hash_bucket (VStr (str "abc")) = inr h /\ as_float (VInt 500) = inr amount /\
    let sum := fadd (fmul f_0_3 (fdiv amount f_500))
                    (fmul f_0_7 (fdiv (float_of_Z h) f_100)) in
    score (VDict [(str "card_hash", VStr (str "abc")); (str "amount", VInt 500)])
      = inr sum /\
    fltb sum f_1_0 = true.
Proof.
  apply (score_is_below_one_up_to_500
           [(str "card_hash", VStr (str "abc")); (str "amount", VInt 500)]
           (str "abc") (VInt 500)).
  - reflexivity.
  - repeat constructor; vm_compute; intuition discriminate.
  - reflexivity.
  - simpl. lia.
  - simpl. lia.
  - vm_compute. discriminate.
Defined.

Lemma producer_tx_is_scored_witness :
  let x := {| draw_txn := 0x123e4567e89b42d3a456426614174000;
              draw_amount := S754_finite false 8800491068719104 (-43);
              draw_merchant := 17;
              draw_card := 0x9f1c2b3a4d5e4f60b7a8c9d0e1f20314;
              draw_ts := str "2024-05-01T10:00:00.250000" |} in
  exists s r q,
    score (producer_tx x) = inr s /\
    fleb f_0_48 s = true /\ fleb s f_1_0 = true /\
    @raw_params baseline (producer_tx x) = inr r /\
    raw_txn_id r = VStr (uuid_str (draw_txn x)) /\
    @scored_params baseline (producer_tx x) s = inr q.
Proof.
  apply (@producer_tx_is_scored baseline). repeat split; reflexivity.
Defined.

Lemma pg_connect_raises_the_last_error_witness :
  let es := repeat OperationalError 9 in
  let w := fresh (map Some (es ++ [OtherError 7])) in
  pg_connect w =
    (inl (OtherError 7),
     {| tx_raw := tx_raw w; tx_scored := tx_scored w; bucket := bucket w;
        acked := acked w; conn := conn w; opened := opened w;
        clock := clock w + 30;
        faults := []; trace := trace w ++ failed_attempts 3 (es ++ [OtherError 7]) |}).
Proof.
  apply (pg_connect_raises_the_last_error (repeat OperationalError 9) (OtherError 7)
           (fresh (map Some (repeat OperationalError 9 ++ [OtherError 7]))) []).
  - reflexivity.
  - simpl. reflexivity.
Defined.

Lemma pg_connect_returns_after_failures_witness :
  let es := [OperationalError; OtherError 3] in
  let w := fresh (map Some es ++ [None; Some OperationalError]) in
  pg_connect w =
    (inr (opened w + 1),
     {| tx_raw := tx_raw w; tx_scored := tx_scored w; bucket := bucket w;
        acked := acked w; conn := conn w; opened := opened w + 1;
        clock := clock w + 3 * Z.of_nat (length es);
        faults := [Some OperationalError];
        trace := trace w ++ failed_attempts 3 es ++ [(Connect, None)] |}).
Proof.
  apply (pg_connect_returns_after_failures [OperationalError; OtherError 3]
           (fresh (map Some [OperationalError; OtherError 3] ++ [None; Some OperationalError]))
           [Some OperationalError]).
  - simpl. lia.
  - reflexivity.
Defined.

Lemma write_db_missing_field_writes_nothing_witness :
  let d := [(str "txn_id", VStr (str "t1")); (str "amount", VInt 1000);
            (str "card_hash", VStr (str "abc")); (str "ts", VStr (str "2024-05-01"))] in
  let w := fresh [] in
  let res := fst (@write_db baseline (VDict d) f_1_0 w) in
  let w' := snd (@write_db baseline (VDict d) f_1_0 w) in
  (exists e, res = inl e) /\
  tx_raw w' = tx_raw w /\ tx_scored w' = tx_scored w /\
  (faults w = [] ->
   (exists k', res = inl (KeyError k')) /\
   events_since w w' = [(Cursor (conn w), None)]).
Proof.
  intros d w res w'.
  apply (@write_db_missing_field_writes_nothing baseline d f_1_0 (str "merchant_id") w w' res).
  - simpl. auto.
  - reflexivity.
  - apply surjective_pairing.
Defined.

Lemma write_db_is_not_atomic_witness :
  let w := fresh [None; None; Some (OtherError 1)] in
  exists r q w',
    @raw_params baseline tx1 = inr r /\ @scored_params baseline tx1 f_1_0 = inr q /\
    @write_db baseline tx1 f_1_0 w = (inl (OtherError 1), w') /\
    tx_raw w' = tx_raw w ++ [r] /\ tx_scored w' = tx_scored w /\
    conn w' = conn w /\ opened w' = opened w /\ faults w' = [] /\
    events_since w w' = [(Cursor (conn w), None); (InsertRaw (conn w) r, None);
                         (InsertScored (conn w) q, Some (OtherError 1))].
Proof.
  cbv zeta. eexists. eexists.
  destruct (@write_db_is_not_atomic baseline tx1 f_1_0
              (fresh [None; None; Some (OtherError 1)]) (OtherError 1) _ _ []
              eq_refl ltac:(discriminate) eq_refl eq_refl eq_refl) as [w' H].
  exists w'. split; [reflexivity|]. split; [reflexivity|]. exact H.
Defined.

Lemma body_that_is_no_object_is_rejected_witness :
  @process_message baseline (msg "1" (str "[1, 2]")) (fresh [])
    = (inl TypeError, fresh []).
Proof.
  apply (@body_that_is_no_object_is_rejected baseline _ (VList [VInt 1; VInt 2])).
  - vm_compute. reflexivity.
  - discriminate.
Defined.


Lemma heartbeat_counts_only_the_polls_that_returned_witness :
  let polls := repeat (RecvReturns RespNone) 6 ++ [RecvRaises (OtherError 1)] ++
               repeat (RecvReturns RespNoMessages) 4 ++ [RecvRaises OperationalError] in
  heartbeats (events_since (env (start (fresh [])))
                (env (@consumer_loop baseline polls (start (fresh [])))))
    = (length (returned polls) / 10)%nat /\
  idle_ticks (@consumer_loop baseline polls (start (fresh [])))
    = Z.of_nat (length (returned polls)) /\
  (forall st0 e, @cycle_events baseline st0 (RecvRaises e) =
     [(ReceiveMessage, Some e); (Print (LogLoopError e), None); (Sleep 2, None)]).
Proof.
  apply (@heartbeat_counts_only_the_polls_that_returned baseline).
  - reflexivity.
  - simpl.
    repeat (constructor;
            [first [right; reflexivity | left; eexists; split; reflexivity]|]).
    constructor.
Defined.

Lemma baseline_float_repr_ascii (f : float) : ascii (@float_repr baseline f).
Proof.
  unfold baseline, frag_runtime, float_repr, repr_frag.
  destruct f as [[]|s| |s m e]; try ascii_literal; try constructor.
  destruct (integral_value (S754_finite s m e)) as [z|].
  - destruct (Z.abs z <? 10 ^ 16).
    + apply ascii_app; [apply int_repr_ascii|ascii_literal].
    + apply int_repr_ascii.
  - apply int_repr_ascii.
Qed.

Lemma write_s3_fails_only_in_put_object_witness :
  let w := fresh [Some (OtherError 5)] in
  exists o,
    events_since w (snd (@write_s3 baseline tx1 w)) =
      [(PutObject (key_at (clock w)) (Gzip (@json_dumps baseline tx1 ++ [10])), o)] /\
    match o with
    | Some e => fst (@write_s3 baseline tx1 w) = inl e /\
                bucket (snd (@write_s3 baseline tx1 w)) = bucket w
    | None => fst (@write_s3 baseline tx1 w) = inr tt /\
              bucket (snd (@write_s3 baseline tx1 w)) =
                bucket w ++ [(key_at (clock w), Gzip (@json_dumps baseline tx1 ++ [10]))]
    end.
Proof.
  apply (@write_s3_fails_only_in_put_object baseline baseline_float_repr_ascii).
  apply surjective_pairing.
Defined.

Lemma archive_key_is_the_second_witness :
  let w1 := fresh [] in
  let w2 := sleep 2 (fresh []) in
  key_at (clock w1) = key_at (clock w2) <-> clock w1 = clock w2.
Proof.
  intros w1 w2.
  apply (@archive_key_is_the_second baseline tx1 (VInt 7)
           w1 (snd (@write_s3 baseline tx1 w1)) w2 (snd (@write_s3 baseline (VInt 7) w2))
           (fst (@write_s3 baseline tx1 w1)) (fst (@write_s3 baseline (VInt 7) w2))
           (key_at (clock w1)) (key_at (clock w2))
           (Gzip (@json_dumps baseline tx1 ++ [10]))
           (Gzip (@json_dumps baseline (VInt 7) ++ [10])) None None).
  - apply surjective_pairing.
  - apply surjective_pairing.
  - vm_compute. left. reflexivity.
  - vm_compute. left. reflexivity.
Defined.


Lemma nan_amount_scores_one_witness :
  score (VDict [(str "amount", VFloat S754_nan); (str "card_hash", VStr (str "abc"))])
    = inr f_1_0.
Proof.
  apply (nan_amount_scores_one
           [(str "amount", VFloat S754_nan); (str "card_hash", VStr (str "abc"))]
           (str "abc")).
  - reflexivity.
  - repeat constructor; vm_compute; intuition discriminate.
  - reflexivity.
Defined.

